(** * api/helpers.c: conversions between the interpreter's typval_T values and
    the API's Object values, the dictionary accessors and the try_start /
    try_end bracket.

    The C functions are embedded as functions over an explicit memory
    ([mem]): every heap or stack object the code touches through a pointer is
    a block with an address, so that pointer identity (the key of the
    [Lookup] table of [vim_to_object_rec]), sharing, cycles, allocation and
    freeing are all visible.  A result is [Done], [Fault] (the C code would
    read or free an invalid pointer, or run past the end of an array) or
    [OutOfFuel] (only for the recursions that are not structural). *)

From Stdlib Require Import ZArith String Ascii PrimFloat.
From stdpp Require Import base numbers option list strings gmap sets.

Local Open Scope Z_scope.
#[local] Set Warnings "-clear-no-such-hyp".

(** ** Results of a computation *)

Inductive res (A : Type) : Type :=
  | Done (a : A)
  | Fault
  | OutOfFuel.
Arguments Done {A} a.
Arguments Fault {A}.
Arguments OutOfFuel {A}.

Definition bind {A B : Type} (r : res A) (k : A -> res B) : res B :=
  match r with
  | Done a => k a
  | Fault => Fault
  | OutOfFuel => OutOfFuel
  end.

Notation "x <- e ;; k" := (bind e (fun x => k))
  (at level 100, e at next level, right associativity).

(** ** C strings *)

(** The bytes of [s] up to its first NUL: what [strlen], [xstrdup],
    [STRCPY] and [hash_find] see of a buffer holding [s] followed by NUL,
    and what [xstrndup (s, size)] copies. *)
Fixpoint cstr (s : string) : string :=
  match s with
  | EmptyString => EmptyString
  | String c s' =>
      if Ascii.eqb c Ascii.zero then EmptyString else String c (cstr s')
  end.

(** ** The API side: Object (api/defs.h) *)

(** [String] is a pointer and a size: a Rocq string of [size] bytes, NUL
    allowed.  [Array] and [Dictionary] are a pointer and a size: lists. *)
#[warnings="-register-all"] Inductive Object : Type :=
  | ObjNil
  | ObjBool (boolean : bool)
  | ObjInt (integer : Z)
  | ObjFloat (floating_point : float)
  | ObjString (str : string)
  | ObjArray (items : list Object)
  | ObjDictionary (items : list (string * Object)).

(** [Error]: the message buffer and the flag. *)
Record Error : Type := { msg : string; set : bool }.

(** ** The interpreter side: typval_T, list_T, dict_T (eval_defs.h) *)

Abbreviation addr := positive (only parsing).

Inductive VarType : Type :=
  | VAR_UNKNOWN | VAR_NUMBER | VAR_STRING | VAR_FUNC
  | VAR_LIST | VAR_DICT | VAR_FLOAT.

(** The union [vval] together with the tag [v_type] that says which member
    is in use.  A NULL pointer is [None]. *)
Inductive vval_T : Type :=
  | V_UNKNOWN
  | V_NUMBER (v_number : Z)
  | V_STRING (v_string : option string)
  | V_FUNC (v_string : option string)
  | V_LIST (v_list : option addr)
  | V_DICT (v_dict : option addr)
  | V_FLOAT (v_float : float).

Record typval_T : Type := { v_lock : Z; vval : vval_T }.

Definition v_type (tv : typval_T) : VarType :=
  match vval tv with
  | V_UNKNOWN => VAR_UNKNOWN
  | V_NUMBER _ => VAR_NUMBER
  | V_STRING _ => VAR_STRING
  | V_FUNC _ => VAR_FUNC
  | V_LIST _ => VAR_LIST
  | V_DICT _ => VAR_DICT
  | V_FLOAT _ => VAR_FLOAT
  end.

(** [lv_items] is the chain [lv_first], [li_next], ... of the list's items
    (their addresses); [lv_len] is its length. *)
Record list_T : Type :=
  { lv_items : list addr; lv_refcount : Z; lv_lock : Z }.

(** A slot of a hashtable: never used ([hi_key == NULL]), removed
    ([hi_key == &hash_removed]) or holding the key of a dictitem_T; [hi_di]
    is that item, [HI2DI(hi)]. *)
Inductive hashitem_T : Type :=
  | HI_NULL
  | HI_REMOVED
  | HI_KEY (hi_key : string) (hi_di : addr).

Record hashtab_T : Type := { ht_used : nat; ht_array : list hashitem_T }.

Record dict_T : Type :=
  { dv_lock : Z; dv_refcount : Z; dv_hashtab : hashtab_T }.

(** What an address can hold.  The address of a list item or of a
    dictionary item is also the address of its typval_T ([&li->li_tv],
    [&di->di_tv]); [B_typval] is a typval_T of its own, such as the local
    [tv] of [dict_set_value]. *)
Inductive block : Type :=
  | B_typval (tv : typval_T)
  | B_listitem (li_tv : typval_T)
  | B_dictitem (di_key : string) (di_tv : typval_T)
  | B_list (l : list_T)
  | B_dict (d : dict_T).

(** The memory: the live blocks, and the next address the allocator hands
    out (addresses are never handed out twice). *)
Record mem : Type := { blocks : gmap addr block; next : addr }.

Definition alloc (b : block) (m : mem) : addr * mem :=
  (next m, {| blocks := <[next m := b]> (blocks m); next := Pos.succ (next m) |}).

(** [free]: freeing what is not live is a fault. *)
Definition free (a : addr) (m : mem) : res mem :=
  match blocks m !! a with
  | Some _ => Done {| blocks := delete a (blocks m); next := next m |}
  | None => Fault
  end.

Definition load_tv (m : mem) (a : addr) : res typval_T :=
  match blocks m !! a with
  | Some (B_typval tv) | Some (B_listitem tv) | Some (B_dictitem _ tv) => Done tv
  | _ => Fault
  end.

Definition store_tv (a : addr) (tv : typval_T) (m : mem) : res mem :=
  match blocks m !! a with
  | Some (B_typval _) =>
      Done {| blocks := <[a := B_typval tv]> (blocks m); next := next m |}
  | Some (B_listitem _) =>
      Done {| blocks := <[a := B_listitem tv]> (blocks m); next := next m |}
  | Some (B_dictitem k _) =>
      Done {| blocks := <[a := B_dictitem k tv]> (blocks m); next := next m |}
  | _ => Fault
  end.

Definition load_list (m : mem) (l : addr) : res list_T :=
  match blocks m !! l with
  | Some (B_list lv) => Done lv
  | _ => Fault
  end.

Definition store_list (l : addr) (lv : list_T) (m : mem) : res mem :=
  match blocks m !! l with
  | Some (B_list _) =>
      Done {| blocks := <[l := B_list lv]> (blocks m); next := next m |}
  | _ => Fault
  end.

Definition load_dict (m : mem) (d : addr) : res dict_T :=
  match blocks m !! d with
  | Some (B_dict dv) => Done dv
  | _ => Fault
  end.

Definition store_dict (d : addr) (dv : dict_T) (m : mem) : res mem :=
  match blocks m !! d with
  | Some (B_dict _) =>
      Done {| blocks := <[d := B_dict dv]> (blocks m); next := next m |}
  | _ => Fault
  end.

Definition load_dictitem_key (m : mem) (di : addr) : res string :=
  match blocks m !! di with
  | Some (B_dictitem k _) => Done k
  | _ => Fault
  end.

(** ** What the headers outside the sources fix *)

Section Helpers.

(** The implicit conversions of [rv.data.integer = obj->vval.v_number] and
    of [tv->vval.v_number = obj.data.integer]: the widths of [Integer] and
    of [varnumber_T] are declared in api/defs.h and in the interpreter's
    headers. *)
Variable Integer_of_varnumber : Z -> Z.
Variable varnumber_of_Integer : Z -> Z.

(** [sizeof(err->msg)], from api/defs.h. *)
Variable ERR_MSG_SIZE : nat.

(** The hash of a key, which decides where the hashtable puts it and so the
    order in which a dictionary is enumerated. *)
Variable hash_hash : string -> nat.

(** The message list of the interpreter and the text
    [get_exception_string (list, ET_ERROR, NULL, &should_free)] renders from
    it, with the flag it stores in [should_free]. *)
Variable msglist_T : Type.
Variable get_exception_string : msglist_T -> string * bool.

(** ** Error *)

(** [strncpy (dst, src, n)] as far as the text of [dst] goes: the first [n]
    bytes of the C string [src]. *)
Definition strncpy (src : string) (n : nat) : string :=
  String.substring 0 n (cstr src).

(** Modelled from the spec: the macro [set_api_error] of api/helpers.h is
    not among the sources; it fills the Error Channel, "a fixed-capacity
    message buffer plus a set flag", as lines 53-54 of [try_end] do by
    hand. *)
Definition set_api_error (message : string) (err : Error) : Error :=
  {| msg := strncpy message ERR_MSG_SIZE; set := true |}.

(** ** vim_to_object_rec, vim_to_object *)

Definition HASHITEM_EMPTY (hi : hashitem_T) : bool :=
  match hi with
  | HI_KEY _ _ => false
  | _ => true
  end.

Definition is_container (tv : typval_T) : bool :=
  match v_type tv with
  | VAR_LIST | VAR_DICT => true
  | _ => false
  end.

(** The counting loop of the VAR_DICT case:
    [for (hi = ht->ht_array; todo > 0; ++hi)].  It stops when [todo]
    reaches 0 and faults when it leaves the array first. *)
Fixpoint count_items (todo : nat) (arr : list hashitem_T) : res nat :=
  match todo with
  | O => Done O
  | S todo' =>
      match arr with
      | [] => Fault
      | hi :: arr' =>
          if HASHITEM_EMPTY hi then count_items todo arr'
          else n <- count_items todo' arr' ;; Done (S n)
      end
  end.

(** The loop of the VAR_LIST case, over the recursive call [rec]. *)
Fixpoint convert_list_items (rec : addr -> gset addr -> res (Object * gset addr))
    (items : list addr) (lookup : gset addr) : res (list Object * gset addr) :=
  match items with
  | [] => Done ([], lookup)
  | item :: rest =>
      r <- rec item lookup ;;
      let '(o, lookup) := r in
      r <- convert_list_items rec rest lookup ;;
      let '(os, lookup) := r in
      Done (o :: os, lookup)
  end.

(** The converting loop of the VAR_DICT case, over the recursive call. *)
Fixpoint convert_dict_items (rec : addr -> gset addr -> res (Object * gset addr))
    (todo : nat) (arr : list hashitem_T) (lookup : gset addr)
    : res (list (string * Object) * gset addr) :=
  match todo with
  | O => Done ([], lookup)
  | S todo' =>
      match arr with
      | [] => Fault
      | HI_KEY key di :: arr' =>
          r <- rec di lookup ;;
          let '(o, lookup) := r in
          r <- convert_dict_items rec todo' arr' lookup ;;
          let '(kvs, lookup) := r in
          Done ((cstr key, o) :: kvs, lookup)
      | _ :: arr' => convert_dict_items rec todo arr' lookup
      end
  end.

(** [lookup] is the khash set of the addresses ([(uint64_t)obj], the
    typval_T pointers) of the containers processed so far; it is updated in
    place in C and threaded here. *)
Fixpoint vim_to_object_rec (fuel : nat) (m : mem) (obj : addr)
    (lookup : gset addr) : res (Object * gset addr) :=
  match fuel with
  | O => OutOfFuel
  | S fuel' =>
      tv <- load_tv m obj ;;
      if is_container tv && bool_decide (obj ∈ lookup) then Done (ObjNil, lookup)
      else
        let lookup := if is_container tv then {[obj]} ∪ lookup else lookup in
        match vval tv with
        | V_STRING (Some s) => Done (ObjString (cstr s), lookup)
        | V_STRING None => Done (ObjNil, lookup)
        | V_NUMBER n => Done (ObjInt (Integer_of_varnumber n), lookup)
        | V_FLOAT f => Done (ObjFloat f, lookup)
        | V_LIST (Some list) =>
            lv <- load_list m list ;;
            r <- convert_list_items (vim_to_object_rec fuel' m) (lv_items lv) lookup ;;
            let '(items, lookup) := r in
            Done (ObjArray items, lookup)
        | V_LIST None => Done (ObjNil, lookup)
        | V_DICT (Some dict) =>
            dv <- load_dict m dict ;;
            let ht := dv_hashtab dv in
            _ <- count_items (ht_used ht) (ht_array ht) ;;
            r <- convert_dict_items (vim_to_object_rec fuel' m) (ht_used ht)
                   (ht_array ht) lookup ;;
            let '(items, lookup) := r in
            Done (ObjDictionary items, lookup)
        | V_DICT None => Done (ObjNil, lookup)
        | V_FUNC _ | V_UNKNOWN => Done (ObjNil, lookup)
        end
  end.

(** [vim_to_object]: a fresh table, freed at the end.  The recursion enters
    a container typval_T only when its address is not yet in the table, so
    its depth is at most the number of blocks ([vim_to_object_rec_fuel]
    below proves that this fuel is never exhausted). *)
Definition vim_to_object (m : mem) (obj : addr) : res Object :=
  r <- vim_to_object_rec (S (size (blocks m))) m obj ∅ ;;
  Done (fst r).

(** ** The interpreter's list, dictionary and typval primitives *)

(** What [malloc] leaves in a typval_T: every user overwrites it first. *)
Definition uninit_tv : typval_T := {| v_lock := 0; vval := V_UNKNOWN |}.

(** Modelled from the spec: [list_alloc], [listitem_alloc], [list_append]
    ("list append / list allocate") of eval.c are not among the sources.  A
    new list is empty and has reference count 0. *)
Definition list_alloc (m : mem) : addr * mem :=
  alloc (B_list {| lv_items := []; lv_refcount := 0; lv_lock := 0 |}) m.

Definition listitem_alloc (m : mem) : addr * mem :=
  alloc (B_listitem uninit_tv) m.

Definition list_append (l li : addr) (m : mem) : res mem :=
  lv <- load_list m l ;;
  store_list l {| lv_items := lv_items lv ++ [li];
                  lv_refcount := lv_refcount lv; lv_lock := lv_lock lv |} m.

(** Modelled from the spec: [dict_alloc], [dictitem_alloc] ("dict alloc") of
    eval.c are not among the sources.  A new dictionary is empty, unlocked
    and has reference count 0; a new item holds a copy of the C string
    [key]. *)
Definition dict_alloc (m : mem) : addr * mem :=
  alloc (B_dict {| dv_lock := 0; dv_refcount := 0;
                   dv_hashtab := {| ht_used := O; ht_array := [] |} |}) m.

Definition dictitem_alloc (key : string) (m : mem) : addr * mem :=
  alloc (B_dictitem (cstr key) uninit_tv) m.

(** Modelled from the spec: the hashtable of hashtab.c ("hashtable
    enumeration primitive", "table may contain tombstoned/empty slots") is
    not among the sources.  The table is the sequence of its slots.
    [hash_find] gives the index of the slot that holds [key], or of a slot
    that is empty (here: one past the last) when there is none. *)
Fixpoint hash_find (arr : list hashitem_T) (key : string) : nat :=
  match arr with
  | [] => O
  | HI_KEY k _ :: arr' => if decide (k = key) then O else S (hash_find arr' key)
  | _ :: arr' => S (hash_find arr' key)
  end.

Definition hashitem_at (arr : list hashitem_T) (hi : nat) : hashitem_T :=
  default HI_NULL (arr !! hi).

(** [hash_add] refuses a key that is present; otherwise the new slot goes
    where the hash of the key says. *)
Definition hash_add (ht : hashtab_T) (key : string) (di : addr)
    : bool * hashtab_T :=
  let arr := ht_array ht in
  if HASHITEM_EMPTY (hashitem_at arr (hash_find arr key)) then
    let p := (hash_hash key mod S (length arr))%nat in
    (true, {| ht_used := S (ht_used ht);
              ht_array := take p arr ++ HI_KEY key di :: drop p arr |})
  else (false, ht).

Definition hash_remove (ht : hashtab_T) (hi : nat) : hashtab_T :=
  {| ht_used := pred (ht_used ht);
     ht_array := <[hi := HI_REMOVED]> (ht_array ht) |}.

(** [dict_lookup (hi)], the macro HI2DI. *)
Definition dict_lookup (hi : hashitem_T) : res addr :=
  match hi with
  | HI_KEY _ di => Done di
  | _ => Fault
  end.

(** [dict_find (d, key, len)]: the item under the C string [key], or NULL. *)
Definition dict_find (dv : dict_T) (key : string) : option addr :=
  let arr := ht_array (dv_hashtab dv) in
  match hashitem_at arr (hash_find arr (cstr key)) with
  | HI_KEY _ di => Some di
  | _ => None
  end.

(** [dict_add (d, item)]: FAIL (false) when the key is already there. *)
Definition dict_add (d di : addr) (m : mem) : res (bool * mem) :=
  dv <- load_dict m d ;;
  k <- load_dictitem_key m di ;;
  let '(ok, ht) := hash_add (dv_hashtab dv) k di in
  m <- store_dict d {| dv_lock := dv_lock dv; dv_refcount := dv_refcount dv;
                       dv_hashtab := ht |} m ;;
  Done (ok, m).

(** Modelled from the spec: [clear_tv], [list_unref], [list_free],
    [listitem_free], [dict_unref], [dict_free], [dictitem_free] of eval.c
    ("container reference-count increment/decrement primitives", "list
    free (with an option to also free contained elements)", "freed only
    when it reaches zero") are not among the sources.  Releasing a typval_T
    drops one reference of the container it points to, and a container whose
    count reaches zero is freed with its items.  Freeing an item releases
    the typval_T it holds first: the pop of [dict_get_value] hands the
    removed entry to [dictitem_free] alone and relies on it to "free its
    backing storage", the stored value included. *)
Fixpoint free_items (clear : addr -> mem -> res mem) (recurse : bool)
    (items : list addr) (m : mem) : res mem :=
  match items with
  | [] => Done m
  | item :: rest =>
      tv <- load_tv m item ;;
      m <- (if recurse || negb (is_container tv) then clear item m else Done m) ;;
      m <- free item m ;;
      free_items clear recurse rest m
  end.

Definition live_items (arr : list hashitem_T) : list addr :=
  omap (fun hi => match hi with HI_KEY _ di => Some di | _ => None end) arr.

Definition list_free_with (clear : addr -> mem -> res mem) (l : addr)
    (recurse : bool) (m : mem) : res mem :=
  lv <- load_list m l ;;
  m <- free_items clear recurse (lv_items lv) m ;;
  free l m.

Definition dict_free_with (clear : addr -> mem -> res mem) (d : addr)
    (recurse : bool) (m : mem) : res mem :=
  dv <- load_dict m d ;;
  m <- free_items clear recurse (live_items (ht_array (dv_hashtab dv))) m ;;
  free d m.

Definition list_unref_with (clear : addr -> mem -> res mem) (l : addr)
    (m : mem) : res mem :=
  lv <- load_list m l ;;
  let rc := lv_refcount lv - 1 in
  m <- store_list l {| lv_items := lv_items lv; lv_refcount := rc;
                       lv_lock := lv_lock lv |} m ;;
  if rc <=? 0 then list_free_with clear l true m else Done m.

Definition dict_unref_with (clear : addr -> mem -> res mem) (d : addr)
    (m : mem) : res mem :=
  dv <- load_dict m d ;;
  let rc := dv_refcount dv - 1 in
  m <- store_dict d {| dv_lock := dv_lock dv; dv_refcount := rc;
                       dv_hashtab := dv_hashtab dv |} m ;;
  if rc <=? 0 then dict_free_with clear d true m else Done m.

Fixpoint clear_tv_fuel (fuel : nat) (varp : addr) (m : mem) : res mem :=
  match fuel with
  | O => OutOfFuel
  | S fuel' =>
      tv <- load_tv m varp ;;
      match vval tv with
      | V_FUNC _ => store_tv varp {| v_lock := 0; vval := V_FUNC None |} m
      | V_STRING _ => store_tv varp {| v_lock := 0; vval := V_STRING None |} m
      | V_LIST None => store_tv varp {| v_lock := 0; vval := V_LIST None |} m
      | V_LIST (Some l) =>
          m <- list_unref_with (clear_tv_fuel fuel') l m ;;
          store_tv varp {| v_lock := 0; vval := V_LIST None |} m
      | V_DICT None => store_tv varp {| v_lock := 0; vval := V_DICT None |} m
      | V_DICT (Some d) =>
          m <- dict_unref_with (clear_tv_fuel fuel') d m ;;
          store_tv varp {| v_lock := 0; vval := V_DICT None |} m
      | V_NUMBER _ => store_tv varp {| v_lock := 0; vval := V_NUMBER 0 |} m
      | V_FLOAT _ => store_tv varp {| v_lock := 0; vval := V_FLOAT 0%float |} m
      | V_UNKNOWN => store_tv varp {| v_lock := 0; vval := V_UNKNOWN |} m
      end
  end.

(** The fuel of a release: the number of live blocks bounds the nesting of
    the containers that one call frees. *)
Definition clear_fuel (m : mem) : nat := S (size (blocks m)).

Definition clear_tv (varp : addr) (m : mem) : res mem :=
  clear_tv_fuel (clear_fuel m) varp m.

Definition list_free (l : addr) (recurse : bool) (m : mem) : res mem :=
  list_free_with (clear_tv_fuel (clear_fuel m)) l recurse m.

Definition dict_free (d : addr) (recurse : bool) (m : mem) : res mem :=
  dict_free_with (clear_tv_fuel (clear_fuel m)) d recurse m.

Definition listitem_free (li : addr) (m : mem) : res mem :=
  m <- clear_tv li m ;; free li m.

Definition dictitem_free (di : addr) (m : mem) : res mem :=
  m <- clear_tv di m ;; free di m.

(** Modelled from the spec: [copy_tv] of eval.c is not among the sources.
    A string is copied; a container is shared and gains a reference. *)
Definition copy_tv (from to : addr) (m : mem) : res mem :=
  tv <- load_tv m from ;;
  match vval tv with
  | V_LIST (Some l) =>
      lv <- load_list m l ;;
      m <- store_list l {| lv_items := lv_items lv;
                           lv_refcount := lv_refcount lv + 1;
                           lv_lock := lv_lock lv |} m ;;
      store_tv to {| v_lock := 0; vval := V_LIST (Some l) |} m
  | V_DICT (Some d) =>
      dv <- load_dict m d ;;
      m <- store_dict d {| dv_lock := dv_lock dv;
                           dv_refcount := dv_refcount dv + 1;
                           dv_hashtab := dv_hashtab dv |} m ;;
      store_tv to {| v_lock := 0; vval := V_DICT (Some d) |} m
  | v => store_tv to {| v_lock := 0; vval := v |} m
  end.

(** ** object_to_vim *)

(** [tv->vval.v_list->lv_refcount++] and [tv->vval.v_dict->dv_refcount++]. *)
Definition list_ref (l : addr) (m : mem) : res mem :=
  lv <- load_list m l ;;
  store_list l {| lv_items := lv_items lv; lv_refcount := lv_refcount lv + 1;
                  lv_lock := lv_lock lv |} m.

Definition dict_ref (d : addr) (m : mem) : res mem :=
  dv <- load_dict m d ;;
  store_dict d {| dv_lock := dv_lock dv; dv_refcount := dv_refcount dv + 1;
                  dv_hashtab := dv_hashtab dv |} m.

Definition number_tv (n : Z) : typval_T := {| v_lock := 0; vval := V_NUMBER n |}.

Section object_to_vim_loops.

(** The recursive call of [object_to_vim] inside its two loops. *)
Variable rec : Object -> addr -> mem -> Error -> res (bool * mem * Error).

(** The loop of the kObjectTypeArray case on the list [l]; a
    [return false] inside it is the [false] it hands to the code after the
    loop.  (The counter is a [uint32_t] against a [size_t] size: the arrays
    here are shorter than 2^32.) *)
Fixpoint array_to_vim (l : addr) (items : list Object) (m : mem) (err : Error)
    : res (bool * mem * Error) :=
  match items with
  | [] => Done (true, m, err)
  | item :: rest =>
      let '(li, m) := listitem_alloc m in
      r <- rec item li m err ;;
      let '(ok, m, err) := r in
      if ok then m <- list_append l li m ;; array_to_vim l rest m err
      else
        m <- listitem_free li m ;;
        m <- list_free l true m ;;
        Done (false, m, err)
  end.

(** The loop of the kObjectTypeDictionary case on the dictionary [d]. *)
Fixpoint dictionary_to_vim (d : addr) (items : list (string * Object))
    (m : mem) (err : Error) : res (bool * mem * Error) :=
  match items with
  | [] => Done (true, m, err)
  | (key, value) :: rest =>
      if (String.length key =? 0)%nat then
        let err := set_api_error "Empty dictionary keys aren't allowed" err in
        m <- dict_free d true m ;;
        Done (false, m, err)
      else
        let '(di, m) := dictitem_alloc key m in
        r <- rec value di m err ;;
        let '(ok, m, err) := r in
        if ok then r <- dict_add d di m ;; dictionary_to_vim d rest (snd r) err
        else
          m <- dictitem_free di m ;;
          m <- dict_free d true m ;;
          Done (false, m, err)
  end.

End object_to_vim_loops.

(** [tv] is the address of the typval_T to fill. *)
Fixpoint object_to_vim (obj : Object) (tv : addr) (m : mem) (err : Error)
    : res (bool * mem * Error) :=
  m <- store_tv tv {| v_lock := 0; vval := V_UNKNOWN |} m ;;
  match obj with
  | ObjNil =>
      m <- store_tv tv (number_tv 0) m ;; Done (true, m, err)
  | ObjBool b =>
      m <- store_tv tv (number_tv (if b then 1 else 0)) m ;; Done (true, m, err)
  | ObjInt i =>
      m <- store_tv tv (number_tv (varnumber_of_Integer i)) m ;; Done (true, m, err)
  | ObjFloat f =>
      m <- store_tv tv {| v_lock := 0; vval := V_FLOAT f |} m ;; Done (true, m, err)
  | ObjString s =>
      m <- store_tv tv {| v_lock := 0; vval := V_STRING (Some (cstr s)) |} m ;;
      Done (true, m, err)
  | ObjArray items =>
      let '(l, m) := list_alloc m in
      m <- store_tv tv {| v_lock := 0; vval := V_LIST (Some l) |} m ;;
      r <- array_to_vim object_to_vim l items m err ;;
      let '(ok, m, err) := r in
      if ok then m <- list_ref l m ;; Done (true, m, err)
      else Done (false, m, err)
  | ObjDictionary items =>
      let '(d, m) := dict_alloc m in
      m <- store_tv tv {| v_lock := 0; vval := V_DICT (Some d) |} m ;;
      r <- dictionary_to_vim object_to_vim d items m err ;;
      let '(ok, m, err) := r in
      if ok then m <- dict_ref d m ;; Done (true, m, err)
      else Done (false, m, err)
  end.

(** ** dict_get_value, dict_set_value *)

(** [rv0] is what the uninitialised local [Object rv] happens to hold.
    The key is looked up as the C string [k]. *)
Definition dict_get_value (rv0 : Object) (dict : addr) (key : string)
    (pop : bool) (m : mem) (err : Error) : res (Object * mem * Error) :=
  dv <- load_dict m dict ;;
  let k := cstr key in
  let arr := ht_array (dv_hashtab dv) in
  let hi := hash_find arr k in
  if HASHITEM_EMPTY (hashitem_at arr hi) then
    Done (rv0, m, set_api_error "Key not found" err)
  else
    di <- dict_lookup (hashitem_at arr hi) ;;
    rv <- vim_to_object m di ;;
    if pop then
      if negb (dv_lock dv =? 0) then
        Done (rv, m, set_api_error "Dictionary is locked" err)
      else
        m <- store_dict dict {| dv_lock := dv_lock dv;
                                dv_refcount := dv_refcount dv;
                                dv_hashtab := hash_remove (dv_hashtab dv) hi |} m ;;
        m <- dictitem_free di m ;;
        Done (rv, m, err)
    else Done (rv, m, err).

(** The local [typval_T tv] is a block of its own for the time of the
    call. *)
Definition dict_set_value (dict : addr) (key : string) (value : Object)
    (m : mem) (err : Error) : res (Object * mem * Error) :=
  let rv := ObjNil in
  dv <- load_dict m dict ;;
  if negb (dv_lock dv =? 0) then
    Done (rv, m, set_api_error "Dictionary is locked" err)
  else if (String.length key =? 0)%nat then
    Done (rv, m, set_api_error "Empty dictionary keys aren't allowed" err)
  else
    let di := dict_find dv key in
    let '(tv, m) := alloc (B_typval uninit_tv) m in
    r <- object_to_vim value tv m err ;;
    let '(ok, m, err) := r in
    if negb ok then m <- free tv m ;; Done (rv, m, err)
    else
      r <- match di with
           | None =>
               let '(di, m) := dictitem_alloc key m in
               r <- dict_add dict di m ;;
               Done (rv, di, snd r)
           | Some di =>
               rv <- vim_to_object m di ;;
               m <- clear_tv di m ;;
               Done (rv, di, m)
           end ;;
      let '(rv, di, m) := r in
      m <- copy_tv tv di m ;;
      m <- clear_tv tv m ;;
      m <- free tv m ;;
      Done (rv, m, err).

(** ** try_start, try_end *)

(** The interpreter's globals that the bracket reads and writes.
    [msg_list] is a pointer to a pointer; [current_exception] is the pointer
    to the exception in flight, here the text of its [value]. *)
Record globals : Type :=
  { trylevel : Z;
    did_emsg : bool;
    got_int : bool;
    did_throw : bool;
    msg_list : option (option msglist_T);
    current_exception : option string }.

Definition try_start (g : globals) : globals :=
  {| trylevel := trylevel g + 1; did_emsg := did_emsg g; got_int := got_int g;
     did_throw := did_throw g; msg_list := msg_list g;
     current_exception := current_exception g |}.

(** Modelled from the spec: [discard_current_exception] of ex_eval.c is not
    among the sources; it "releases any throw state". *)
Definition discard_current_exception (g : globals) : globals :=
  {| trylevel := trylevel g; did_emsg := did_emsg g; got_int := got_int g;
     did_throw := false; msg_list := msg_list g; current_exception := None |}.

(** Modelled from the spec: [free_global_msglist] of ex_eval.c is not among
    the sources; it "free[s] the message-list storage": [*msg_list] is NULL
    afterwards. *)
Definition free_global_msglist (g : globals) : globals :=
  {| trylevel := trylevel g; did_emsg := did_emsg g; got_int := got_int g;
     did_throw := did_throw g;
     msg_list := match msg_list g with Some _ => Some None | None => None end;
     current_exception := current_exception g |}.

Definition try_end (g : globals) (err : Error) : res (bool * globals * Error) :=
  let g := {| trylevel := trylevel g - 1; did_emsg := false;
              got_int := got_int g; did_throw := did_throw g;
              msg_list := msg_list g;
              current_exception := current_exception g |} in
  r <- (if got_int g then
          let g := if did_throw g then discard_current_exception g else g in
          let err := set_api_error "Keyboard interrupt" err in
          Done ({| trylevel := trylevel g; did_emsg := did_emsg g;
                   got_int := false; did_throw := did_throw g;
                   msg_list := msg_list g;
                   current_exception := current_exception g |}, err)
        else
          match msg_list g with
          | Some (Some ml) =>
              let '(text, should_free) := get_exception_string ml in
              let err := {| msg := strncpy text ERR_MSG_SIZE; set := true |} in
              Done (free_global_msglist g, err)
          | _ =>
              if did_throw g then
                match current_exception g with
                | Some value => Done (g, set_api_error value err)
                | None => Fault
                end
              else Done (g, err)
          end) ;;
  Done (set (snd r), fst r, snd r).


(** * Data of the examples *)

(** One setting of what the headers fix: a 64-bit [Integer] stored into a
    32-bit [varnumber_T] and read back unchanged. *)
Definition int32_of_Integer (z : Z) : Z := (z + 2 ^ 31) mod 2 ^ 32 - 2 ^ 31.

Definition Integer_of_int32 (z : Z) : Z := z.

Definition no_error : Error := {| msg := ""; set := false |}.

(** A memory that holds one typval_T, at address 1. *)
Definition tv_mem : mem :=
  {| blocks := {[ 1%positive := B_typval uninit_tv ]}; next := 2%positive |}.

(** A list that contains itself, held by a variable:
    [1] the variable's typval_T, [2] the list, [3] its only item. *)
Definition cyclic_mem : mem :=
  {| blocks := list_to_map
       [ (1%positive, B_typval {| v_lock := 0; vval := V_LIST (Some 2%positive) |});
         (2%positive, B_list {| lv_items := [3%positive]; lv_refcount := 2; lv_lock := 0 |});
         (3%positive, B_listitem {| v_lock := 0; vval := V_LIST (Some 2%positive) |}) ];
     next := 4%positive |}.


(** A dictionary [1] with one removed slot and the key "k", whose item [2]
    holds the list [3] of the one number 7 (item [4]). *)
Definition dict_k (lock : Z) : dict_T :=
  {| dv_lock := lock; dv_refcount := 1;
     dv_hashtab := {| ht_used := 1;
                      ht_array := [HI_REMOVED; HI_KEY "k" 2%positive] |} |}.

Definition dict_mem (lock : Z) : mem :=
  {| blocks := list_to_map
       [ (1%positive, B_dict (dict_k lock));
         (2%positive, B_dictitem "k" {| v_lock := 0; vval := V_LIST (Some 3%positive) |});
         (3%positive, B_list {| lv_items := [4%positive]; lv_refcount := 1; lv_lock := 0 |});
         (4%positive, B_listitem {| v_lock := 0; vval := V_NUMBER 7 |}) ];
     next := 5%positive |}.

(** A Value with every kind that comes back as it went in. *)
Definition sample_value : Object :=
  ObjDictionary
    [ ("name"%string, ObjString "vim");
      ("size"%string, ObjArray [ObjInt 80; ObjInt (-24); ObjFloat 1.5%float]);
      ("opts"%string, ObjDictionary [("x"%string, ObjInt 1)]) ].

(** A variable [1] that holds the dictionary [2], whose table has a removed
    slot between the keys "a" (item [3], the number 1) and "b" (item [4], a
    string). *)
Definition dict_ab (used : nat) : dict_T :=
  {| dv_lock := 0; dv_refcount := 1;
     dv_hashtab := {| ht_used := used;
                      ht_array := [HI_KEY "a" 3%positive; HI_REMOVED;
                                   HI_KEY "b" 4%positive] |} |}.

Definition dict_var_mem (used : nat) : mem :=
  {| blocks := list_to_map
       [ (1%positive, B_typval {| v_lock := 0; vval := V_DICT (Some 2%positive) |});
         (2%positive, B_dict (dict_ab used));
         (3%positive, B_dictitem "a" {| v_lock := 0; vval := V_NUMBER 1 |});
         (4%positive, B_dictitem "b" {| v_lock := 0; vval := V_STRING (Some "x"%string) |}) ];
     next := 5%positive |}.

(** A list [2] (held by the variable [1]) whose two items [3] and [4] hold
    the same list [5] of the one number 7 (item [6]). *)
Definition shared_mem : mem :=
  {| blocks := list_to_map
       [ (1%positive, B_typval {| v_lock := 0; vval := V_LIST (Some 2%positive) |});
         (2%positive, B_list {| lv_items := [3%positive; 4%positive];
                                lv_refcount := 1; lv_lock := 0 |});
         (3%positive, B_listitem {| v_lock := 0; vval := V_LIST (Some 5%positive) |});
         (4%positive, B_listitem {| v_lock := 0; vval := V_LIST (Some 5%positive) |});
         (5%positive, B_list {| lv_items := [6%positive]; lv_refcount := 2; lv_lock := 0 |});
         (6%positive, B_listitem {| v_lock := 0; vval := V_NUMBER 7 |}) ];
     next := 7%positive |}.

(** * Predicates of the statements *)

(** A memory without dangling or mistyped pointers: a typval_T points to a
    list or a dictionary of the right kind, the items of a list and the
    items of the live slots of a hashtable are list items or dictionary
    items, and [ht_used] counts the live slots. *)
Definition is_cell_b (m : mem) (a : addr) : bool :=
  match blocks m !! a with
  | Some (B_typval _) | Some (B_listitem _) | Some (B_dictitem _ _) => true
  | _ => false
  end.

Definition tv_ok (m : mem) (tv : typval_T) : bool :=
  match vval tv with
  | V_LIST (Some l) =>
      match blocks m !! l with Some (B_list _) => true | _ => false end
  | V_DICT (Some d) =>
      match blocks m !! d with Some (B_dict _) => true | _ => false end
  | _ => true
  end.

Definition block_ok (m : mem) (b : block) : bool :=
  match b with
  | B_typval tv | B_listitem tv | B_dictitem _ tv => tv_ok m tv
  | B_list lv => forallb (is_cell_b m) (lv_items lv)
  | B_dict dv =>
      let arr := ht_array (dv_hashtab dv) in
      (ht_used (dv_hashtab dv) =? length (live_items arr))%nat
      && forallb (is_cell_b m) (live_items arr)
  end.

Definition mem_wf (m : mem) : Prop :=
  map_Forall (fun _ b => block_ok m b = true) (blocks m).

(** Every live address is below the next one to be handed out. *)
Definition valid_blocks (bs : gmap addr block) (n : addr) : Prop :=
  forall a b, bs !! a = Some b -> (a < n)%positive.

Definition mem_valid (m : mem) : Prop := valid_blocks (blocks m) (next m).

(** Structural equality of two Values, as the round trip needs it: scalars
    are equal, arrays agree element by element in order, and dictionaries
    have as many pairs, with every key of one in the other under an equal
    value. *)
#[warnings="-register-all"] Inductive obj_equiv : Object -> Object -> Prop :=
  | equiv_Nil : obj_equiv ObjNil ObjNil
  | equiv_Bool b : obj_equiv (ObjBool b) (ObjBool b)
  | equiv_Int i : obj_equiv (ObjInt i) (ObjInt i)
  | equiv_Float f : obj_equiv (ObjFloat f) (ObjFloat f)
  | equiv_String s : obj_equiv (ObjString s) (ObjString s)
  | equiv_Array xs ys :
      Forall2 obj_equiv xs ys -> obj_equiv (ObjArray xs) (ObjArray ys)
  | equiv_Dictionary xs ys :
      length xs = length ys ->
      (forall k y, (k, y) ∈ ys -> exists x, (k, x) ∈ xs /\ obj_equiv x y) ->
      (forall k x, (k, x) ∈ xs -> exists y, (k, y) ∈ ys /\ obj_equiv x y) ->
      obj_equiv (ObjDictionary xs) (ObjDictionary ys).

(** The Values [object_to_vim] accepts: no dictionary, at any depth, has a
    key of size 0. *)
Fixpoint convertible (v : Object) : bool :=
  match v with
  | ObjArray items => forallb convertible items
  | ObjDictionary items =>
      forallb (fun kv => let '(k, v) := kv in
                 negb (String.length k =? 0)%nat && convertible v) items
  | _ => true
  end.

(** The Values that come back from the host side as they went in: no Nil and
    no Bool (both become a Number), integers that survive the two
    conversions, strings and keys without a NUL byte, keys that are not
    empty and, within one dictionary, pairwise different. *)
Fixpoint exact_roundtrip (v : Object) : bool :=
  match v with
  | ObjNil | ObjBool _ => false
  | ObjInt i => Integer_of_varnumber (varnumber_of_Integer i) =? i
  | ObjFloat _ => true
  | ObjString s => bool_decide (cstr s = s)
  | ObjArray items => forallb exact_roundtrip items
  | ObjDictionary items =>
      forallb (fun kv => let '(k, v) := kv in
                 negb (String.length k =? 0)%nat && bool_decide (cstr k = k)
                 && exact_roundtrip v) items
      && bool_decide (NoDup items.*1)
  end.

Definition block_tv (b : block) : option typval_T :=
  match b with
  | B_typval tv | B_listitem tv | B_dictitem _ tv => Some tv
  | _ => None
  end.

Definition block_with_tv (b : block) (tv : typval_T) : option block :=
  match b with
  | B_typval _ => Some (B_typval tv)
  | B_listitem _ => Some (B_listitem tv)
  | B_dictitem k _ => Some (B_dictitem k tv)
  | _ => None
  end.

Definition in_range (lo hi x : addr) : Prop := (lo <= x)%positive /\ (x < hi)%positive.

(** What [object_to_vim] built for [v] in the addresses from [lo] up to
    [hi], under a typval_T whose union is [vv], reads back as [v]: from any
    typval_T [root] outside that range with the same union, in any memory
    that has these addresses as [m'] has them, and with any table that has
    none of them and not [root]. *)
Definition reads_back (m' : mem) (lo hi : addr) (vv : vval_T) (v : Object) : Prop :=
  forall M root tvr lk,
    load_tv M root = Done tvr -> vval tvr = vv ->
    (forall x, in_range lo hi x -> blocks M !! x = blocks m' !! x) ->
    ~ in_range lo hi root -> root ∉ lk ->
    (forall x, x ∈ lk -> ~ in_range lo hi x) ->
    exists k v' lk',
      (forall fuel, (k <= fuel)%nat ->
         vim_to_object_rec fuel M root lk = Done (v', lk')) /\
      obj_equiv v' v /\
      (forall x, x ∈ lk' -> x ∈ lk \/ x = root \/ in_range lo hi x).

(** The container a successful [object_to_vim] leaves under the typval_T:
    the first block it allocated, with one reference. *)
Definition built (m m' : mem) (vv : vval_T) : Prop :=
  match vv with
  | V_NUMBER _ | V_FLOAT _ | V_STRING (Some _) => True
  | V_LIST (Some l) =>
      l = next m /\
      exists items, blocks m' !! l
        = Some (B_list {| lv_items := items; lv_refcount := 1; lv_lock := 0 |})
  | V_DICT (Some d) =>
      d = next m /\
      exists ht, blocks m' !! d
        = Some (B_dict {| dv_lock := 0; dv_refcount := 1; dv_hashtab := ht |})
  | _ => False
  end.

(** The same for the items [lis] of a list, in order. *)
Definition items_read_back (m' : mem) (lo hi : addr) (lis : list addr)
    (items : list Object) : Prop :=
  forall M lk,
    (forall x, in_range lo hi x -> blocks M !! x = blocks m' !! x) ->
    (forall x, x ∈ lk -> ~ in_range lo hi x) ->
    exists k vs' lk',
      (forall fuel, (k <= fuel)%nat ->
         convert_list_items (vim_to_object_rec fuel M) lis lk = Done (vs', lk')) /\
      Forall2 obj_equiv vs' items /\
      (forall x, x ∈ lk' -> x ∈ lk \/ in_range lo hi x).

(** An entry that the dictionary loop built: the key, the address of its
    item, the first address after what its value took, and the value. *)
Definition entry : Type := string * addr * addr * Object.

Definition slot_of (e : entry) : hashitem_T := HI_KEY e.1.1.1 e.1.1.2.

Definition pair_of (e : entry) : string * Object := (e.1.1.1, e.2).

(** The entries take consecutive ranges of addresses between [lo] and [hi]. *)
Fixpoint chain (lo : addr) (E : list entry) (hi : addr) : Prop :=
  match E with
  | [] => (lo <= hi)%positive
  | (_, di, hi_e, _) :: E' => (lo <= di)%positive /\ (di < hi_e)%positive /\ chain hi_e E' hi
  end.

Definition entry_built (m' : mem) (e : entry) : Prop :=
  let '(k, di, hi_e, v) := e in
  exists tvv, blocks m' !! di = Some (B_dictitem k tvv) /\
              reads_back m' (Pos.succ di) hi_e (vval tvv) v.

Definition range_of (e : entry) (x : addr) : Prop := in_range e.1.1.2 e.1.2 x.

(** The item of an entry reads back as its value, in the memory [M]. *)
Definition cell_reads (M : mem) (e : entry) : Prop :=
  forall lk,
    (forall x, x ∈ lk -> ~ range_of e x) ->
    exists k0 v' lk',
      (forall fuel, (k0 <= fuel)%nat ->
         vim_to_object_rec fuel M e.1.1.2 lk = Done (v', lk')) /\
      obj_equiv v' e.2 /\
      (forall x, x ∈ lk' -> x ∈ lk \/ range_of e x).

Definition dict_items_convertible (items : list (string * Object)) : bool :=
  forallb (fun kv => let '(k, v) := kv in
             negb (String.length k =? 0)%nat && convertible v) items.

Definition dict_items_exact (items : list (string * Object)) : bool :=
  forallb (fun kv => let '(k, v) := kv in
             negb (String.length k =? 0)%nat && bool_decide (cstr k = k)
             && exact_roundtrip v) items.

(** What a successful [object_to_vim v tv m err] establishes. *)
Definition object_to_vim_spec (v : Object) : Prop :=
  convertible v = true ->
  forall tv m err b0 tv0,
    mem_valid m -> blocks m !! tv = Some b0 -> block_tv b0 = Some tv0 ->
    exists m' tvv b',
      object_to_vim v tv m err = Done (true, m', err) /\
      (next m <= next m')%positive /\
      mem_valid m' /\
      (forall x, (x < next m)%positive -> x <> tv -> blocks m' !! x = blocks m !! x) /\
      block_with_tv b0 tvv = Some b' /\
      blocks m' !! tv = Some b' /\
      v_lock tvv = 0 /\
      built m m' (vval tvv) /\
      (exact_roundtrip v = true -> reads_back m' (next m) (next m') (vval tvv) v).

(** The addresses a block holds. *)
Definition vval_ptrs (vv : vval_T) : list addr :=
  match vv with
  | V_LIST (Some l) => [l]
  | V_DICT (Some d) => [d]
  | _ => []
  end.

Definition block_ptrs (b : block) : list addr :=
  match b with
  | B_typval tv | B_listitem tv | B_dictitem _ tv => vval_ptrs (vval tv)
  | B_list lv => lv_items lv
  | B_dict dv => live_items (ht_array (dv_hashtab dv))
  end.

(** From [n] on the blocks only point to blocks from [n] on. *)
Definition closed_from (n : addr) (bs : gmap addr block) : Prop :=
  forall a b p, (n <= a)%positive -> bs !! a = Some b -> p ∈ block_ptrs b ->
    (n <= p)%positive.

(** What a call that works from [n] on keeps true of the memory: it is
    valid, closed from [n] on, and below [n] as [m0] was. *)
Definition kept (n : addr) (m0 m : mem) : Prop :=
  closed_from n (blocks m) /\
  (forall x, (x < n)%positive -> blocks m !! x = blocks m0 !! x) /\
  mem_valid m /\ (n <= next m)%positive /\ (next m0 <= next m)%positive.

(** The container under a typval_T that is about to be moved from [tv] to
    [di]: a block of its own with one reference. *)
Definition movable (m : mem) (tv di : addr) (vv : vval_T) : Prop :=
  match vv with
  | V_NUMBER _ | V_FLOAT _ | V_STRING (Some _) => True
  | V_LIST (Some l) =>
      l <> tv /\ l <> di /\
      exists items, blocks m !! l
        = Some (B_list {| lv_items := items; lv_refcount := 1; lv_lock := 0 |})
  | V_DICT (Some d) =>
      d <> tv /\ d <> di /\
      exists ht, blocks m !! d
        = Some (B_dict {| dv_lock := 0; dv_refcount := 1; dv_hashtab := ht |})
  | _ => False
  end.

(** After [dict_set_value]: what the conversion built above the local [tv]
    (at [next m]) is still there, and the local is gone. *)
Definition value_kept (m m1 m' : mem) : Prop :=
  (forall x b, (next m < x)%positive -> blocks m1 !! x = Some b ->
     blocks m' !! x = Some b) /\
  blocks m' !! next m = None.

(** The keys of the live slots of a hashtable, in the order of the table; a
    hashtable holds a key at most once ([NoDup]). *)
Definition live_keys (arr : list hashitem_T) : list string :=
  omap (fun hi => match hi with HI_KEY k _ => Some k | _ => None end) arr.

(** The memory [m] with the blocks [X] next to it. *)
Definition ext (m : mem) (X : gmap addr block) (n : addr) : mem :=
  {| blocks := blocks m ∪ X; next := n |}.

(** A call ends, and its table only grows. *)
Definition ends_growing {A : Type} (r : res (A * gset addr)) (lookup : gset addr) : Prop :=
  r <> OutOfFuel /\ forall o lookup', r = Done (o, lookup') -> lookup ⊆ lookup'.

(** [object_to_vim] on [obj], whatever it returns, keeps the memory so. *)
Definition keeps (n : addr) (m0 : mem) (obj : Object) : Prop :=
  forall tv m err ok m' err',
    kept n m0 m -> (n <= tv)%positive ->
    object_to_vim obj tv m err = Done (ok, m', err') -> kept n m0 m'.

(** What the value returned by [object_to_vim] says of [obj], and the Error
    that goes with it. *)
Definition verdict (obj : Object) : Prop :=
  forall tv m err ok m' err',
    object_to_vim obj tv m err = Done (ok, m', err') ->
    ok = convertible obj /\
    err' = if ok then err
           else set_api_error "Empty dictionary keys aren't allowed" err.

(** The union [object_to_vim] leaves in [tv] for [obj], when [n] was the next
    free address: the member the switch stores, the container being the
    first block allocated. *)
Definition vval_of (obj : Object) (n : addr) : vval_T :=
  match obj with
  | ObjNil => V_NUMBER 0
  | ObjBool b => V_NUMBER (if b then 1 else 0)
  | ObjInt i => V_NUMBER (varnumber_of_Integer i)
  | ObjFloat f => V_FLOAT f
  | ObjString s => V_STRING (Some (cstr s))
  | ObjArray _ => V_LIST (Some n)
  | ObjDictionary _ => V_DICT (Some n)
  end.

(** The Values that [object_to_vim] builds without losing a pair: every
    dictionary, at any depth, has keys that are not empty and pairwise
    different as C strings. *)
Fixpoint well_keyed (v : Object) : bool :=
  match v with
  | ObjArray items => forallb well_keyed items
  | ObjDictionary items =>
      forallb (fun kv => let '(k, v) := kv in
                 negb (String.length k =? 0)%nat && well_keyed v) items
      && bool_decide (NoDup (cstr <$> items.*1))
  | _ => true
  end.

Definition dict_items_well_keyed (items : list (string * Object)) : bool :=
  forallb (fun kv => let '(k, v) := kv in
             negb (String.length k =? 0)%nat && well_keyed v) items.

(** The union [clear_tv] leaves in a typval_T that held [vv]. *)
Definition cleared (vv : vval_T) : vval_T :=
  match vv with
  | V_UNKNOWN => V_UNKNOWN
  | V_NUMBER _ => V_NUMBER 0
  | V_STRING _ => V_STRING None
  | V_FUNC _ => V_FUNC None
  | V_LIST _ => V_LIST None
  | V_DICT _ => V_DICT None
  | V_FLOAT _ => V_FLOAT 0%float
  end.

(** [M'] is [M] without the addresses from [lo] up to [hi], the block at
    [root] apart. *)
Definition freed_range (lo hi root : addr) (M M' : mem) : Prop :=
  next M' = next M /\
  (forall x, in_range lo hi x -> blocks M' !! x = None) /\
  (forall x, ~ in_range lo hi x -> x <> root -> blocks M' !! x = blocks M !! x).

(** What [object_to_vim] built in the addresses from [lo] up to [hi], under
    a typval_T whose union is [vv], is released as a whole by [clear_tv] on
    any typval_T [root] outside that range with the same union, in any
    memory that has these addresses as [m'] has them: every one of them is
    freed and nothing else changes but [root]. *)
Definition frees_back (m' : mem) (lo hi : addr) (vv : vval_T) : Prop :=
  forall M root b tvr fuel,
    blocks M !! root = Some b -> block_tv b = Some tvr -> vval tvr = vv ->
    ~ in_range lo hi root ->
    (forall x, in_range lo hi x -> blocks M !! x = blocks m' !! x) ->
    (Pos.to_nat hi - Pos.to_nat lo < fuel)%nat ->
    exists M' bc,
      clear_tv_fuel fuel root M = Done M' /\
      block_with_tv b {| v_lock := 0; vval := cleared vv |} = Some bc /\
      blocks M' !! root = Some bc /\
      freed_range lo hi root M M'.

(** The items of a container with the first address after what each one
    took: they take consecutive ranges that fill the addresses from [lo] up
    to [hi]. *)
Fixpoint tiles (lo : addr) (C : list (addr * addr)) (hi : addr) : Prop :=
  match C with
  | [] => lo = hi
  | (a, e) :: C' => a = lo /\ (a < e)%positive /\ tiles e C' hi
  end.

Definition cell_frees (m' : mem) (c : addr * addr) : Prop :=
  exists b tvv, blocks m' !! c.1 = Some b /\ block_tv b = Some tvv /\
                frees_back m' (Pos.succ c.1) c.2 (vval tvv).

(** What a successful [object_to_vim v tv m err] built can be released: it
    fills the addresses it took, and [clear_tv] frees them all. *)
Definition object_to_vim_frees (v : Object) : Prop :=
  well_keyed v = true ->
  forall tv m err m',
    mem_valid m -> is_cell_b m tv = true ->
    object_to_vim v tv m err = Done (true, m', err) ->
    (forall x, in_range (next m) (next m') x -> is_Some (blocks m' !! x)) /\
    frees_back m' (next m) (next m') (vval_of v (next m)).

(** What comes back, through [vim_to_object], for a Value that is not a
    container and that [object_to_vim] has stored. *)
Definition scalar_back (obj : Object) : Object :=
  match obj with
  | ObjNil => ObjInt (Integer_of_varnumber 0)
  | ObjBool b => ObjInt (Integer_of_varnumber (if b then 1 else 0))
  | ObjInt i => ObjInt (Integer_of_varnumber (varnumber_of_Integer i))
  | ObjString s => ObjString (cstr s)
  | v => v
  end.

(** The Values on which [object_to_vim] stops, by where it stops.
    [conversion_fails false v]: [v] is a Dictionary that comes to a pair with
    an empty key after pairs whose keys are not empty and pairwise different
    and whose values are [well_keyed].  [conversion_fails true v]: the first
    element of the Array [v], or the first value of a pair of the Dictionary
    [v], that is not accepted is a Value on which the conversion stops, in
    one way or the other. *)
Inductive conversion_fails : bool -> Object -> Prop :=
  | fails_key pre k val rest :
      dict_items_well_keyed pre = true -> NoDup (cstr <$> pre.*1) ->
      String.length k = O ->
      conversion_fails false (ObjDictionary (pre ++ (k, val) :: rest))
  | fails_element pre bad rest nested :
      forallb convertible pre = true -> conversion_fails nested bad ->
      conversion_fails true (ObjArray (pre ++ bad :: rest))
  | fails_value pre k bad rest nested :
      dict_items_convertible pre = true -> String.length k <> O ->
      conversion_fails nested bad ->
      conversion_fails true (ObjDictionary (pre ++ (k, bad) :: rest)).

(** [f'] does next to other blocks what [f] does alone. *)
Definition lifts (f f' : mem -> res mem) : Prop :=
  forall m m' X n, blocks m ##ₘ X -> f m = Done m' ->
    f' (ext m X n) = Done (ext m' X n) /\ blocks m' ##ₘ X.

(** * Properties *)

(** ** Results *)

Lemma bind_Done {A B : Type} (r : res A) (k : A -> res B) (b : B) :
  bind r k = Done b -> exists a, r = Done a /\ k a = Done b.
Proof. destruct r; simpl; intros H; try discriminate. eauto. Qed.

Lemma bind_not_OutOfFuel {A B : Type} (r : res A) (k : A -> res B) :
  r <> OutOfFuel -> (forall a, r = Done a -> k a <> OutOfFuel) ->
  bind r k <> OutOfFuel.
Proof. destruct r; simpl; intros H1 H2; auto; discriminate. Qed.

Lemma bind_not_Fault {A B : Type} (r : res A) (k : A -> res B) :
  r <> Fault -> (forall a, r = Done a -> k a <> Fault) ->
  bind r k <> Fault.
Proof. destruct r; simpl; intros H1 H2; auto; discriminate. Qed.

Ltac inv_bind H :=
  let a := fresh "a" in
  let Ha := fresh "H" a in
  apply bind_Done in H; destruct H as (a & Ha & H).


(** ** Memory *)

Lemma load_tv_dom m a tv : load_tv m a = Done tv -> a ∈ dom (blocks m).
Proof.
  unfold load_tv. intros H. apply elem_of_dom.
  destruct (blocks m !! a); [eauto | discriminate].
Qed.

(** ** vim_to_object_rec never runs out of the fuel vim_to_object gives it *)

Lemma convert_list_items_ends rec items : forall lookup,
  (forall item lk, lookup ⊆ lk -> ends_growing (rec item lk) lk) ->
  ends_growing (convert_list_items rec items lookup) lookup.
Proof.
  induction items as [|item rest IH]; intros lookup Hrec; simpl.
  - split; [discriminate | intros o lk' [= _ <-]; done].
  - destruct (Hrec item lookup) as [Hne Hmono]; [done|].
    destruct (rec item lookup) as [[o lk1]| |] eqn:E1; simpl; try done.
    specialize (Hmono _ _ eq_refl).
    destruct (IH lk1) as [Hne2 Hmono2].
    { intros it lk Hlk. apply Hrec. set_solver. }
    destruct (convert_list_items rec rest lk1) as [[os lk2]| |] eqn:E2; simpl; try done.
    split; [discriminate|]. intros o' lk' [= _ <-].
    specialize (Hmono2 _ _ eq_refl). set_solver.
Qed.

Lemma convert_dict_items_ends rec arr : forall todo lookup,
  (forall item lk, lookup ⊆ lk -> ends_growing (rec item lk) lk) ->
  ends_growing (convert_dict_items rec todo arr lookup) lookup.
Proof using Type.
  induction arr as [|hi arr IH]; intros todo lookup Hrec.
  - destruct todo; simpl; split; try discriminate.
    intros o lk' [= _ <-]; done.
  - destruct todo as [|todo]; simpl.
    { split; [discriminate | intros o lk' [= _ <-]; done]. }
    destruct hi as [| |key di]; try (apply IH; done).
    destruct (Hrec di lookup) as [Hne Hmono]; [done|].
    destruct (rec di lookup) as [[o lk1]| |] eqn:E1; simpl; try done.
    specialize (Hmono _ _ eq_refl).
    destruct (IH todo lk1) as [Hne2 Hmono2].
    { intros it lk Hlk. apply Hrec. by etrans. }
    destruct (convert_dict_items rec todo arr lk1) as [[os lk2]| |] eqn:E2; simpl; try done.
    split; [discriminate|]. intros o' lk' [= _ <-].
    specialize (Hmono2 _ _ eq_refl). by etrans.
Qed.

Lemma count_items_ends todo arr : count_items todo arr <> OutOfFuel.
Proof.
  revert todo. induction arr as [|hi arr IH]; intros [|todo]; simpl; try discriminate.
  destruct (HASHITEM_EMPTY hi); [apply IH|].
  apply bind_not_OutOfFuel; [apply IH | discriminate].
Qed.

Lemma ends_growing_Fault {A : Type} lookup : ends_growing (@Fault (A * gset addr)) lookup.
Proof. split; [discriminate | intros ?? H; discriminate H]. Qed.

Lemma ends_growing_Done {A : Type} (o : A) lookup lookup' :
  lookup ⊆ lookup' -> ends_growing (Done (o, lookup')) lookup.
Proof. intros Hs. split; [discriminate | intros ?? [= _ <-]; done]. Qed.

Lemma ends_growing_bind {A B : Type} (r : res A) (k : A -> res (B * gset addr)) lookup :
  r <> OutOfFuel ->
  (forall a, r = Done a -> ends_growing (k a) lookup) ->
  ends_growing (bind r k) lookup.
Proof.
  intros Hne Hk. destruct r as [a| |]; simpl; [by apply Hk | | done].
  apply ends_growing_Fault.
Qed.

Lemma load_tv_ends m a : load_tv m a <> OutOfFuel.
Proof. unfold load_tv. repeat case_match; discriminate. Qed.

Lemma load_list_ends m a : load_list m a <> OutOfFuel.
Proof. unfold load_list. repeat case_match; discriminate. Qed.

Lemma load_dict_ends m a : load_dict m a <> OutOfFuel.
Proof. unfold load_dict. repeat case_match; discriminate. Qed.

Lemma vim_to_object_rec_ends fuel m : forall obj lookup,
  (size (dom (blocks m) ∖ lookup) < fuel)%nat ->
  ends_growing (vim_to_object_rec fuel m obj lookup) lookup.
Proof.
  induction fuel as [|fuel IH]; intros obj lookup Hsz; [lia|].
  cbn [vim_to_object_rec].
  apply (ends_growing_bind); [apply load_tv_ends|]. intros tv Hl.
  destruct (is_container tv) eqn:Hc; cbn [andb].
  - destruct (bool_decide (obj ∈ lookup)) eqn:Hin.
    { by apply ends_growing_Done. }
    apply bool_decide_eq_false in Hin.
    assert (Hsz' : forall lk, {[obj]} ∪ lookup ⊆ lk ->
              (size (dom (blocks m) ∖ lk) < fuel)%nat).
    { intros lk Hlk.
      assert (dom (blocks m) ∖ lk ⊂ dom (blocks m) ∖ lookup) as Hsub.
      { apply load_tv_dom in Hl. set_solver. }
      apply subset_size in Hsub. lia. }
    assert (Hrec : forall item lk, {[obj]} ∪ lookup ⊆ lk ->
              ends_growing (vim_to_object_rec fuel m item lk) lk).
    { intros item lk Hlk. apply IH. by apply Hsz'. }
    unfold is_container, v_type in Hc.
    destruct (vval tv) as [|n|[s|]|fn|[l|]|[d|]|f]; try discriminate Hc.
    + apply (ends_growing_bind); [apply load_list_ends|]. intros lv Hll.
      destruct (convert_list_items_ends (vim_to_object_rec fuel m) (lv_items lv)
                  ({[obj]} ∪ lookup) Hrec) as [Hne Hmono].
      apply (ends_growing_bind); [done|]. intros [os lk'] Hr.
      apply ends_growing_Done. specialize (Hmono _ _ Hr). set_solver.
    + apply ends_growing_Done. set_solver.
    + apply (ends_growing_bind); [apply load_dict_ends|]. intros dv Hld.
      apply (ends_growing_bind); [apply count_items_ends|]. intros n _.
      destruct (convert_dict_items_ends (vim_to_object_rec fuel m)
                  (ht_array (dv_hashtab dv)) (ht_used (dv_hashtab dv))
                  ({[obj]} ∪ lookup) Hrec) as [Hne Hmono].
      apply (ends_growing_bind); [done|]. intros [os lk'] Hr.
      apply ends_growing_Done. specialize (Hmono _ _ Hr). set_solver.
    + apply ends_growing_Done. set_solver.
  - unfold is_container, v_type in Hc.
    destruct (vval tv) as [|n|[s|]|fn|[l|]|[d|]|f]; try discriminate Hc;
      by apply ends_growing_Done.
Qed.

Lemma vim_to_object_ends m obj : vim_to_object m obj <> OutOfFuel.
Proof.
  unfold vim_to_object. apply bind_not_OutOfFuel; [|discriminate].
  apply vim_to_object_rec_ends.
  assert (dom (blocks m) ∖ ∅ ⊆ dom (blocks m)) as H by set_solver.
  apply subseteq_size in H. rewrite size_dom in H. lia.
Qed.


(** ** A finished conversion is the same with more fuel and more memory *)

Lemma load_tv_weaken m m' a tv :
  blocks m ⊆ blocks m' -> load_tv m a = Done tv -> load_tv m' a = Done tv.
Proof.
  unfold load_tv. intros Hsub H.
  destruct (blocks m !! a) as [b|] eqn:E; [|discriminate].
  by rewrite (lookup_weaken _ _ _ _ E Hsub).
Qed.

Lemma load_list_weaken m m' a lv :
  blocks m ⊆ blocks m' -> load_list m a = Done lv -> load_list m' a = Done lv.
Proof.
  unfold load_list. intros Hsub H.
  destruct (blocks m !! a) as [b|] eqn:E; [|discriminate].
  by rewrite (lookup_weaken _ _ _ _ E Hsub).
Qed.

Lemma load_dict_weaken m m' a dv :
  blocks m ⊆ blocks m' -> load_dict m a = Done dv -> load_dict m' a = Done dv.
Proof.
  unfold load_dict. intros Hsub H.
  destruct (blocks m !! a) as [b|] eqn:E; [|discriminate].
  by rewrite (lookup_weaken _ _ _ _ E Hsub).
Qed.

Lemma convert_list_items_mono rec1 rec2 items : forall lookup r,
  (forall a lk r, rec1 a lk = Done r -> rec2 a lk = Done r) ->
  convert_list_items rec1 items lookup = Done r ->
  convert_list_items rec2 items lookup = Done r.
Proof.
  induction items as [|item rest IH]; intros lookup r Hrec H; simpl in *; [done|].
  inv_bind H. destruct a as [o lk1]. inv_bind H. destruct a as [os lk2].
  rewrite (Hrec _ _ _ Ha). simpl. rewrite (IH _ _ Hrec Ha0). done.
Qed.

Lemma convert_dict_items_mono rec1 rec2 arr : forall todo lookup r,
  (forall a lk r, rec1 a lk = Done r -> rec2 a lk = Done r) ->
  convert_dict_items rec1 todo arr lookup = Done r ->
  convert_dict_items rec2 todo arr lookup = Done r.
Proof.
  induction arr as [|hi arr IH]; intros todo lookup r Hrec H.
  - destruct todo; simpl in *; done.
  - destruct todo as [|todo]; simpl in *; [done|].
    destruct hi as [| |key di]; try by eapply IH.
    inv_bind H. destruct a as [o lk1]. inv_bind H. destruct a as [os lk2].
    rewrite (Hrec _ _ _ Ha). simpl. rewrite (IH _ _ _ Hrec Ha0). done.
Qed.

Lemma vim_to_object_rec_mono fuel m : forall obj lookup r fuel' m',
  vim_to_object_rec fuel m obj lookup = Done r ->
  (fuel <= fuel')%nat -> blocks m ⊆ blocks m' ->
  vim_to_object_rec fuel' m' obj lookup = Done r.
Proof.
  induction fuel as [|fuel IH]; intros obj lookup r fuel' m' H Hle Hsub; [done|].
  destruct fuel' as [|fuel']; [lia|].
  cbn [vim_to_object_rec] in *.
  inv_bind H. rename a into tv. rewrite (load_tv_weaken _ _ _ _ Hsub Ha). cbn [bind].
  destruct (is_container tv && bool_decide (obj ∈ lookup)); [done|].
  assert (Hrec : forall a lk r, vim_to_object_rec fuel m a lk = Done r ->
                   vim_to_object_rec fuel' m' a lk = Done r).
  { intros a lk r' Hr. eapply IH; eauto. lia. }
  destruct (vval tv) as [|n|[s|]|fn|[l|]|[d|]|f]; try done.
  - inv_bind H. rename a into lv. rewrite (load_list_weaken _ _ _ _ Hsub Ha0). cbn [bind].
    inv_bind H. rewrite (convert_list_items_mono _ _ _ _ _ Hrec Ha1). done.
  - inv_bind H. rename a into dv. rewrite (load_dict_weaken _ _ _ _ Hsub Ha0). cbn [bind].
    inv_bind H. rewrite Ha1. cbn [bind].
    inv_bind H. rewrite (convert_dict_items_mono _ _ _ _ _ _ Hrec Ha2). done.
Qed.

Lemma vim_to_object_weaken m m' obj v :
  blocks m ⊆ blocks m' -> vim_to_object m obj = Done v -> vim_to_object m' obj = Done v.
Proof.
  unfold vim_to_object. intros Hsub H. inv_bind H.
  rewrite (vim_to_object_rec_mono _ _ _ _ _ (S (size (blocks m'))) m' Ha); [done| |done].
  apply map_subseteq_size in Hsub. lia.
Qed.


(** ** On a well-formed memory vim_to_object returns *)

Lemma is_cell_b_load m a : is_cell_b m a = true -> exists tv, load_tv m a = Done tv.
Proof. unfold is_cell_b, load_tv. repeat case_match; try discriminate; eauto. Qed.

Lemma load_tv_is_cell_b m a tv : load_tv m a = Done tv -> is_cell_b m a = true.
Proof. unfold is_cell_b, load_tv. repeat case_match; try discriminate; eauto. Qed.

Lemma mem_wf_load_tv m a tv : mem_wf m -> load_tv m a = Done tv -> tv_ok m tv = true.
Proof.
  unfold load_tv. intros Hwf H.
  destruct (blocks m !! a) as [b|] eqn:E; [|discriminate].
  specialize (Hwf _ _ E). destruct b; simpl in *; congruence.
Qed.

Lemma mem_wf_load_list m l lv :
  mem_wf m -> load_list m l = Done lv -> forallb (is_cell_b m) (lv_items lv) = true.
Proof.
  unfold load_list. intros Hwf H.
  destruct (blocks m !! l) as [b|] eqn:E; [|discriminate].
  specialize (Hwf _ _ E). destruct b; simpl in *; congruence.
Qed.

Lemma mem_wf_load_dict m d dv :
  mem_wf m -> load_dict m d = Done dv ->
  ht_used (dv_hashtab dv) = length (live_items (ht_array (dv_hashtab dv))) /\
  forallb (is_cell_b m) (live_items (ht_array (dv_hashtab dv))) = true.
Proof.
  unfold load_dict. intros Hwf H.
  destruct (blocks m !! d) as [b|] eqn:E; [|discriminate].
  specialize (Hwf _ _ E). destruct b; simpl in *; try discriminate.
  injection H as <-. apply andb_true_iff in Hwf as [H1 H2].
  apply Nat.eqb_eq in H1. done.
Qed.

Lemma convert_list_items_safe rec items : forall lookup,
  (forall item lk, item ∈ items -> rec item lk <> Fault) ->
  convert_list_items rec items lookup <> Fault.
Proof.
  induction items as [|item rest IH]; intros lookup Hrec; simpl; [discriminate|].
  apply bind_not_Fault; [apply Hrec; left|]. intros [o lk1] _.
  apply bind_not_Fault; [apply IH; intros; apply Hrec; by right|].
  intros [os lk2] _. discriminate.
Qed.

Lemma count_items_safe arr : forall todo,
  (todo <= length (live_items arr))%nat -> count_items todo arr <> Fault.
Proof.
  induction arr as [|hi arr IH]; intros [|todo] Hle; simpl in *; try discriminate; [lia|].
  destruct hi as [| |key di]; simpl in *; try (apply IH; simpl; lia).
  apply bind_not_Fault; [apply IH; lia | discriminate].
Qed.

Lemma convert_dict_items_safe rec arr : forall todo lookup,
  (todo <= length (live_items arr))%nat ->
  (forall di lk, di ∈ live_items arr -> rec di lk <> Fault) ->
  convert_dict_items rec todo arr lookup <> Fault.
Proof.
  induction arr as [|hi arr IH]; intros [|todo] lookup Hle Hrec; simpl in *;
    try discriminate; [lia|].
  destruct hi as [| |key di]; simpl in *; try (apply IH; [simpl; lia | done]).
  apply bind_not_Fault; [apply Hrec; left|]. intros [o lk1] _.
  apply bind_not_Fault; [apply IH; [lia | intros; apply Hrec; by right]|].
  intros [os lk2] _. discriminate.
Qed.

Lemma vim_to_object_rec_safe m : mem_wf m -> forall fuel obj lookup,
  is_cell_b m obj = true -> vim_to_object_rec fuel m obj lookup <> Fault.
Proof.
  intros Hwf. induction fuel as [|fuel IH]; intros obj lookup Hcell; [discriminate|].
  cbn [vim_to_object_rec].
  destruct (is_cell_b_load _ _ Hcell) as [tv Hl]. rewrite Hl. cbn [bind].
  destruct (is_container tv && bool_decide (obj ∈ lookup)); [discriminate|].
  pose proof (mem_wf_load_tv _ _ _ Hwf Hl) as Hok. unfold tv_ok in Hok.
  destruct (vval tv) as [|n|[s|]|fn|[l|]|[d|]|f]; try discriminate.
  - destruct (blocks m !! l) as [[]|] eqn:El; try discriminate Hok.
    assert (load_list m l = Done l0) as Hll by (unfold load_list; by rewrite El).
    rewrite Hll. cbn [bind].
    pose proof (mem_wf_load_list _ _ _ Hwf Hll) as Hitems.
    apply bind_not_Fault; [|intros [] _; discriminate].
    apply convert_list_items_safe. intros item lk Hin. apply IH.
    rewrite forallb_forall in Hitems. apply Hitems. by apply list_elem_of_In.
  - destruct (blocks m !! d) as [[]|] eqn:Ed; try discriminate Hok.
    assert (load_dict m d = Done d0) as Hld by (unfold load_dict; by rewrite Ed).
    rewrite Hld. cbn [bind].
    destruct (mem_wf_load_dict _ _ _ Hwf Hld) as [Hused Hitems].
    apply bind_not_Fault; [apply count_items_safe; lia|]. intros n _.
    apply bind_not_Fault; [|intros [] _; discriminate].
    apply convert_dict_items_safe; [lia|]. intros item lk Hin. apply IH.
    rewrite forallb_forall in Hitems. apply Hitems. by apply list_elem_of_In.
Qed.

Lemma vim_to_object_total m obj :
  mem_wf m -> is_cell_b m obj = true -> exists v, vim_to_object m obj = Done v.
Proof.
  intros Hwf Hcell.
  pose proof (vim_to_object_ends m obj) as Hf.
  unfold vim_to_object in *.
  pose proof (vim_to_object_rec_safe m Hwf (S (size (blocks m))) obj ∅ Hcell) as Hs.
  destruct (vim_to_object_rec _ _ _ _) as [r| |]; simpl in *; try done. eauto.
Qed.


(** ** The claims about single calls *)

Lemma hashitem_at_live arr i k di :
  hashitem_at arr i = HI_KEY k di -> di ∈ live_items arr.
Proof.
  unfold hashitem_at, live_items. intros H.
  destruct (arr !! i) as [hi|] eqn:E; simpl in H; [subst hi | discriminate].
  apply list_elem_of_omap. exists (HI_KEY k di). split; [|done].
  by eapply list_elem_of_lookup_2.
Qed.

Lemma dict_find_Some dv key di :
  dict_find dv key = Some di ->
  exists k, hashitem_at (ht_array (dv_hashtab dv))
              (hash_find (ht_array (dv_hashtab dv)) (cstr key)) = HI_KEY k di.
Proof.
  unfold dict_find. destruct (hashitem_at _ _) as [| |k di']; try discriminate.
  intros [= ->]. eauto.
Qed.

Lemma dict_find_None dv key :
  dict_find dv key = None ->
  HASHITEM_EMPTY (hashitem_at (ht_array (dv_hashtab dv))
                    (hash_find (ht_array (dv_hashtab dv)) (cstr key))) = true.
Proof. unfold dict_find. by destruct (hashitem_at _ _). Qed.

(** C9: a host String whose pointer is NULL converts to Nil, not to an empty
    String and not to an error; a non-NULL one converts to a String that
    holds a copy of its bytes (the bytes [xstrdup] and [strlen] see). *)
Theorem vim_to_object_string (m : mem) (obj : addr) (tv : typval_T) :
  load_tv m obj = Done tv ->
  (vval tv = V_STRING None -> vim_to_object m obj = Done ObjNil) /\
  (forall s, vval tv = V_STRING (Some s) ->
     vim_to_object m obj = Done (ObjString (cstr s))).
Proof.
  intros Hl. unfold vim_to_object. cbn [vim_to_object_rec]. rewrite Hl. cbn [bind].
  split.
  - intros Hv. unfold is_container, v_type. rewrite Hv. reflexivity.
  - intros s Hv. unfold is_container, v_type. rewrite Hv. reflexivity.
Qed.

(** C8: vim_to_object has no Error to set (its embedding neither takes nor
    returns one); it never runs out of fuel, on a well-formed memory it
    returns a Value, and a typval_T whose tag is VAR_FUNC or VAR_UNKNOWN, the
    tags without a case of their own, converts to Nil. *)
Theorem vim_to_object_returns (m : mem) (obj : addr) :
  vim_to_object m obj <> OutOfFuel /\
  (mem_wf m -> is_cell_b m obj = true -> exists v, vim_to_object m obj = Done v) /\
  (forall tv, load_tv m obj = Done tv ->
     v_type tv <> VAR_STRING -> v_type tv <> VAR_NUMBER -> v_type tv <> VAR_FLOAT ->
     v_type tv <> VAR_LIST -> v_type tv <> VAR_DICT ->
     vim_to_object m obj = Done ObjNil).
Proof.
  split; [apply vim_to_object_ends|]. split; [apply vim_to_object_total|].
  intros tv Hl H1 H2 H3 H4 H5.
  unfold vim_to_object. cbn [vim_to_object_rec]. rewrite Hl. cbn [bind].
  unfold is_container. unfold v_type in *.
  destruct (vval tv); try congruence; reflexivity.
Qed.

(** C10: for a key that is not in the dictionary, dict_get_value sets "Key
    not found" and returns its local [rv] as it found it: whatever [rv0] the
    uninitialised variable held, that is the value returned; nothing else is
    touched. *)
Theorem dict_get_value_key_not_found (rv0 : Object) (dict : addr) (key : string)
    (pop : bool) (m : mem) (err : Error) (dv : dict_T) :
  load_dict m dict = Done dv ->
  dict_find dv key = None ->
  dict_get_value rv0 dict key pop m err
  = Done (rv0, m, set_api_error "Key not found" err).
Proof.
  intros Hd Hf. unfold dict_get_value. rewrite Hd. cbn [bind].
  by rewrite (dict_find_None _ _ Hf).
Qed.

Lemma dict_find_cell m dict dv key di :
  mem_wf m -> load_dict m dict = Done dv -> dict_find dv key = Some di ->
  is_cell_b m di = true.
Proof.
  intros Hwf Hd Hf.
  destruct (dict_find_Some _ _ _ Hf) as [k Hk].
  destruct (mem_wf_load_dict _ _ _ Hwf Hd) as [_ Hitems].
  rewrite forallb_forall in Hitems. apply Hitems, list_elem_of_In.
  by eapply hashitem_at_live.
Qed.

(** C4: on a locked dictionary that has the key, dict_get_value with pop
    sets "Dictionary is locked", still returns the converted value, and
    leaves the memory, so the entry, as it was: a second call gives the same
    value again. *)
Theorem dict_get_value_pop_locked (rv0 rv1 : Object) (dict : addr) (key : string)
    (m : mem) (err : Error) (dv : dict_T) (di : addr) :
  mem_wf m ->
  load_dict m dict = Done dv ->
  dv_lock dv <> 0 ->
  dict_find dv key = Some di ->
  exists v,
    vim_to_object m di = Done v /\
    dict_get_value rv0 dict key true m err
    = Done (v, m, set_api_error "Dictionary is locked" err) /\
    dict_get_value rv1 dict key true m (set_api_error "Dictionary is locked" err)
    = Done (v, m, set_api_error "Dictionary is locked" err).
Proof.
  intros Hwf Hd Hlock Hf.
  destruct (dict_find_Some _ _ _ Hf) as [k Hk].
  destruct (vim_to_object_total _ _ Hwf (dict_find_cell _ _ _ _ _ Hwf Hd Hf)) as [v Hv].
  exists v. split; [done|].
  unfold dict_get_value. rewrite Hd. cbn [bind]. rewrite Hk. cbn [HASHITEM_EMPTY dict_lookup bind].
  rewrite Hv. cbn [bind].
  assert ((dv_lock dv =? 0) = false) as -> by (by apply Z.eqb_neq).
  done.
Qed.

(** C5: with an interrupt pending and an exception in flight, try_end
    discards the exception, sets "Keyboard interrupt", clears the interrupt
    flag and returns true; the message list is left alone and the text of the
    exception is not used. *)
Theorem try_end_interrupt_first (g : globals) (err : Error) :
  got_int g = true ->
  did_throw g = true ->
  try_end g err
  = Done (true,
          {| trylevel := trylevel g - 1; did_emsg := false; got_int := false;
             did_throw := false; msg_list := msg_list g;
             current_exception := None |},
          set_api_error "Keyboard interrupt" err).
Proof.
  intros Hint Hthrow. unfold try_end. simpl. rewrite Hint, Hthrow. reflexivity.
Qed.


(** ** object_to_vim on the Values it accepts *)

Lemma Object_nested_ind (P : Object -> Prop) :
  P ObjNil -> (forall b, P (ObjBool b)) -> (forall i, P (ObjInt i)) ->
  (forall f, P (ObjFloat f)) -> (forall s, P (ObjString s)) ->
  (forall items, Forall P items -> P (ObjArray items)) ->
  (forall items, Forall (fun kv => P kv.2) items -> P (ObjDictionary items)) ->
  forall o, P o.
Proof.
  intros HNil HBool HInt HFloat HString HArray HDict.
  fix IH 1. intros [|b|i|f|s|items|items];
    [apply HNil | apply HBool | apply HInt | apply HFloat | apply HString | |].
  - apply HArray. induction items as [|x xs IHxs]; constructor; [apply IH | exact IHxs].
  - apply HDict. induction items as [|[k x] xs IHxs]; constructor; [apply IH | exact IHxs].
Qed.

Lemma load_tv_eq m a :
  load_tv m a = match blocks m !! a ≫= block_tv with Some tv => Done tv | None => Fault end.
Proof. unfold load_tv. destruct (blocks m !! a) as [[]|]; reflexivity. Qed.

Lemma store_tv_eq a tv m :
  store_tv a tv m
  = match blocks m !! a ≫= (fun b => block_with_tv b tv) with
    | Some b' => Done {| blocks := <[a := b']> (blocks m); next := next m |}
    | None => Fault
    end.
Proof. unfold store_tv. destruct (blocks m !! a) as [[]|]; reflexivity. Qed.

Lemma block_with_tv_cell b tv0 tv :
  block_tv b = Some tv0 ->
  exists b', block_with_tv b tv = Some b' /\ block_tv b' = Some tv /\
             (forall tv', block_with_tv b' tv' = block_with_tv b tv').
Proof. destruct b; simpl; intros [=]; eauto. Qed.

Lemma valid_blocks_insert bs n n' a b :
  valid_blocks bs n -> (n <= n')%positive -> (a < n')%positive ->
  valid_blocks (<[a := b]> bs) n'.
Proof.
  intros Hv Hle Ha x bx. rewrite lookup_insert. case_decide; [intros; subst; lia|].
  intros Hx. specialize (Hv _ _ Hx). lia.
Qed.


Lemma object_to_vim_scalar_spec tvv v tv m err b0 tv0 :
  match vval tvv with
  | V_NUMBER _ | V_FLOAT _ | V_STRING (Some _) => True
  | _ => False
  end ->
  v_lock tvv = 0 ->
  (exact_roundtrip v = true ->
   forall M root tvr lk fuel, load_tv M root = Done tvr -> vval tvr = vval tvv ->
     exists v', vim_to_object_rec (S fuel) M root lk = Done (v', lk) /\ obj_equiv v' v) ->
  mem_valid m -> blocks m !! tv = Some b0 -> block_tv b0 = Some tv0 ->
  exists m' t b',
    (m1 <- store_tv tv {| v_lock := 0; vval := V_UNKNOWN |} m ;;
     m2 <- store_tv tv tvv m1 ;; Done (true, m2, err)) = Done (true, m', err) :> res (bool * mem * Error) /\
    (next m <= next m')%positive /\
    mem_valid m' /\
    (forall x, (x < next m)%positive -> x <> tv -> blocks m' !! x = blocks m !! x) /\
    block_with_tv b0 t = Some b' /\
    blocks m' !! tv = Some b' /\
    v_lock t = 0 /\
    built m m' (vval t) /\
    (exact_roundtrip v = true -> reads_back m' (next m) (next m') (vval t) v).
Proof.
  intros Hsc Hlock Hread Hv Hb0 Hc0.
  destruct (block_with_tv_cell b0 tv0 {| v_lock := 0; vval := V_UNKNOWN |} Hc0)
    as (b1 & Hb1 & Hc1 & Hk1).
  destruct (block_with_tv_cell b0 tv0 tvv Hc0) as (b2 & Hb2 & Hc2 & Hk2).
  exists {| blocks := <[tv := b2]> (<[tv := b1]> (blocks m)); next := next m |}, tvv, b2.
  split.
  { rewrite store_tv_eq, Hb0. simpl. rewrite Hb1. simpl.
    rewrite store_tv_eq. simpl. rewrite lookup_insert_eq. simpl. rewrite Hk1, Hb2. done. }
  simpl. split; [lia|]. split.
  { unfold mem_valid; simpl. pose proof (Hv _ _ Hb0).
    apply (valid_blocks_insert _ (next m)); [|lia|done].
    apply (valid_blocks_insert _ (next m)); [done|lia|done]. }
  split. { intros x _ Hx. by rewrite !lookup_insert_ne. }
  split; [done|]. split; [by rewrite lookup_insert_eq|]. split; [done|].
  split. { unfold built. destruct (vval tvv) as [| | [|] | | | |]; done. }
  intros Hex M root tvr lk Hl Hvv _ _ _ _.
  exists 1%nat.
  destruct (Hread Hex M root tvr lk O Hl Hvv) as (v' & Hrun & Heq).
  exists v', lk. split; [|split; [done | auto]].
  intros fuel Hf. eapply vim_to_object_rec_mono; [exact Hrun | done | done].
Qed.

Lemma vim_to_object_rec_scalar fuel M root tvr lk :
  load_tv M root = Done tvr -> is_container tvr = false ->
  vim_to_object_rec (S fuel) M root lk
  = Done (match vval tvr with
          | V_STRING (Some s) => ObjString (cstr s)
          | V_NUMBER n => ObjInt (Integer_of_varnumber n)
          | V_FLOAT f => ObjFloat f
          | _ => ObjNil
          end, lk).
Proof.
  intros Hl Hc. cbn [vim_to_object_rec]. rewrite Hl. cbn [bind]. rewrite Hc. cbn [andb].
  unfold is_container, v_type in Hc.
  destruct (vval tvr) as [|n|[s|]|fn|[l|]|[d|]|f]; try discriminate; reflexivity.
Qed.

Lemma cstr_idemp s : cstr (cstr s) = cstr s.
Proof.
  induction s as [|c s IH]; simpl; [done|].
  destruct (Ascii.eqb c Ascii.zero) eqn:E; simpl; [done|]. by rewrite E, IH.
Qed.


Lemma load_list_lookup m l lv :
  blocks m !! l = Some (B_list lv) -> load_list m l = Done lv.
Proof. unfold load_list. by intros ->. Qed.

Lemma store_list_lookup m l lv lv' :
  blocks m !! l = Some (B_list lv) ->
  store_list l lv' m = Done {| blocks := <[l := B_list lv']> (blocks m); next := next m |}.
Proof. unfold store_list. by intros ->. Qed.

Lemma load_dict_lookup m d dv :
  blocks m !! d = Some (B_dict dv) -> load_dict m d = Done dv.
Proof. unfold load_dict. by intros ->. Qed.

Lemma store_dict_lookup m d dv dv' :
  blocks m !! d = Some (B_dict dv) ->
  store_dict d dv' m = Done {| blocks := <[d := B_dict dv']> (blocks m); next := next m |}.
Proof. unfold store_dict. by intros ->. Qed.

Lemma load_tv_lookup m a b tv :
  blocks m !! a = Some b -> block_tv b = Some tv -> load_tv m a = Done tv.
Proof. intros Hb Ht. rewrite load_tv_eq, Hb. simpl. by rewrite Ht. Qed.

Lemma in_range_lt lo hi x : in_range lo hi x -> (x < hi)%positive.
Proof. by intros [_ ?]. Qed.

Lemma array_to_vim_ok items :
  Forall object_to_vim_spec items -> forallb convertible items = true ->
  forall l m err prev rc lck,
    mem_valid m ->
    blocks m !! l
    = Some (B_list {| lv_items := prev; lv_refcount := rc; lv_lock := lck |}) ->
    exists m' lis,
      array_to_vim object_to_vim l items m err = Done (true, m', err) /\
      (next m <= next m')%positive /\ mem_valid m' /\
      (forall x, (x < next m)%positive -> x <> l -> blocks m' !! x = blocks m !! x) /\
      blocks m' !! l
      = Some (B_list {| lv_items := prev ++ lis; lv_refcount := rc; lv_lock := lck |}) /\
      (forallb exact_roundtrip items = true ->
       items_read_back m' (next m) (next m') lis items).
Proof.
  induction 1 as [|item rest Hitem Hrest IH]; intros Hconv l m err prev rc lck Hv Hl.
  - exists m, []. simpl. rewrite app_nil_r.
    split; [done|]. split; [lia|]. split; [done|]. split; [done|]. split; [done|].
    intros _ M lk _ _. exists O, [], lk. split; [done|]. split; [constructor | auto].
  - simpl in Hconv. apply andb_true_iff in Hconv as [Hc1 Hc2].
    cbn [array_to_vim]. unfold listitem_alloc, alloc.
    pose proof (Hv _ _ Hl) as Hlt.
    set (li := next m) in *.
    set (m1 := {| blocks := <[li := B_listitem uninit_tv]> (blocks m); next := Pos.succ li |}).
    destruct (Hitem Hc1 li m1 err (B_listitem uninit_tv) uninit_tv)
      as (m2 & tvv & b' & Hrun & Hn2 & Hv2 & Hfr2 & Hb' & Hli2 & Hlock & Hbuilt & Hrb).
    { unfold mem_valid, m1; simpl. apply (valid_blocks_insert _ li); [done|lia|lia]. }
    { unfold m1; simpl. by rewrite lookup_insert_eq. }
    { done. }
    rewrite Hrun. cbn [bind]. simpl in Hn2, Hfr2, Hb'. injection Hb' as <-.
    assert (blocks m2 !! l
            = Some (B_list {| lv_items := prev; lv_refcount := rc; lv_lock := lck |})) as Hl2.
    { rewrite Hfr2; [|lia|lia]. unfold m1; simpl. rewrite lookup_insert_ne; [done|lia]. }
    unfold list_append. rewrite (load_list_lookup _ _ _ Hl2). cbn [bind]. simpl.
    rewrite (store_list_lookup _ _ _ _ Hl2).
    set (m3 := {| blocks := <[l := _]> (blocks m2); next := next m2 |}).
    destruct (IH Hc2 l m3 err (prev ++ [li]) rc lck)
      as (m' & lis & Hrun' & Hn' & Hv' & Hfr' & Hl' & Hrb').
    { unfold mem_valid, m3; simpl. apply (valid_blocks_insert _ (next m2)); [done|lia|lia]. }
    { unfold m3; simpl. by rewrite lookup_insert_eq. }
    cbn [bind]. exists m', (li :: lis). rewrite Hrun'.
    assert (Hn3 : next m3 = next m2) by reflexivity.
    assert (Hn1 : next m1 = Pos.succ li) by reflexivity.
    split; [done|]. split; [lia|]. split; [done|]. split.
    { intros x Hx Hxl. rewrite Hfr'; [|lia|done]. unfold m3; simpl.
      rewrite lookup_insert_ne; [|done]. rewrite Hfr2; [|lia|lia].
      unfold m1; simpl. rewrite lookup_insert_ne; [done|lia]. }
    split. { rewrite Hl'. by rewrite <- app_assoc. }
    intros Hex. simpl in Hex. apply andb_true_iff in Hex as [Hex1 Hex2].
    specialize (Hrb Hex1). specialize (Hrb' Hex2). simpl in Hrb.
    intros M lk Hagree Hlk.
    assert (Hli' : blocks m' !! li = Some (B_listitem tvv)).
    { rewrite Hfr'; [|lia|lia]. unfold m3; simpl. rewrite lookup_insert_ne; [done|lia]. }
    destruct (Hrb M li tvv lk) as (k1 & v' & lk1 & Hrun1 & Heq1 & Hlk1).
    { apply (load_tv_lookup _ _ (B_listitem tvv)); [|done].
      rewrite Hagree; [done|]. split; lia. }
    { done. }
    { intros x [Hx1 Hx2]. rewrite Hagree; [|split; lia].
      rewrite Hfr'; [|lia|lia]. unfold m3; simpl. rewrite lookup_insert_ne; [done|lia]. }
    { intros [? ?]; lia. }
    { intros Hin. apply (Hlk _ Hin). split; lia. }
    { intros x Hin [? ?]. apply (Hlk _ Hin). split; lia. }
    destruct (Hrb' M lk1) as (k2 & vs' & lk2 & Hrun2 & Heq2 & Hlk2).
    { intros x [Hx1 Hx2]. apply Hagree. split; lia. }
    { intros x Hin [? ?]. destruct (Hlk1 _ Hin) as [Hin'|[->|[? ?]]]; [|lia|lia].
      apply (Hlk _ Hin'). split; lia. }
    exists (k1 `max` k2)%nat, (v' :: vs'), lk2. split; [|split].
    + intros fuel Hf. simpl. rewrite Hrun1; [|lia]. cbn [bind]. rewrite Hrun2; [|lia]. done.
    + by constructor.
    + intros x Hin. destruct (Hlk2 _ Hin) as [Hin'|[? ?]].
      * destruct (Hlk1 _ Hin') as [?|[->|[? ?]]]; [by left| |]; right; split; lia.
      * right; split; lia.
Qed.


Lemma reads_back_agree m1 m2 lo hi vv v :
  reads_back m1 lo hi vv v ->
  (forall x, in_range lo hi x -> blocks m2 !! x = blocks m1 !! x) ->
  reads_back m2 lo hi vv v.
Proof.
  intros Hrb Hag M root tvr lk Hl Hvv HM Hroot Hlk1 Hlk2.
  apply (Hrb M root tvr lk); try done.
  intros x Hx. rewrite HM; [|done]. by apply Hag.
Qed.

Lemma hash_find_absent arr key :
  (forall di, HI_KEY key di ∉ arr) ->
  HASHITEM_EMPTY (hashitem_at arr (hash_find arr key)) = true.
Proof.
  induction arr as [|hi arr IH]; intros Habs; [done|].
  assert (HASHITEM_EMPTY (hashitem_at arr (hash_find arr key)) = true) as IH'.
  { apply IH. intros di Hin. apply (Habs di). by right. }
  destruct hi as [| |k di]; simpl; try done.
  case_decide; [|done]. subst k. exfalso. apply (Habs di). by left.
Qed.

Lemma hash_add_absent ht key di :
  (forall di', HI_KEY key di' ∉ ht_array ht) ->
  exists ht', hash_add ht key di = (true, ht') /\
    ht_used ht' = S (ht_used ht) /\ ht_array ht' ≡ₚ HI_KEY key di :: ht_array ht.
Proof.
  intros Habs. unfold hash_add. rewrite (hash_find_absent _ _ Habs).
  eexists; split; [done|]. simpl. split; [done|].
  rewrite <- Permutation_middle. by rewrite take_drop.
Qed.

Lemma dictionary_to_vim_ok items :
  Forall (fun kv => object_to_vim_spec kv.2) items ->
  dict_items_convertible items = true ->
  forall d m err lck rc ht,
    mem_valid m ->
    blocks m !! d
    = Some (B_dict {| dv_lock := lck; dv_refcount := rc; dv_hashtab := ht |}) ->
    exists m' ht',
      dictionary_to_vim object_to_vim d items m err = Done (true, m', err) /\
      (next m <= next m')%positive /\ mem_valid m' /\
      (forall x, (x < next m)%positive -> x <> d -> blocks m' !! x = blocks m !! x) /\
      blocks m' !! d
      = Some (B_dict {| dv_lock := lck; dv_refcount := rc; dv_hashtab := ht' |}) /\
      (dict_items_exact items = true -> NoDup items.*1 ->
       (forall k di, k ∈ items.*1 -> HI_KEY k di ∉ ht_array ht) ->
       exists E,
         ht_array ht' ≡ₚ ht_array ht ++ (slot_of <$> E) /\
         ht_used ht' = (ht_used ht + length E)%nat /\
         pair_of <$> E = items /\
         chain (next m) E (next m') /\
         Forall (entry_built m') E).
Proof.
  induction 1 as [|[key value] rest Hitem Hrest IH]; intros Hconv d m err lck rc ht Hv Hd.
  - exists m, ht. simpl.
    split; [done|]. split; [lia|]. split; [done|]. split; [done|]. split; [done|].
    intros _ _ _. exists []. simpl. rewrite app_nil_r.
    split; [done|]. split; [lia|]. split; [done|]. split; [lia|]. constructor.
  - simpl in Hconv, Hitem. apply andb_true_iff in Hconv as [Hc1 Hc2].
    apply andb_true_iff in Hc1 as [Hlen Hc1]. apply negb_true_iff in Hlen.
    cbn [dictionary_to_vim]. rewrite Hlen. unfold dictitem_alloc, alloc.
    pose proof (Hv _ _ Hd) as Hlt.
    set (di := next m) in *.
    set (m1 := {| blocks := <[di := B_dictitem (cstr key) uninit_tv]> (blocks m);
                  next := Pos.succ di |}).
    assert (Hn1 : next m1 = Pos.succ di) by reflexivity.
    destruct (Hitem Hc1 di m1 err (B_dictitem (cstr key) uninit_tv) uninit_tv)
      as (m2 & tvv & b' & Hrun & Hn2 & Hv2 & Hfr2 & Hb' & Hdi2 & Hlock & Hbuilt & Hrb).
    { unfold mem_valid, m1; simpl. apply (valid_blocks_insert _ di); [done|lia|lia]. }
    { unfold m1; simpl. by rewrite lookup_insert_eq. }
    { done. }
    rewrite Hrun. cbn [bind]. simpl in Hb'. injection Hb' as <-.
    assert (blocks m2 !! d
            = Some (B_dict {| dv_lock := lck; dv_refcount := rc; dv_hashtab := ht |})) as Hd2.
    { rewrite Hfr2; [|lia|lia]. unfold m1; simpl. rewrite lookup_insert_ne; [done|lia]. }
    unfold dict_add. rewrite (load_dict_lookup _ _ _ Hd2). cbn [bind].
    unfold load_dictitem_key. rewrite Hdi2. cbn [bind]. simpl.
    destruct (hash_add ht (cstr key) di) as [ok ht1] eqn:Hadd.
    rewrite (store_dict_lookup _ _ _ _ Hd2). cbn [bind snd].
    set (m3 := {| blocks := <[d := _]> (blocks m2); next := next m2 |}).
    assert (Hn3 : next m3 = next m2) by reflexivity.
    destruct (IH Hc2 d m3 err lck rc ht1)
      as (m' & ht' & Hrun' & Hn' & Hv' & Hfr' & Hd' & Hex').
    { unfold mem_valid, m3; simpl. apply (valid_blocks_insert _ (next m2)); [done|lia|lia]. }
    { unfold m3; simpl. by rewrite lookup_insert_eq. }
    exists m', ht'. rewrite Hrun'.
    split; [done|]. split; [lia|]. split; [done|]. split.
    { intros x Hx Hxd. rewrite Hfr'; [|lia|done]. unfold m3; simpl.
      rewrite lookup_insert_ne; [|done]. rewrite Hfr2; [|lia|lia].
      unfold m1; simpl. rewrite lookup_insert_ne; [done|lia]. }
    split; [done|].
    intros Hex Hnd Habs. simpl in Hex, Hnd.
    apply andb_true_iff in Hex as [Hex1 Hex2].
    apply andb_true_iff in Hex1 as [Hex0 Hex1].
    apply andb_true_iff in Hex0 as [_ Hk]. apply bool_decide_eq_true in Hk.
    rewrite Hk in *.
    apply NoDup_cons in Hnd as [Hnotin Hnd].
    destruct (hash_add_absent ht key di) as (ht1' & Hadd' & Hused1 & Harr1).
    { intros di'. apply Habs. simpl. by left. }
    rewrite Hadd in Hadd'. injection Hadd' as -> <-.
    destruct (Hex' Hex2 Hnd) as (E & Harr & Hused & Hpairs & Hchain & Hbuilt').
    { intros k di' Hin Hslot. rewrite Harr1 in Hslot.
      apply elem_of_cons in Hslot as [Heq|Hslot].
      - injection Heq as -> ->. done.
      - apply (Habs k di'); [simpl; by right | done]. }
    exists ((key, di, next m2, value) :: E).
    split. { rewrite Harr, Harr1. simpl. by rewrite <- Permutation_middle. }
    split; [simpl; lia|].
    split. { simpl. f_equal. exact Hpairs. }
    split. { split; [lia|]. split; [lia|]. by rewrite <- Hn3. }
    constructor; [|done].
    exists tvv. split.
    { rewrite Hfr'; [|lia|lia]. unfold m3; simpl. rewrite lookup_insert_ne; [done|lia]. }
    eapply reads_back_agree; [apply Hrb; done|].
    intros x [Hx1 Hx2]. rewrite Hfr'; [|lia|lia]. unfold m3; simpl.
    rewrite lookup_insert_ne; [done|lia].
Qed.


Lemma chain_le lo E hi : chain lo E hi -> (lo <= hi)%positive.
Proof.
  revert lo. induction E as [|[[[k di] hi_e] v] E IH]; intros lo; simpl; [done|].
  intros (H1 & H2 & H3). specialize (IH _ H3). lia.
Qed.

Lemma chain_range lo E hi e :
  chain lo E hi -> e ∈ E ->
  (lo <= e.1.1.2)%positive /\ (e.1.1.2 < e.1.2)%positive /\ (e.1.2 <= hi)%positive.
Proof.
  revert lo. induction E as [|[[[k di] hi_e] v] E IH]; intros lo Hc Hin.
  - by apply elem_of_nil in Hin.
  - simpl in Hc. destruct Hc as (H1 & H2 & H3).
    apply elem_of_cons in Hin as [->|Hin]; simpl.
    + apply chain_le in H3. lia.
    + destruct (IH _ H3 Hin) as (? & ? & ?). lia.
Qed.

Lemma chain_ordered lo E hi e e' :
  chain lo E hi -> e ∈ E -> e' ∈ E ->
  (e.1.1.2 < e'.1.1.2)%positive -> (e.1.2 <= e'.1.1.2)%positive.
Proof.
  revert lo. induction E as [|[[[k di] hi_e] v] E IH]; intros lo Hc Hin Hin' Hlt.
  - by apply elem_of_nil in Hin.
  - simpl in Hc. destruct Hc as (H1 & H2 & H3).
    apply elem_of_cons in Hin as [->|Hin]; apply elem_of_cons in Hin' as [->|Hin'];
      simpl in *.
    + lia.
    + destruct (chain_range _ _ _ _ H3 Hin') as (? & ? & ?). lia.
    + destruct (chain_range _ _ _ _ H3 Hin) as (? & ? & ?). lia.
    + by eapply IH.
Qed.

Lemma chain_functional lo E hi e e' :
  chain lo E hi -> e ∈ E -> e' ∈ E -> e.1.1.2 = e'.1.1.2 -> e = e'.
Proof.
  revert lo. induction E as [|[[[k di] hi_e] v] E IH]; intros lo Hc Hin Hin' Heq.
  - by apply elem_of_nil in Hin.
  - simpl in Hc. destruct Hc as (H1 & H2 & H3).
    apply elem_of_cons in Hin as [->|Hin]; apply elem_of_cons in Hin' as [->|Hin'];
      simpl in *.
    + done.
    + destruct (chain_range _ _ _ _ H3 Hin') as (? & ? & ?). lia.
    + destruct (chain_range _ _ _ _ H3 Hin) as (? & ? & ?). lia.
    + by eapply IH.
Qed.

Lemma entry_built_reads m' M e :
  entry_built m' e ->
  (e.1.1.2 < e.1.2)%positive ->
  (forall x, range_of e x -> blocks M !! x = blocks m' !! x) ->
  cell_reads M e.
Proof.
  destruct e as [[[k di] hi_e] v]. simpl. intros (tvv & Hdi & Hrb) Hlt Hag lk Hlk.
  unfold range_of in *; simpl in *.
  destruct (Hrb M di tvv lk) as (k0 & v' & lk' & Hrun & Heq & Hlk').
  - apply (load_tv_lookup _ _ (B_dictitem k tvv)); [|done].
    rewrite Hag; [done|]. split; lia.
  - done.
  - intros x [? ?]. apply Hag. split; lia.
  - intros [? ?]. lia.
  - intros Hin. apply (Hlk _ Hin). split; lia.
  - intros x Hin [? ?]. apply (Hlk _ Hin). split; lia.
  - exists k0, v', lk'. split; [done|]. split; [done|].
    intros x Hin. destruct (Hlk' _ Hin) as [?|[->|[? ?]]]; [by left| |]; right; split; lia.
Qed.

Lemma convert_dict_items_read M (E : list entry) arr :
  (forall slot, slot ∈ arr -> exists e, e ∈ E /\ slot = slot_of e) ->
  NoDup arr ->
  (forall e e', e ∈ E -> e' ∈ E ->
     (e.1.1.2 < e'.1.1.2)%positive -> (e.1.2 <= e'.1.1.2)%positive) ->
  (forall e e', e ∈ E -> e' ∈ E -> e.1.1.2 = e'.1.1.2 -> e = e') ->
  (forall e, e ∈ E -> cell_reads M e) ->
  forall lk,
    (forall e x, e ∈ E -> slot_of e ∈ arr -> x ∈ lk -> ~ range_of e x) ->
    exists k0 kvs lk',
      (forall fuel, (k0 <= fuel)%nat ->
         convert_dict_items (vim_to_object_rec fuel M) (length arr) arr lk
         = Done (kvs, lk')) /\
      Forall2 (fun slot kv => exists e v', e ∈ E /\ slot = slot_of e /\
                                kv = (cstr e.1.1.1, v') /\ obj_equiv v' e.2) arr kvs /\
      (forall x, x ∈ lk' -> x ∈ lk \/ exists e, e ∈ E /\ range_of e x).
Proof.
  intros Hslots Hnd Hord Hfun Hreads.
  induction arr as [|slot arr IH]; intros lk Hlk.
  - exists O, [], lk. split; [done|]. split; [constructor | auto].
  - apply NoDup_cons in Hnd as [Hnotin Hnd].
    destruct (Hslots slot) as (e & He & ->); [by left|].
    destruct (Hreads e He lk) as (k1 & v' & lk1 & Hrun1 & Heq1 & Hlk1).
    { intros x Hin. apply (Hlk e x He); [by left | done]. }
    destruct IH with (lk := lk1) as (k2 & kvs & lk2 & Hrun2 & Hall & Hlk2).
    { intros s Hs. apply Hslots. by right. }
    { done. }
    { intros e' x He' Hs' Hin Hr'.
      destruct (Hlk1 _ Hin) as [Hin'|Hr].
      - apply (Hlk e' x He'); [by right | done | done].
      - assert (e.1.1.2 <> e'.1.1.2) as Hne.
        { intros Heq. apply (Hfun _ _ He He') in Heq. subst e'. done. }
        destruct Hr as [? ?], Hr' as [? ?].
        destruct (Pos.lt_total e.1.1.2 e'.1.1.2) as [Hlt|[Heq|Hlt]]; [|done|].
        + pose proof (Hord _ _ He He' Hlt). lia.
        + pose proof (Hord _ _ He' He Hlt). lia. }
    exists (k1 `max` k2)%nat, ((cstr e.1.1.1, v') :: kvs), lk2. split; [|split].
    + intros fuel Hf. simpl. rewrite Hrun1; [|lia]. cbn [bind].
      rewrite Hrun2; [|lia]. done.
    + constructor; [|done]. exists e, v'. done.
    + intros x Hin. destruct (Hlk2 _ Hin) as [Hin'|?]; [|by right].
      destruct (Hlk1 _ Hin') as [?|?]; [by left|]. right. eauto.
Qed.

Lemma count_items_live arr :
  Forall (fun slot => HASHITEM_EMPTY slot = false) arr ->
  count_items (length arr) arr = Done (length arr).
Proof.
  induction 1 as [|slot arr Hs _ IH]; simpl; [done|]. by rewrite Hs, IH.
Qed.


Lemma object_to_vim_array_ok items :
  Forall object_to_vim_spec items -> object_to_vim_spec (ObjArray items).
Proof.
  intros Hitems Hconv tv m err b0 tv0 Hv Hb0 Hc0. simpl in Hconv.
  cbn [object_to_vim].
  destruct (block_with_tv_cell b0 tv0 {| v_lock := 0; vval := V_UNKNOWN |} Hc0)
    as (b1 & Hb1 & Hc1 & Hk1).
  pose proof (Hv _ _ Hb0) as Htv.
  set (l := next m) in *.
  destruct (block_with_tv_cell b0 tv0 {| v_lock := 0; vval := V_LIST (Some l) |} Hc0)
    as (b2 & Hb2 & Hc2 & Hk2).
  rewrite store_tv_eq, Hb0. simpl. rewrite Hb1. cbn [bind].
  unfold list_alloc, alloc. simpl. fold l.
  rewrite store_tv_eq. simpl. rewrite lookup_insert_ne by lia.
  rewrite lookup_insert_eq. simpl. rewrite Hk1, Hb2. cbn [bind].
  set (mc := {| blocks := <[tv := b2]> _; next := Pos.succ l |}).
  assert (Hnc : next mc = Pos.succ l) by reflexivity.
  destruct (array_to_vim_ok items Hitems Hconv l mc err [] 0 0)
    as (md & lis & Hrun & Hnd & Hvd & Hfrd & Hld & Hrb).
  { unfold mem_valid, mc; simpl.
    apply (valid_blocks_insert _ (Pos.succ l)); [|lia|lia].
    apply (valid_blocks_insert _ l); [|lia|lia].
    apply (valid_blocks_insert _ l); [done|lia|lia]. }
  { unfold mc; simpl. rewrite lookup_insert_ne by lia. by rewrite lookup_insert_eq. }
  rewrite Hrun. cbn [bind]. simpl in Hld.
  unfold list_ref. rewrite (load_list_lookup _ _ _ Hld). cbn [bind]. simpl.
  rewrite (store_list_lookup _ _ _ _ Hld). cbn [bind].
  set (m' := {| blocks := <[l := _]> (blocks md); next := next md |}).
  assert (Hn' : next m' = next md) by reflexivity.
  assert (Hother : forall x, x <> l -> blocks m' !! x = blocks md !! x).
  { intros x Hx. unfold m'; simpl. by rewrite lookup_insert_ne. }
  exists m', {| v_lock := 0; vval := V_LIST (Some l) |}, b2.
  split; [done|]. split; [lia|]. split.
  { unfold mem_valid, m'; simpl. pose proof (Hvd _ _ Hld).
    apply (valid_blocks_insert _ (next md)); [done|lia|lia]. }
  split.
  { intros x Hx Hxtv. rewrite Hother by lia. rewrite Hfrd; [|lia|lia].
    unfold mc; simpl. rewrite !lookup_insert_ne by lia. done. }
  split; [done|]. split.
  { rewrite Hother by lia. rewrite Hfrd; [|lia|lia]. unfold mc; simpl.
    by rewrite lookup_insert_eq. }
  split; [done|]. split.
  { simpl. split; [done|]. eexists. unfold m'; simpl. by rewrite lookup_insert_eq. }
  intros Hex. simpl in Hex. specialize (Hrb Hex).
  intros M root tvr lk Hl Hvv Hag Hroot Hrlk Hlk. simpl in Hvv.
  destruct (Hrb M ({[root]} ∪ lk)) as (k & vs' & lk' & Hrun' & Heq & Hlk').
  { intros x [? ?]. rewrite Hag; [|split; lia]. apply Hother. lia. }
  { intros x Hin [? ?]. apply elem_of_union in Hin as [Hin|Hin].
    - apply elem_of_singleton in Hin as ->. apply Hroot. split; lia.
    - apply (Hlk _ Hin). split; lia. }
  exists (S k), (ObjArray vs'), lk'. split; [|split].
  - intros [|fuel] Hf; [lia|]. cbn [vim_to_object_rec]. rewrite Hl. cbn [bind].
    unfold is_container, v_type. rewrite Hvv.
    rewrite bool_decide_eq_false_2 by done. cbn [andb].
    assert (load_list M l = Done {| lv_items := [] ++ lis; lv_refcount := 0 + 1;
                                    lv_lock := 0 |}) as ->.
    { apply load_list_lookup. rewrite Hag; [|split; lia].
      unfold m'; simpl. by rewrite lookup_insert_eq. }
    cbn [bind]. simpl. rewrite Hrun' by lia. done.
  - by constructor.
  - intros x Hin. destruct (Hlk' _ Hin) as [Hin'|[? ?]].
    + apply elem_of_union in Hin' as [Hin'|Hin']; [|by left].
      apply elem_of_singleton in Hin'. right; by left.
    + right; right. split; lia.
Qed.


Lemma Forall2_elem_l {A B : Type} (R : A -> B -> Prop) l k x :
  Forall2 R l k -> x ∈ l -> exists y, y ∈ k /\ R x y.
Proof.
  induction 1 as [|a b l k Hab _ IH]; intros Hin.
  - by apply elem_of_nil in Hin.
  - apply elem_of_cons in Hin as [->|Hin].
    + exists b. split; [by left | done].
    + destruct (IH Hin) as (y & ? & ?). exists y. split; [by right | done].
Qed.

Lemma Forall2_elem_r {A B : Type} (R : A -> B -> Prop) l k y :
  Forall2 R l k -> y ∈ k -> exists x, x ∈ l /\ R x y.
Proof.
  induction 1 as [|a b l k Hab _ IH]; intros Hin.
  - by apply elem_of_nil in Hin.
  - apply elem_of_cons in Hin as [->|Hin].
    + exists a. split; [by left | done].
    + destruct (IH Hin) as (x & ? & ?). exists x. split; [by right | done].
Qed.

Lemma chain_NoDup_slots lo E hi : chain lo E hi -> NoDup (slot_of <$> E).
Proof.
  revert lo. induction E as [|[[[k di] hi_e] v] E IH]; intros lo Hc; simpl.
  - constructor.
  - simpl in Hc. destruct Hc as (H1 & H2 & H3). constructor; [|by eapply IH].
    intros Hin. apply list_elem_of_fmap in Hin as (e & Heq & Hin).
    destruct (chain_range _ _ _ _ H3 Hin) as (? & ? & ?).
    unfold slot_of in Heq; simpl in Heq. injection Heq as _ Heq. lia.
Qed.

Lemma dict_items_exact_key items k v :
  dict_items_exact items = true -> (k, v) ∈ items -> cstr k = k.
Proof.
  unfold dict_items_exact. rewrite forallb_forall. intros Hall Hin.
  apply list_elem_of_In in Hin. specialize (Hall _ Hin). simpl in Hall.
  apply andb_true_iff in Hall as [Hall _]. apply andb_true_iff in Hall as [_ Hk].
  by apply bool_decide_eq_true in Hk.
Qed.

Lemma dict_items_exact_convertible_aux (P Q : Object -> bool) items :
  Forall (fun kv => P kv.2 = true -> Q kv.2 = true) items ->
  forallb (fun kv => let '(k, v) := kv in
             negb (String.length k =? 0)%nat && bool_decide (cstr k = k) && P v) items = true ->
  forallb (fun kv => let '(k, v) := kv in
             negb (String.length k =? 0)%nat && Q v) items = true.
Proof.
  induction 1 as [|[k v] items Hkv _ IH]; simpl; [done|].
  intros H. apply andb_true_iff in H as [H1 H2].
  apply andb_true_iff in H1 as [H1 Hp]. apply andb_true_iff in H1 as [Hlen _].
  simpl in Hkv. rewrite Hlen, (Hkv Hp), (IH H2). done.
Qed.


Lemma exact_roundtrip_convertible v : exact_roundtrip v = true -> convertible v = true.
Proof.
  induction v as [|b|i|f|s|items IH|items IH] using Object_nested_ind; simpl; try done.
  - induction IH as [|x xs Hx _ IHxs]; simpl; [done|].
    intros H. apply andb_true_iff in H as [H1 H2]. by rewrite (Hx H1), (IHxs H2).
  - intros H. apply andb_true_iff in H as [H _].
    by apply (dict_items_exact_convertible_aux exact_roundtrip convertible).
Qed.

Lemma object_to_vim_dictionary_ok items :
  Forall (fun kv => object_to_vim_spec kv.2) items ->
  object_to_vim_spec (ObjDictionary items).
Proof.
  intros Hitems Hconv tv m err b0 tv0 Hv Hb0 Hc0. simpl in Hconv.
  cbn [object_to_vim].
  destruct (block_with_tv_cell b0 tv0 {| v_lock := 0; vval := V_UNKNOWN |} Hc0)
    as (b1 & Hb1 & Hc1 & Hk1).
  pose proof (Hv _ _ Hb0) as Htv.
  set (d := next m) in *.
  destruct (block_with_tv_cell b0 tv0 {| v_lock := 0; vval := V_DICT (Some d) |} Hc0)
    as (b2 & Hb2 & Hc2 & Hk2).
  rewrite store_tv_eq, Hb0. simpl. rewrite Hb1. cbn [bind].
  unfold dict_alloc, alloc. simpl. fold d.
  rewrite store_tv_eq. simpl. rewrite lookup_insert_ne by lia.
  rewrite lookup_insert_eq. simpl. rewrite Hk1, Hb2. cbn [bind].
  set (mc := {| blocks := <[tv := b2]> _; next := Pos.succ d |}).
  assert (Hnc : next mc = Pos.succ d) by reflexivity.
  destruct (dictionary_to_vim_ok items Hitems Hconv d mc err 0 0
              {| ht_used := O; ht_array := [] |})
    as (md & ht' & Hrun & Hnd & Hvd & Hfrd & Hdd & Hex').
  { unfold mem_valid, mc; simpl.
    apply (valid_blocks_insert _ (Pos.succ d)); [|lia|lia].
    apply (valid_blocks_insert _ d); [|lia|lia].
    apply (valid_blocks_insert _ d); [done|lia|lia]. }
  { unfold mc; simpl. rewrite lookup_insert_ne by lia. by rewrite lookup_insert_eq. }
  rewrite Hrun. cbn [bind].
  unfold dict_ref. rewrite (load_dict_lookup _ _ _ Hdd). cbn [bind]. simpl.
  rewrite (store_dict_lookup _ _ _ _ Hdd). cbn [bind].
  set (m' := {| blocks := <[d := _]> (blocks md); next := next md |}).
  assert (Hn' : next m' = next md) by reflexivity.
  assert (Hother : forall x, x <> d -> blocks m' !! x = blocks md !! x).
  { intros x Hx. unfold m'; simpl. by rewrite lookup_insert_ne. }
  exists m', {| v_lock := 0; vval := V_DICT (Some d) |}, b2.
  split; [done|]. split; [lia|]. split.
  { unfold mem_valid, m'; simpl. pose proof (Hvd _ _ Hdd).
    apply (valid_blocks_insert _ (next md)); [done|lia|lia]. }
  split.
  { intros x Hx Hxtv. rewrite Hother by lia. rewrite Hfrd; [|lia|lia].
    unfold mc; simpl. rewrite !lookup_insert_ne by lia. done. }
  split; [done|]. split.
  { rewrite Hother by lia. rewrite Hfrd; [|lia|lia]. unfold mc; simpl.
    by rewrite lookup_insert_eq. }
  split; [done|]. split.
  { simpl. split; [done|]. eexists. unfold m'; simpl. by rewrite lookup_insert_eq. }
  intros Hex. simpl in Hex. apply andb_true_iff in Hex as [Hex Hnodup].
  apply bool_decide_eq_true in Hnodup.
  destruct (Hex' Hex Hnodup) as (E & Harr & Hused & Hpairs & Hchain & Hbuilt).
  { intros k di _ Hin. simpl in Hin. by apply elem_of_nil in Hin. }
  simpl in Harr, Hused.
  assert (Hlen : ht_used ht' = length (ht_array ht')).
  { rewrite Hused, Harr. by rewrite length_fmap. }
  intros M root tvr lk Hl Hvv Hag Hroot Hrlk Hlk. simpl in Hvv.
  assert (HinE : forall e, e ∈ E -> forall x, range_of e x ->
            (Pos.succ d <= x)%positive /\ (x < next md)%positive).
  { intros e He x [? ?]. destruct (chain_range _ _ _ _ Hchain He) as (? & ? & ?). lia. }
  destruct (convert_dict_items_read M E (ht_array ht')) with (lk := {[root]} ∪ lk)
    as (k & kvs & lk' & Hrun' & Hall & Hlk').
  { intros slot Hin. rewrite Harr in Hin.
    apply list_elem_of_fmap in Hin as (e & -> & He). eauto. }
  { rewrite Harr. by eapply chain_NoDup_slots. }
  { intros e e' He He'. by eapply chain_ordered. }
  { intros e e' He He'. by eapply chain_functional. }
  { intros e He. rewrite Forall_forall in Hbuilt.
    apply (entry_built_reads md); [by apply Hbuilt | |].
    - by destruct (chain_range _ _ _ _ Hchain He) as (? & ? & ?).
    - intros x Hx. destruct (HinE _ He _ Hx).
      rewrite Hag; [|split; lia]. apply Hother. lia. }
  { intros e x He _ Hin Hx. destruct (HinE _ He _ Hx).
    apply elem_of_union in Hin as [Hin|Hin].
    - apply elem_of_singleton in Hin as ->. apply Hroot. split; lia.
    - apply (Hlk _ Hin). split; lia. }
  exists (S k), (ObjDictionary kvs), lk'. split; [|split].
  - intros [|fuel] Hf; [lia|]. cbn [vim_to_object_rec]. rewrite Hl. cbn [bind].
    unfold is_container, v_type. rewrite Hvv.
    rewrite bool_decide_eq_false_2 by done. cbn [andb].
    assert (load_dict M d = Done {| dv_lock := 0; dv_refcount := 0 + 1;
                                    dv_hashtab := ht' |}) as ->.
    { apply load_dict_lookup. rewrite Hag; [|split; lia].
      unfold m'; simpl. by rewrite lookup_insert_eq. }
    cbn [bind]. simpl. rewrite Hlen.
    rewrite count_items_live.
    2:{ rewrite Forall_forall. intros slot Hin. rewrite Harr in Hin.
        apply list_elem_of_fmap in Hin as (e & -> & He). done. }
    cbn [bind]. rewrite Hrun' by lia. done.
  - assert (Hkeys : forall e, e ∈ E -> cstr e.1.1.1 = e.1.1.1).
    { intros e He. apply (dict_items_exact_key items _ e.2 Hex).
      rewrite <- Hpairs. apply list_elem_of_fmap. exists e. done. }
    constructor.
    + rewrite <- (Forall2_length _ _ _ Hall), Harr, <- Hpairs. by rewrite !length_fmap.
    + intros k0 y Hin. rewrite <- Hpairs in Hin.
      apply list_elem_of_fmap in Hin as (e & Heq & He).
      unfold pair_of in Heq. injection Heq as -> ->.
      destruct (Forall2_elem_l _ _ _ (slot_of e) Hall) as (kv & Hkv & e0 & v' & He0 & Hs & -> & Hv').
      { rewrite Harr. apply list_elem_of_fmap. eauto. }
      assert (e = e0) as <-.
      { eapply chain_functional; eauto. unfold slot_of in Hs. by injection Hs. }
      exists v'. rewrite Hkeys in Hkv by done. done.
    + intros k0 x Hin.
      destruct (Forall2_elem_r _ _ _ _ Hall Hin) as (slot & Hslot & e & v' & He & -> & Heq & Hv').
      injection Heq as -> ->. exists e.2. split; [|done].
      rewrite Hkeys by done. rewrite <- Hpairs. apply list_elem_of_fmap. exists e. done.
  - intros x Hin. destruct (Hlk' _ Hin) as [Hin'|(e & He & Hx)].
    + apply elem_of_union in Hin' as [Hin'|Hin']; [|by left].
      apply elem_of_singleton in Hin'. right; by left.
    + destruct (HinE _ He _ Hx). right; right. split; lia.
Qed.


Lemma object_to_vim_ok v : object_to_vim_spec v.
Proof.
  induction v as [|b|i|f|s|items IH|items IH] using Object_nested_ind;
    [| | | | | by apply object_to_vim_array_ok | by apply object_to_vim_dictionary_ok];
    intros Hconv tv m err b0 tv0 Hv Hb0 Hc0; cbn [object_to_vim].
  - apply (object_to_vim_scalar_spec (number_tv 0) ObjNil _ _ _ b0 tv0); try done.
  - apply (object_to_vim_scalar_spec (number_tv (if b then 1 else 0)) (ObjBool b)
             _ _ _ b0 tv0); try done.
  - apply (object_to_vim_scalar_spec (number_tv (varnumber_of_Integer i)) (ObjInt i)
             _ _ _ b0 tv0); try done.
    intros Hex M root tvr lk fuel Hl Hvv. simpl in Hex, Hvv.
    rewrite (vim_to_object_rec_scalar _ _ _ _ _ Hl)
      by (unfold is_container, v_type; by rewrite Hvv).
    rewrite Hvv. apply Z.eqb_eq in Hex. rewrite Hex. eexists; split; [done | constructor].
  - apply (object_to_vim_scalar_spec {| v_lock := 0; vval := V_FLOAT f |} (ObjFloat f)
             _ _ _ b0 tv0); try done.
    intros Hex M root tvr lk fuel Hl Hvv. simpl in Hex, Hvv.
    rewrite (vim_to_object_rec_scalar _ _ _ _ _ Hl)
      by (unfold is_container, v_type; by rewrite Hvv).
    rewrite Hvv. eexists; split; [done | constructor].
  - apply (object_to_vim_scalar_spec {| v_lock := 0; vval := V_STRING (Some (cstr s)) |}
             (ObjString s) _ _ _ b0 tv0); try done.
    intros Hex M root tvr lk fuel Hl Hvv. simpl in Hex, Hvv.
    rewrite (vim_to_object_rec_scalar _ _ _ _ _ Hl)
      by (unfold is_container, v_type; by rewrite Hvv).
    rewrite Hvv. apply bool_decide_eq_true in Hex. rewrite cstr_idemp, Hex.
    eexists; split; [done | constructor].
Qed.


(** ** A call that ends gives the same result with more fuel *)

Lemma convert_list_items_fuel rec1 rec2 items : forall lookup,
  (forall a lk, rec1 a lk <> OutOfFuel -> rec2 a lk = rec1 a lk) ->
  convert_list_items rec1 items lookup <> OutOfFuel ->
  convert_list_items rec2 items lookup = convert_list_items rec1 items lookup.
Proof.
  induction items as [|item rest IH]; intros lookup Hrec H; simpl in *; [done|].
  destruct (rec1 item lookup) as [[o lk1]| |] eqn:E1; simpl in *; [| |done].
  - rewrite Hrec, E1 by (by rewrite E1). simpl.
    destruct (convert_list_items rec1 rest lk1) as [[os lk2]| |] eqn:E2; simpl in *; [| |done].
    + rewrite IH, E2; [done|done|by rewrite E2].
    + rewrite IH, E2; [done|done|by rewrite E2].
  - rewrite Hrec, E1 by (by rewrite E1). done.
Qed.

Lemma convert_dict_items_fuel rec1 rec2 arr : forall todo lookup,
  (forall a lk, rec1 a lk <> OutOfFuel -> rec2 a lk = rec1 a lk) ->
  convert_dict_items rec1 todo arr lookup <> OutOfFuel ->
  convert_dict_items rec2 todo arr lookup = convert_dict_items rec1 todo arr lookup.
Proof.
  induction arr as [|hi arr IH]; intros todo lookup Hrec H.
  - destruct todo; done.
  - destruct todo as [|todo]; simpl in *; [done|].
    destruct hi as [| |key di]; try by apply IH.
    destruct (rec1 di lookup) as [[o lk1]| |] eqn:E1; simpl in *; [| |done].
    + rewrite Hrec, E1 by (by rewrite E1). simpl.
      destruct (convert_dict_items rec1 todo arr lk1) as [[os lk2]| |] eqn:E2;
        simpl in *; [| |done].
      * rewrite IH, E2; [done|done|by rewrite E2].
      * rewrite IH, E2; [done|done|by rewrite E2].
    + rewrite Hrec, E1 by (by rewrite E1). done.
Qed.

Lemma vim_to_object_rec_fuel fuel m : forall obj lookup fuel',
  vim_to_object_rec fuel m obj lookup <> OutOfFuel -> (fuel <= fuel')%nat ->
  vim_to_object_rec fuel' m obj lookup = vim_to_object_rec fuel m obj lookup.
Proof.
  induction fuel as [|fuel IH]; intros obj lookup fuel' H Hle; [done|].
  destruct fuel' as [|fuel']; [lia|].
  cbn [vim_to_object_rec] in *.
  destruct (load_tv m obj) as [tv| |]; cbn [bind] in *; [|done|done].
  destruct (is_container tv && bool_decide (obj ∈ lookup)); [done|].
  assert (Hrec : forall a lk, vim_to_object_rec fuel m a lk <> OutOfFuel ->
                   vim_to_object_rec fuel' m a lk = vim_to_object_rec fuel m a lk).
  { intros a lk Hr. apply IH; [done|lia]. }
  destruct (vval tv) as [|n|[s|]|fn|[l|]|[d|]|f]; try done.
  - destruct (load_list m l) as [lv| |]; cbn [bind] in *; [|done|done].
    rewrite (convert_list_items_fuel _ _ _ _ Hrec); [done|].
    intros Ho. rewrite Ho in H. done.
  - destruct (load_dict m d) as [dv| |]; cbn [bind] in *; [|done|done].
    destruct (count_items _ _) as [n| |]; cbn [bind] in *; [|done|done].
    rewrite (convert_dict_items_fuel _ _ _ _ _ Hrec); [done|].
    intros Ho. rewrite Ho in H. done.
Qed.

(** What the range built by [object_to_vim] reads back as is what
    [vim_to_object] returns. *)
Lemma reads_back_vim_to_object m' lo hi tvv v tv :
  reads_back m' lo hi (vval tvv) v ->
  load_tv m' tv = Done tvv -> ~ in_range lo hi tv ->
  exists v', vim_to_object m' tv = Done v' /\ obj_equiv v' v.
Proof.
  intros Hrb Hl Hout.
  destruct (Hrb m' tv tvv ∅) as (k & v' & lk' & Hrun & Heq & _); try done.
  exists v'. split; [|done]. unfold vim_to_object.
  set (F := S (size (blocks m'))).
  assert (vim_to_object_rec F m' tv ∅ <> OutOfFuel) as Hends.
  { apply vim_to_object_rec_ends.
    assert (dom (blocks m') ∖ ∅ ⊆ dom (blocks m')) as H by set_solver.
    apply subseteq_size in H. rewrite size_dom in H. unfold F. lia. }
  rewrite <- (vim_to_object_rec_fuel F m' tv ∅ (F `max` k) Hends) by lia.
  rewrite Hrun by lia. done.
Qed.

Lemma block_with_tv_block_tv b tv b' :
  block_with_tv b tv = Some b' -> block_tv b' = Some tv.
Proof. destruct b; simpl; intros [= <-]; done. Qed.


Lemma vim_to_object_of_rec k m obj v lk :
  vim_to_object_rec k m obj ∅ = Done (v, lk) -> vim_to_object m obj = Done v.
Proof.
  intros Hrun. unfold vim_to_object.
  set (F := S (size (blocks m))).
  assert (vim_to_object_rec F m obj ∅ <> OutOfFuel) as Hends.
  { apply vim_to_object_rec_ends.
    assert (dom (blocks m) ∖ ∅ ⊆ dom (blocks m)) as H by set_solver.
    apply subseteq_size in H. rewrite size_dom in H. unfold F. lia. }
  rewrite <- (vim_to_object_rec_fuel F m obj ∅ (F `max` k) Hends) by lia.
  rewrite (vim_to_object_rec_mono _ _ _ _ _ (F `max` k)%nat m Hrun); [done|lia|done].
Qed.

Lemma is_cell_b_lookup m a :
  is_cell_b m a = true ->
  exists b tv, blocks m !! a = Some b /\ block_tv b = Some tv.
Proof.
  unfold is_cell_b. destruct (blocks m !! a) as [[]|]; try discriminate; eauto.
Qed.

(** ** The claims about the two converters *)

(** C1, as the code has it: a Value without Nil and without Bool, whose
    integers fit a Number, whose strings and keys have no NUL byte, and whose
    dictionaries have non-empty, pairwise different keys
    ([exact_roundtrip]), converts to a host value that converts back to a
    structurally equal Value: scalars the same, arrays in the same order,
    dictionaries with the same keys under equal values whatever the order of
    the hashtable. *)
Theorem object_to_vim_roundtrip (v : Object) (tv : addr) (m : mem) (err : Error) :
  exact_roundtrip v = true ->
  mem_valid m ->
  is_cell_b m tv = true ->
  exists m' v',
    object_to_vim v tv m err = Done (true, m', err) /\
    vim_to_object m' tv = Done v' /\
    obj_equiv v' v.
Proof.
  intros Hex Hv Hcell.
  destruct (is_cell_b_lookup _ _ Hcell) as (b0 & tv0 & Hb0 & Hc0).
  destruct (object_to_vim_ok v (exact_roundtrip_convertible _ Hex) tv m err b0 tv0 Hv Hb0 Hc0)
    as (m' & tvv & b' & Hrun & Hn & Hv' & Hfr & Hb' & Htv & Hlock & Hbuilt & Hrb).
  destruct (reads_back_vim_to_object m' (next m) (next m') tvv v tv (Hrb Hex))
    as (v' & Hback & Heq).
  { apply (load_tv_lookup _ _ b'); [done|]. by eapply block_with_tv_block_tv. }
  { intros [? _]. pose proof (Hv _ _ Hb0). lia. }
  exists m', v'. done.
Qed.

Lemma convert_list_items_length rec items : forall lookup os lookup',
  convert_list_items rec items lookup = Done (os, lookup') ->
  length os = length items.
Proof.
  induction items as [|item rest IH]; intros lookup os lookup' H; simpl in H.
  - by injection H as <- _.
  - inv_bind H. destruct a as [o lk1]. inv_bind H. destruct a as [os1 lk2].
    injection H as <- _. simpl. f_equal. by eapply IH.
Qed.

Lemma convert_list_items_scalars m items :
  Forall (fun it => exists tv, load_tv m it = Done tv /\ is_container tv = false) items ->
  exists os, length os = length items /\
    forall fuel lk, convert_list_items (vim_to_object_rec (S fuel) m) items lk = Done (os, lk).
Proof.
  induction 1 as [|it rest (tv & Htv & Hc) _ (os & Hlen & IH)].
  - exists []. split; [done|]. done.
  - eexists (_ :: os). split; [simpl; by rewrite Hlen|]. intros fuel lk.
    cbn [convert_list_items]. rewrite (vim_to_object_rec_scalar _ _ _ _ _ Htv Hc).
    cbn [bind]. rewrite IH. reflexivity.
Qed.

Lemma vim_to_object_rec_list fuel m obj lck l lv lk :
  load_tv m obj = Done {| v_lock := lck; vval := V_LIST (Some l) |} ->
  load_list m l = Done lv ->
  obj ∉ lk ->
  vim_to_object_rec (S fuel) m obj lk
  = (r <- convert_list_items (vim_to_object_rec fuel m) (lv_items lv) ({[obj]} ∪ lk) ;;
     let '(items, lookup) := r in Done (ObjArray items, lookup)).
Proof.
  intros Htv Hl Hnot. cbn [vim_to_object_rec]. rewrite Htv. cbn [bind].
  unfold is_container; simpl. rewrite bool_decide_eq_false_2 by done.
  by rewrite Hl.
Qed.





(** ** object_to_vim, failing or not, leaves the memory it found alone *)

Lemma kept_update n m0 m a b b' :
  kept n m0 m -> (n <= a)%positive -> blocks m !! a = Some b ->
  (forall p, p ∈ block_ptrs b' -> (n <= p)%positive) ->
  kept n m0 {| blocks := <[a := b']> (blocks m); next := next m |}.
Proof.
  intros (Hcl & Hfr & Hv & Hn & Hn0) Ha Hb Hp. split; [|split; [|split]]; simpl.
  - intros x bx p Hx. rewrite lookup_insert. case_decide.
    + intros [= <-]. apply Hp.
    + by apply Hcl.
  - intros x Hx. rewrite lookup_insert_ne by lia. by apply Hfr.
  - pose proof (Hv _ _ Hb). unfold mem_valid; simpl.
    apply (valid_blocks_insert _ (next m)); [done|lia|done].
  - done.
Qed.

Lemma kept_alloc n m0 m b :
  kept n m0 m -> (forall p, p ∈ block_ptrs b -> (n <= p)%positive) ->
  kept n m0 (alloc b m).2 /\ (n <= (alloc b m).1)%positive.
Proof.
  intros (Hcl & Hfr & Hv & Hn & Hn0) Hp. unfold alloc; simpl. split; [|done].
  split; [|split; [|split]]; simpl.
  - intros x bx p Hx. rewrite lookup_insert. case_decide.
    + intros [= <-]. apply Hp.
    + by apply Hcl.
  - intros x Hx. rewrite lookup_insert_ne by lia. by apply Hfr.
  - unfold mem_valid; simpl. apply (valid_blocks_insert _ (next m)); [done|lia|lia].
  - lia.
Qed.

Lemma kept_free n m0 m a m' :
  kept n m0 m -> (n <= a)%positive -> free a m = Done m' -> kept n m0 m'.
Proof.
  intros (Hcl & Hfr & Hv & Hn & Hn0) Ha. unfold free.
  destruct (blocks m !! a); [|done]. intros [= <-].
  split; [|split; [|split]]; simpl.
  - intros x bx p Hx. rewrite lookup_delete. case_decide; [done|]. by apply Hcl.
  - intros x Hx. rewrite lookup_delete_ne by lia. by apply Hfr.
  - intros x bx. simpl. rewrite lookup_delete. case_decide; [done|]. apply Hv.
  - done.
Qed.

Lemma kept_store_tv n m0 m a tv m' :
  kept n m0 m -> (n <= a)%positive ->
  (forall p, p ∈ vval_ptrs (vval tv) -> (n <= p)%positive) ->
  store_tv a tv m = Done m' -> kept n m0 m'.
Proof.
  intros Hk Ha Hp. rewrite store_tv_eq.
  destruct (blocks m !! a) as [b|] eqn:Hb; simpl; [|done].
  destruct (block_with_tv b tv) as [b'|] eqn:Hb'; [|done]. intros [= <-].
  apply (kept_update _ _ _ _ b); try done.
  destruct b; simpl in Hb'; try done; injection Hb' as <-; done.
Qed.

Lemma kept_store_list n m0 m l lv m' :
  kept n m0 m -> (n <= l)%positive ->
  (forall p, p ∈ lv_items lv -> (n <= p)%positive) ->
  store_list l lv m = Done m' -> kept n m0 m'.
Proof.
  intros Hk Hl Hp. unfold store_list.
  destruct (blocks m !! l) as [[]|] eqn:Hb; try done. intros [= <-].
  by eapply kept_update.
Qed.

Lemma kept_store_dict n m0 m d dv m' :
  kept n m0 m -> (n <= d)%positive ->
  (forall p, p ∈ live_items (ht_array (dv_hashtab dv)) -> (n <= p)%positive) ->
  store_dict d dv m = Done m' -> kept n m0 m'.
Proof.
  intros Hk Hd Hp. unfold store_dict.
  destruct (blocks m !! d) as [[]|] eqn:Hb; try done. intros [= <-].
  by eapply kept_update.
Qed.

Lemma kept_load_tv n m0 m a tv p :
  kept n m0 m -> (n <= a)%positive -> load_tv m a = Done tv ->
  p ∈ vval_ptrs (vval tv) -> (n <= p)%positive.
Proof.
  intros (Hcl & _) Ha. unfold load_tv.
  destruct (blocks m !! a) as [b|] eqn:Hb; [|done].
  intros Hl Hp. apply (Hcl a b p Ha Hb).
  destruct b; try done; injection Hl as ->; done.
Qed.

Lemma kept_load_list n m0 m l lv p :
  kept n m0 m -> (n <= l)%positive -> load_list m l = Done lv ->
  p ∈ lv_items lv -> (n <= p)%positive.
Proof.
  intros (Hcl & _) Hl. unfold load_list.
  destruct (blocks m !! l) as [[]|] eqn:Hb; try done.
  intros [= ->] Hp. by apply (Hcl l _ p Hl Hb).
Qed.

Lemma kept_load_dict n m0 m d dv p :
  kept n m0 m -> (n <= d)%positive -> load_dict m d = Done dv ->
  p ∈ live_items (ht_array (dv_hashtab dv)) -> (n <= p)%positive.
Proof.
  intros (Hcl & _) Hd. unfold load_dict.
  destruct (blocks m !! d) as [[]|] eqn:Hb; try done.
  intros [= ->] Hp. by apply (Hcl d _ p Hd Hb).
Qed.


Section clear_kept.

Variables (n : addr) (m0 : mem) (clear : addr -> mem -> res mem).
Hypothesis clear_kept : forall a m m',
  kept n m0 m -> (n <= a)%positive -> clear a m = Done m' -> kept n m0 m'.

Lemma free_items_kept recurse items : forall m m',
  kept n m0 m -> (forall p, p ∈ items -> (n <= p)%positive) ->
  free_items clear recurse items m = Done m' -> kept n m0 m'.
Proof.
  induction items as [|item rest IH]; intros m m' Hk Hp H; simpl in H.
  - by injection H as <-.
  - inv_bind H. rename a into tv. inv_bind H. rename a into m1. inv_bind H.
    rename a into m2.
    assert (n <= item)%positive as Hitem by (apply Hp; by left).
    assert (kept n m0 m1) as Hk1.
    { destruct (recurse || negb (is_container tv)).
      - by eapply clear_kept.
      - by injection Ha0 as <-. }
    apply (IH m2 m'); [|intros; apply Hp; by right|done].
    by eapply kept_free.
Qed.

Lemma list_free_with_kept l recurse m m' :
  kept n m0 m -> (n <= l)%positive ->
  list_free_with clear l recurse m = Done m' -> kept n m0 m'.
Proof.
  intros Hk Hl H. unfold list_free_with in H.
  inv_bind H. rename a into lv. inv_bind H. rename a into m1.
  eapply kept_free; [|done|done].
  eapply free_items_kept; [done| |done].
  intros p Hp. by eapply kept_load_list.
Qed.

Lemma dict_free_with_kept d recurse m m' :
  kept n m0 m -> (n <= d)%positive ->
  dict_free_with clear d recurse m = Done m' -> kept n m0 m'.
Proof.
  intros Hk Hd H. unfold dict_free_with in H.
  inv_bind H. rename a into dv. inv_bind H. rename a into m1.
  eapply kept_free; [|done|done].
  eapply free_items_kept; [done| |done].
  intros p Hp. by eapply kept_load_dict.
Qed.

Lemma list_unref_with_kept l m m' :
  kept n m0 m -> (n <= l)%positive ->
  list_unref_with clear l m = Done m' -> kept n m0 m'.
Proof.
  intros Hk Hl H. unfold list_unref_with in H.
  inv_bind H. rename a into lv. inv_bind H. rename a into m1.
  assert (kept n m0 m1) as Hk1.
  { eapply kept_store_list; [done|done| |done]. simpl.
    intros p Hp. by eapply kept_load_list. }
  destruct (_ <=? 0); [by eapply list_free_with_kept | by injection H as <-].
Qed.

Lemma dict_unref_with_kept d m m' :
  kept n m0 m -> (n <= d)%positive ->
  dict_unref_with clear d m = Done m' -> kept n m0 m'.
Proof.
  intros Hk Hd H. unfold dict_unref_with in H.
  inv_bind H. rename a into dv. inv_bind H. rename a into m1.
  assert (kept n m0 m1) as Hk1.
  { eapply kept_store_dict; [done|done| |done]. simpl.
    intros p Hp. by eapply kept_load_dict. }
  destruct (_ <=? 0); [by eapply dict_free_with_kept | by injection H as <-].
Qed.

End clear_kept.

Lemma clear_tv_fuel_kept n m0 fuel : forall a m m',
  kept n m0 m -> (n <= a)%positive -> clear_tv_fuel fuel a m = Done m' ->
  kept n m0 m'.
Proof.
  induction fuel as [|fuel IH]; intros a m m' Hk Ha H; [done|].
  cbn [clear_tv_fuel] in H. inv_bind H. rename a0 into tv.
  assert (Hnil : forall p : addr, p ∈ @nil addr -> (n <= p)%positive).
  { intros p Hp. by apply elem_of_nil in Hp. }
  destruct (vval tv) as [|i|s|fn|[l|]|[d|]|f] eqn:Hvv;
    try (eapply kept_store_tv; [done|done| |done]; simpl; apply Hnil).
  - inv_bind H. rename a0 into m1.
    eapply kept_store_tv; [|done| |done]; [|simpl; apply Hnil].
    eapply list_unref_with_kept; [apply IH|done| |done].
    eapply kept_load_tv; [done|done|done|]. rewrite Hvv. by left.
  - inv_bind H. rename a0 into m1.
    eapply kept_store_tv; [|done| |done]; [|simpl; apply Hnil].
    eapply dict_unref_with_kept; [apply IH|done| |done].
    eapply kept_load_tv; [done|done|done|]. rewrite Hvv. by left.
Qed.


Lemma hash_add_live ht key di ok ht' p :
  hash_add ht key di = (ok, ht') -> p ∈ live_items (ht_array ht') ->
  p = di \/ p ∈ live_items (ht_array ht).
Proof.
  unfold hash_add. cbv zeta.
  generalize (hash_hash key mod S (length (ht_array ht)))%nat. intros q.
  destruct (HASHITEM_EMPTY _); intros [= <- <-]; [|by right].
  cbn [ht_array]. unfold live_items.
  intros Hp. apply list_elem_of_omap in Hp as (x & Hx & Hf).
  assert (take q (ht_array ht) ++ HI_KEY key di :: drop q (ht_array ht)
          ≡ₚ HI_KEY key di :: ht_array ht) as Hperm.
  { rewrite <- Permutation_middle. by rewrite take_drop. }
  rewrite Hperm in Hx. apply elem_of_cons in Hx as [->|Hx].
  - left. by injection Hf.
  - right. apply list_elem_of_omap. eauto.
Qed.

Section object_to_vim_kept.

Variables (n : addr) (m0 : mem).

Lemma clear_tv_kept a m m' :
  kept n m0 m -> (n <= a)%positive -> clear_tv a m = Done m' -> kept n m0 m'.
Proof. unfold clear_tv. apply clear_tv_fuel_kept. Qed.

Lemma array_to_vim_kept items :
  Forall (keeps n m0) items ->
  forall l m err ok m' err',
    kept n m0 m -> (n <= l)%positive ->
    array_to_vim object_to_vim l items m err = Done (ok, m', err') ->
    kept n m0 m'.
Proof.
  induction 1 as [|item rest Hitem _ IH]; intros l m err ok m' err' Hk Hl H;
    cbn [array_to_vim] in H.
  - by injection H as _ <- _.
  - unfold listitem_alloc in H.
    destruct (kept_alloc n m0 m (B_listitem uninit_tv) Hk) as [Hk1 Hli].
    { intros p Hp. by apply elem_of_nil in Hp. }
    destruct (alloc (B_listitem uninit_tv) m) as [li m1]. simpl in Hk1, Hli.
    inv_bind H. destruct a as [[ok1 m2] err2].
    pose proof (Hitem _ _ _ _ _ _ Hk1 Hli Ha) as Hk2.
    destruct ok1.
    + inv_bind H. rename a into m3. apply (IH l m3 err2 ok m' err'); [|done|done].
      unfold list_append in Ha0. inv_bind Ha0. rename a into lv.
      eapply kept_store_list; [| | |exact Ha0]; [done|done|]. simpl.
      intros p Hp. apply elem_of_app in Hp as [Hp|Hp].
      * exact (kept_load_list n m0 m2 l lv p Hk2 Hl Ha1 Hp).
      * apply list_elem_of_singleton in Hp. by subst.
    + inv_bind H. rename a into m3. inv_bind H. rename a into m4.
      injection H as _ <- _.
      unfold listitem_free in Ha0. inv_bind Ha0. rename a into m2'.
      eapply list_free_with_kept; [apply clear_tv_fuel_kept | | |exact Ha1]; [|done].
      eapply kept_free; [| |exact Ha0]; [|done]. by eapply clear_tv_kept.
Qed.

Lemma dictionary_to_vim_kept items :
  Forall (fun kv => keeps n m0 kv.2) items ->
  forall d m err ok m' err',
    kept n m0 m -> (n <= d)%positive ->
    dictionary_to_vim object_to_vim d items m err = Done (ok, m', err') ->
    kept n m0 m'.
Proof.
  induction 1 as [|[key value] rest Hitem _ IH]; intros d m err ok m' err' Hk Hd H;
    cbn [dictionary_to_vim] in H.
  - by injection H as _ <- _.
  - destruct (String.length key =? 0)%nat.
    { inv_bind H. injection H as _ <- _.
      eapply dict_free_with_kept; [apply clear_tv_fuel_kept| | |exact Ha]; done. }
    unfold dictitem_alloc in H.
    destruct (kept_alloc n m0 m (B_dictitem (cstr key) uninit_tv) Hk) as [Hk1 Hdi].
    { intros p Hp. by apply elem_of_nil in Hp. }
    destruct (alloc (B_dictitem (cstr key) uninit_tv) m) as [di m1]. simpl in Hk1, Hdi.
    inv_bind H. destruct a as [[ok1 m2] err2]. simpl in Hitem.
    pose proof (Hitem _ _ _ _ _ _ Hk1 Hdi Ha) as Hk2.
    destruct ok1.
    + inv_bind H. destruct a as [ok3 m3]. simpl in H.
      apply (IH d m3 err2 ok m' err'); [|done|done].
      unfold dict_add in Ha0. inv_bind Ha0. rename a into dv.
      inv_bind Ha0. rename a into k.
      destruct (hash_add (dv_hashtab dv) k di) as [ok4 ht1] eqn:Hadd.
      inv_bind Ha0. injection Ha0 as _ <-.
      eapply kept_store_dict; [| | |exact Ha3]; [done|done|]. simpl.
      intros p Hp. destruct (hash_add_live _ _ _ _ _ _ Hadd Hp) as [->|Hp']; [done|].
      exact (kept_load_dict n m0 m2 d dv p Hk2 Hd Ha1 Hp').
    + inv_bind H. rename a into m3. inv_bind H. rename a into m4.
      injection H as _ <- _.
      unfold dictitem_free in Ha0. inv_bind Ha0. rename a into m2'.
      eapply dict_free_with_kept; [apply clear_tv_fuel_kept | | |exact Ha1]; [|done].
      eapply kept_free; [| |exact Ha0]; [|done]. by eapply clear_tv_kept.
Qed.

Lemma object_to_vim_kept obj : keeps n m0 obj.
Proof.
  assert (Hnil : forall p : addr, p ∈ @nil addr -> (n <= p)%positive).
  { intros p Hp. by apply elem_of_nil in Hp. }
  induction obj as [|b|i|f|s|items IH|items IH] using Object_nested_ind;
    intros tv m err ok m' err' Hk Htv H; cbn [object_to_vim] in H;
    inv_bind H; rename a into m1;
    (assert (kept n m0 m1) as Hk1
       by (eapply kept_store_tv; [done|done| |done]; simpl; apply Hnil)).
  1-5: inv_bind H; injection H as _ <- _;
       (eapply kept_store_tv; [done|done| |done]; simpl; apply Hnil).
  - unfold list_alloc in H.
    destruct (kept_alloc n m0 m1 (B_list {| lv_items := []; lv_refcount := 0; lv_lock := 0 |}) Hk1)
      as [Hk2 Hl]; [done|].
    destruct (alloc _ m1) as [l m2]. simpl in Hk2, Hl.
    inv_bind H. rename a into m3. inv_bind H. destruct a as [[ok1 m4] err4].
    assert (kept n m0 m4) as Hk4.
    { eapply array_to_vim_kept; [done| | |exact Ha1]; [|done].
      eapply kept_store_tv; [| | |exact Ha0]; [done|done|]. simpl.
      intros p Hp. apply list_elem_of_singleton in Hp. by subst. }
    destruct ok1; [|by injection H as _ <- _].
    inv_bind H. injection H as _ <- _.
    unfold list_ref in Ha2. inv_bind Ha2. rename a0 into lv.
    eapply kept_store_list; [| | |exact Ha2]; [done|done|]. simpl.
    intros p Hp. exact (kept_load_list n m0 m4 l lv p Hk4 Hl Ha3 Hp).
  - unfold dict_alloc in H.
    destruct (kept_alloc n m0 m1
                (B_dict {| dv_lock := 0; dv_refcount := 0;
                           dv_hashtab := {| ht_used := O; ht_array := [] |} |}) Hk1)
      as [Hk2 Hd]; [done|].
    destruct (alloc _ m1) as [d m2]. simpl in Hk2, Hd.
    inv_bind H. rename a into m3. inv_bind H. destruct a as [[ok1 m4] err4].
    assert (kept n m0 m4) as Hk4.
    { eapply dictionary_to_vim_kept; [done| | |exact Ha1]; [|done].
      eapply kept_store_tv; [| | |exact Ha0]; [done|done|]. simpl.
      intros p Hp. apply list_elem_of_singleton in Hp. by subst. }
    destruct ok1; [|by injection H as _ <- _].
    inv_bind H. injection H as _ <- _.
    unfold dict_ref in Ha2. inv_bind Ha2. rename a0 into dv.
    eapply kept_store_dict; [| | |exact Ha2]; [done|done|]. simpl.
    intros p Hp. exact (kept_load_dict n m0 m4 d dv p Hk4 Hd Ha3 Hp).
Qed.

End object_to_vim_kept.


Lemma store_tv_inv a tv m m' :
  store_tv a tv m = Done m' ->
  exists b b', blocks m !! a = Some b /\ block_with_tv b tv = Some b' /\
    m' = {| blocks := <[a := b']> (blocks m); next := next m |}.
Proof.
  rewrite store_tv_eq. destruct (blocks m !! a) as [b|]; simpl; [|done].
  destruct (block_with_tv b tv) as [b'|] eqn:E; [|done]. intros [= <-]. eauto.
Qed.

Lemma store_list_inv l lv m m' :
  store_list l lv m = Done m' ->
  m' = {| blocks := <[l := B_list lv]> (blocks m); next := next m |}.
Proof. unfold store_list. destruct (blocks m !! l) as [[]|]; try done. by intros [= <-]. Qed.

Lemma store_dict_inv d dv m m' :
  store_dict d dv m = Done m' ->
  m' = {| blocks := <[d := B_dict dv]> (blocks m); next := next m |}.
Proof. unfold store_dict. destruct (blocks m !! d) as [[]|]; try done. by intros [= <-]. Qed.

Lemma block_with_tv_again b tv b' tv' :
  block_with_tv b tv = Some b' -> block_with_tv b' tv' = block_with_tv b tv'.
Proof. destruct b; simpl; intros [= <-]; done. Qed.

(** A memory that holds one new block at [l = next m] and nothing above is
    kept by itself from [l] on. *)
Lemma kept_fresh m l b :
  mem_valid m -> l = next m -> block_ptrs b = [] ->
  kept l {| blocks := <[l := b]> (blocks m); next := Pos.succ l |}
         {| blocks := <[l := b]> (blocks m); next := Pos.succ l |}.
Proof.
  intros Hv -> Hb. split; [|split; [|split]]; simpl.
  - intros a ba p Ha. rewrite lookup_insert. case_decide.
    + intros [= <-]. rewrite Hb. intros Hp. by apply elem_of_nil in Hp.
    + intros Hl. specialize (Hv _ _ Hl). lia.
  - done.
  - unfold mem_valid; simpl. apply (valid_blocks_insert _ (next m)); [done|lia|lia].
  - lia.
Qed.

(** Whatever it returns, [object_to_vim] changes below the next address only
    the typval_T it was given, and leaves it in place. *)
Lemma object_to_vim_frame obj tv m err ok m' err' :
  mem_valid m ->
  object_to_vim obj tv m err = Done (ok, m', err') ->
  (forall x, (x < next m)%positive -> x <> tv -> blocks m' !! x = blocks m !! x) /\
  is_cell_b m' tv = true /\ (next m <= next m')%positive /\ mem_valid m'.
Proof.
  intros Hv H.
  assert (Hstores : forall tv1 tv2 m1 m2,
            store_tv tv tv1 m = Done m1 -> store_tv tv tv2 m1 = Done m2 ->
            (forall x, (x < next m)%positive -> x <> tv -> blocks m2 !! x = blocks m !! x) /\
            is_cell_b m2 tv = true /\ (next m <= next m2)%positive /\ mem_valid m2).
  { intros tv1 tv2 m1 m2 H1 H2.
    apply store_tv_inv in H1 as (b & b1 & Hb & Hb1 & ->).
    apply store_tv_inv in H2 as (b1' & b2 & Hb1' & Hb2 & ->). simpl in *.
    rewrite lookup_insert_eq in Hb1'. injection Hb1' as <-.
    pose proof (Hv _ _ Hb).
    split; [intros x _ Hx; by rewrite !lookup_insert_ne|].
    split. { unfold is_cell_b; simpl. rewrite lookup_insert_eq.
             destruct b1; simpl in Hb2; try done; by injection Hb2 as <-. }
    split; [lia|]. unfold mem_valid; simpl.
    apply (valid_blocks_insert _ (next m)); [|lia|done].
    apply (valid_blocks_insert _ (next m)); [done|lia|done]. }
  destruct obj as [|b|i|f|s|items|items]; cbn [object_to_vim] in H;
    inv_bind H; rename a into m1.
  1-5: inv_bind H; injection H as _ <- _; by eapply Hstores.
  - unfold list_alloc, alloc in H. cbn [fst snd] in H.
    apply store_tv_inv in Ha as (b & b1 & Hb & Hb1 & ->). simpl in H.
    pose proof (Hv _ _ Hb) as Hlt.
    inv_bind H. rename a into m3.
    apply store_tv_inv in Ha as (b1' & b2 & Hb1' & Hb2 & ->). simpl in *.
    rewrite lookup_insert_ne in Hb1' by lia. rewrite lookup_insert_eq in Hb1'.
    injection Hb1' as <-.
    set (l := next m) in *.
    set (ml := {| blocks := <[l := B_list {| lv_items := []; lv_refcount := 0; lv_lock := 0 |}]>
                              (<[tv := b2]> (blocks m));
                  next := Pos.succ l |}).
    assert (Hcomm : {| blocks := <[tv := b2]> (<[l := B_list {| lv_items := [];
                         lv_refcount := 0; lv_lock := 0 |}]> (<[tv := b1]> (blocks m)));
                       next := Pos.succ l |} = ml).
    { unfold ml. f_equal. rewrite insert_insert_ne by lia. by rewrite insert_insert_eq. }
    rewrite Hcomm in H. clear Hcomm.
    assert (kept l ml ml) as Hk0.
    { refine (kept_fresh {| blocks := <[tv := b2]> (blocks m); next := l |} l
                (B_list {| lv_items := []; lv_refcount := 0; lv_lock := 0 |})
                _ eq_refl eq_refl).
      unfold mem_valid; simpl. apply (valid_blocks_insert _ l); [done|lia|done]. }
    inv_bind H. destruct a as [[ok1 m4] err4].
    assert (kept l ml m4) as Hk4.
    { eapply array_to_vim_kept; [| | |exact Ha]; [|done|lia].
      rewrite Forall_forall. intros. apply object_to_vim_kept. }
    assert (kept l ml m') as (Hcl & Hfr & Hv' & Hn' & Hn0').
    { destruct ok1; [|by injection H as _ <- _].
      inv_bind H. injection H as _ <- _.
      unfold list_ref in Ha0. inv_bind Ha0. rename a0 into lv.
      eapply kept_store_list; [| | |exact Ha0]; [done|lia|]. simpl.
      intros p Hp. exact (kept_load_list l ml m4 l lv p Hk4 (Pos.le_refl _) Ha1 Hp). }
    simpl in Hn0'.
    split. { intros x Hx Hxtv. rewrite Hfr by done. unfold ml; simpl.
             rewrite !lookup_insert_ne by lia. done. }
    split. { unfold is_cell_b. rewrite Hfr by done. unfold ml; simpl.
             rewrite lookup_insert_ne by lia. rewrite lookup_insert_eq.
             destruct b1; simpl in Hb2; try done; by injection Hb2 as <-. }
    split; [lia | done].
  - unfold dict_alloc, alloc in H. cbn [fst snd] in H.
    apply store_tv_inv in Ha as (b & b1 & Hb & Hb1 & ->). simpl in H.
    pose proof (Hv _ _ Hb) as Hlt.
    inv_bind H. rename a into m3.
    apply store_tv_inv in Ha as (b1' & b2 & Hb1' & Hb2 & ->). simpl in *.
    rewrite lookup_insert_ne in Hb1' by lia. rewrite lookup_insert_eq in Hb1'.
    injection Hb1' as <-.
    set (d := next m) in *.
    set (d0 := B_dict {| dv_lock := 0; dv_refcount := 0;
                         dv_hashtab := {| ht_used := O; ht_array := [] |} |}) in *.
    set (ml := {| blocks := <[d := d0]> (<[tv := b2]> (blocks m)); next := Pos.succ d |}).
    assert (Hcomm : {| blocks := <[tv := b2]> (<[d := d0]> (<[tv := b1]> (blocks m)));
                       next := Pos.succ d |} = ml).
    { unfold ml. f_equal. rewrite insert_insert_ne by lia. by rewrite insert_insert_eq. }
    rewrite Hcomm in H. clear Hcomm.
    assert (kept d ml ml) as Hk0.
    { refine (kept_fresh {| blocks := <[tv := b2]> (blocks m); next := d |} d d0
                _ eq_refl eq_refl).
      unfold mem_valid; simpl. apply (valid_blocks_insert _ d); [done|lia|done]. }
    inv_bind H. destruct a as [[ok1 m4] err4].
    assert (kept d ml m4) as Hk4.
    { eapply dictionary_to_vim_kept; [| | |exact Ha]; [|done|lia].
      rewrite Forall_forall. intros. apply object_to_vim_kept. }
    assert (kept d ml m') as (Hcl & Hfr & Hv' & Hn' & Hn0').
    { destruct ok1; [|by injection H as _ <- _].
      inv_bind H. injection H as _ <- _.
      unfold dict_ref in Ha0. inv_bind Ha0. rename a0 into dv.
      eapply kept_store_dict; [| | |exact Ha0]; [done|lia|]. simpl.
      intros p Hp. exact (kept_load_dict d ml m4 d dv p Hk4 (Pos.le_refl _) Ha1 Hp). }
    simpl in Hn0'.
    split. { intros x Hx Hxtv. rewrite Hfr by done. unfold ml; simpl.
             rewrite !lookup_insert_ne by lia. done. }
    split. { unfold is_cell_b. rewrite Hfr by done. unfold ml; simpl.
             rewrite lookup_insert_ne by lia. rewrite lookup_insert_eq.
             destruct b1; simpl in Hb2; try done; by injection Hb2 as <-. }
    split; [lia | done].
Qed.


(** ** A release that succeeds does the same next to other blocks *)

Lemma load_tv_ext m X n a tv :
  load_tv m a = Done tv -> load_tv (ext m X n) a = Done tv.
Proof.
  unfold load_tv, ext; simpl. destruct (blocks m !! a) as [b|] eqn:E; [|done].
  by rewrite (lookup_union_Some_l _ _ _ _ E).
Qed.

Lemma load_list_ext m X n a lv :
  load_list m a = Done lv -> load_list (ext m X n) a = Done lv.
Proof.
  unfold load_list, ext; simpl. destruct (blocks m !! a) as [b|] eqn:E; [|done].
  by rewrite (lookup_union_Some_l _ _ _ _ E).
Qed.

Lemma load_dict_ext m X n a dv :
  load_dict m a = Done dv -> load_dict (ext m X n) a = Done dv.
Proof.
  unfold load_dict, ext; simpl. destruct (blocks m !! a) as [b|] eqn:E; [|done].
  by rewrite (lookup_union_Some_l _ _ _ _ E).
Qed.

Lemma update_ext m X n a b b' :
  blocks m ##ₘ X -> blocks m !! a = Some b ->
  {| blocks := <[a := b']> (blocks m ∪ X); next := n |}
  = ext {| blocks := <[a := b']> (blocks m); next := next m |} X n /\
  <[a := b']> (blocks m) ##ₘ X.
Proof.
  intros Hd Hb. unfold ext; simpl. rewrite insert_union_l. split; [done|].
  apply map_disjoint_insert_l_2; [|done]. by eapply map_disjoint_Some_l.
Qed.

Lemma store_tv_ext m X n a tv m' :
  blocks m ##ₘ X -> store_tv a tv m = Done m' ->
  store_tv a tv (ext m X n) = Done (ext m' X n) /\ blocks m' ##ₘ X.
Proof.
  intros Hd H. apply store_tv_inv in H as (b & b' & Hb & Hb' & ->).
  rewrite store_tv_eq. unfold ext at 1; simpl.
  rewrite (lookup_union_Some_l _ _ _ _ Hb). simpl. rewrite Hb'.
  destruct (update_ext m X n a b b' Hd Hb) as [-> ?]. done.
Qed.

Lemma store_list_ext m X n l lv m' :
  blocks m ##ₘ X -> store_list l lv m = Done m' ->
  store_list l lv (ext m X n) = Done (ext m' X n) /\ blocks m' ##ₘ X.
Proof.
  intros Hd H. unfold store_list in *.
  destruct (blocks m !! l) as [[]|] eqn:Hb; try done. injection H as <-.
  unfold ext at 1; simpl. rewrite (lookup_union_Some_l _ _ _ _ Hb).
  destruct (update_ext m X n l _ (B_list lv) Hd Hb) as [-> ?]. done.
Qed.

Lemma store_dict_ext m X n d dv m' :
  blocks m ##ₘ X -> store_dict d dv m = Done m' ->
  store_dict d dv (ext m X n) = Done (ext m' X n) /\ blocks m' ##ₘ X.
Proof.
  intros Hd H. unfold store_dict in *.
  destruct (blocks m !! d) as [[]|] eqn:Hb; try done. injection H as <-.
  unfold ext at 1; simpl. rewrite (lookup_union_Some_l _ _ _ _ Hb).
  destruct (update_ext m X n d _ (B_dict dv) Hd Hb) as [-> ?]. done.
Qed.

Lemma free_ext m X n a m' :
  blocks m ##ₘ X -> free a m = Done m' ->
  free a (ext m X n) = Done (ext m' X n) /\ blocks m' ##ₘ X.
Proof.
  intros Hd H. unfold free in *.
  destruct (blocks m !! a) as [b|] eqn:Hb; [|done]. injection H as <-.
  unfold ext; simpl. rewrite (lookup_union_Some_l _ _ _ _ Hb).
  rewrite delete_union. rewrite (delete_id X) by (by eapply map_disjoint_Some_l).
  split; [done|]. by apply map_disjoint_delete_l.
Qed.

Lemma free_items_lifts clear clear' recurse items :
  (forall a, lifts (clear a) (clear' a)) ->
  lifts (free_items clear recurse items) (free_items clear' recurse items).
Proof.
  intros Hclear. induction items as [|item rest IH]; intros m m' X n Hd H; simpl in *.
  - by injection H as <-.
  - inv_bind H. rename a into tv. inv_bind H. rename a into m1.
    inv_bind H. rename a into m2.
    rewrite (load_tv_ext _ X n _ _ Ha). cbn [bind].
    assert ((if recurse || negb (is_container tv) then clear' item (ext m X n)
             else Done (ext m X n)) = Done (ext m1 X n) /\ blocks m1 ##ₘ X) as [-> Hd1].
    { destruct (recurse || negb (is_container tv)).
      - by apply Hclear.
      - by injection Ha0 as <-. }
    cbn [bind]. destruct (free_ext _ X n _ _ Hd1 Ha1) as [-> Hd2]. cbn [bind].
    by apply IH.
Qed.

Lemma list_unref_with_lifts clear clear' l :
  (forall a, lifts (clear a) (clear' a)) ->
  lifts (list_unref_with clear l) (list_unref_with clear' l).
Proof.
  intros Hclear m m' X n Hd H. unfold list_unref_with in *.
  inv_bind H. rename a into lv. inv_bind H. rename a into m1.
  rewrite (load_list_ext _ X n _ _ Ha). cbn [bind].
  destruct (store_list_ext _ X n _ _ _ Hd Ha0) as [-> Hd1]. cbn [bind].
  destruct (_ <=? 0); [|by injection H as <-].
  unfold list_free_with in *. inv_bind H. rename a into lv1.
  inv_bind H. rename a into m2.
  rewrite (load_list_ext _ X n _ _ Ha1). cbn [bind].
  destruct (free_items_lifts clear clear' true (lv_items lv1) Hclear _ _ X n Hd1 Ha2)
    as [-> Hd2].
  cbn [bind]. by apply free_ext.
Qed.

Lemma dict_unref_with_lifts clear clear' d :
  (forall a, lifts (clear a) (clear' a)) ->
  lifts (dict_unref_with clear d) (dict_unref_with clear' d).
Proof.
  intros Hclear m m' X n Hd H. unfold dict_unref_with in *.
  inv_bind H. rename a into dv. inv_bind H. rename a into m1.
  rewrite (load_dict_ext _ X n _ _ Ha). cbn [bind].
  destruct (store_dict_ext _ X n _ _ _ Hd Ha0) as [-> Hd1]. cbn [bind].
  destruct (_ <=? 0); [|by injection H as <-].
  unfold dict_free_with in *. inv_bind H. rename a into dv1.
  inv_bind H. rename a into m2.
  rewrite (load_dict_ext _ X n _ _ Ha1). cbn [bind].
  destruct (free_items_lifts clear clear' true _ Hclear _ _ X n Hd1 Ha2) as [-> Hd2].
  cbn [bind]. by apply free_ext.
Qed.

Lemma clear_tv_fuel_lifts fuel : forall fuel' a,
  (fuel <= fuel')%nat -> lifts (clear_tv_fuel fuel a) (clear_tv_fuel fuel' a).
Proof.
  induction fuel as [|fuel IH]; intros fuel' a Hle m m' X n Hd H; [done|].
  destruct fuel' as [|fuel']; [lia|].
  cbn [clear_tv_fuel] in *. inv_bind H. rename a0 into tv.
  rewrite (load_tv_ext _ X n _ _ Ha0). cbn [bind].
  assert (Hrec : forall a, lifts (clear_tv_fuel fuel a) (clear_tv_fuel fuel' a)).
  { intros a'. apply IH. lia. }
  destruct (vval tv) as [|i|s|fn|[l|]|[d|]|f]; try by apply store_tv_ext.
  - inv_bind H. rename a0 into m1.
    destruct (list_unref_with_lifts _ _ l Hrec _ _ X n Hd Ha1) as [-> Hd1].
    cbn [bind]. by apply store_tv_ext.
  - inv_bind H. rename a0 into m1.
    destruct (dict_unref_with_lifts _ _ d Hrec _ _ X n Hd Ha1) as [-> Hd1].
    cbn [bind]. by apply store_tv_ext.
Qed.


(** ** The end of dict_set_value moves the converted value into the entry *)

Lemma move_tv m tv di tvv bt bdi tdi :
  tv <> di ->
  blocks m !! tv = Some bt -> block_tv bt = Some tvv ->
  blocks m !! di = Some bdi -> block_tv bdi = Some tdi ->
  v_lock tvv = 0 -> movable m tv di (vval tvv) ->
  exists bdi', block_with_tv bdi tvv = Some bdi' /\
    (m4 <- copy_tv tv di m ;; m5 <- clear_tv tv m4 ;; free tv m5)
    = Done {| blocks := delete tv (<[di := bdi']> (blocks m)); next := next m |}.
Proof.
  intros Hne Hbt Htvv Hbdi Htdi Hlock Hmov.
  destruct (block_with_tv_cell bdi tdi tvv Htdi) as (bdi' & Hbdi' & _ & _).
  exists bdi'. split; [done|].
  destruct tvv as [lock vv]. simpl in Hlock, Hmov. subst lock.
  assert (Hcl : forall vv', exists bt', block_with_tv bt {| v_lock := 0; vval := vv' |} = Some bt').
  { intros vv'. destruct (block_with_tv_cell bt _ {| v_lock := 0; vval := vv' |} Htvv)
      as (bt' & ? & _). eauto. }
  assert (Hfin : forall X bt',
            blocks X !! tv = Some bt' ->
            delete tv (blocks X) = delete tv (<[di := bdi']> (blocks m)) ->
            next X = next m ->
            free tv X = Done {| blocks := delete tv (<[di := bdi']> (blocks m));
                                next := next m |}).
  { intros X bt' HX Heq Hn. unfold free. rewrite HX, Heq, Hn. done. }
  unfold copy_tv. rewrite (load_tv_lookup _ _ _ _ Hbt Htvv). cbn [bind vval].
  destruct vv as [|i|[s|]|fn|[l|]|[d|]|f]; try done.
  - (* V_NUMBER *)
    rewrite store_tv_eq, Hbdi. simpl. rewrite Hbdi'. cbn [bind].
    unfold clear_tv, clear_fuel. cbn [clear_tv_fuel].
    rewrite load_tv_eq. simpl. rewrite lookup_insert_ne by done. rewrite Hbt. simpl.
    rewrite Htvv. cbn [bind vval].
    destruct (Hcl (V_NUMBER 0)) as [bt' Hbt'].
    rewrite store_tv_eq. simpl. rewrite lookup_insert_ne by done. rewrite Hbt. simpl.
    rewrite Hbt'. cbn [bind].
    apply (Hfin _ bt'); simpl; [by rewrite lookup_insert_eq | by rewrite delete_insert_eq | done].
  - (* V_STRING *)
    rewrite store_tv_eq, Hbdi. simpl. rewrite Hbdi'. cbn [bind].
    unfold clear_tv, clear_fuel. cbn [clear_tv_fuel].
    rewrite load_tv_eq. simpl. rewrite lookup_insert_ne by done. rewrite Hbt. simpl.
    rewrite Htvv. cbn [bind vval].
    destruct (Hcl (V_STRING None)) as [bt' Hbt'].
    rewrite store_tv_eq. simpl. rewrite lookup_insert_ne by done. rewrite Hbt. simpl.
    rewrite Hbt'. cbn [bind].
    apply (Hfin _ bt'); simpl; [by rewrite lookup_insert_eq | by rewrite delete_insert_eq | done].
  - (* V_LIST *)
    destruct Hmov as (Hl1 & Hl2 & items & Hl).
    rewrite (load_list_lookup _ _ _ Hl). cbn [bind]. simpl.
    rewrite (store_list_lookup _ _ _ _ Hl). cbn [bind].
    rewrite store_tv_eq. simpl. rewrite lookup_insert_ne by done. rewrite Hbdi. simpl.
    rewrite Hbdi'. cbn [bind].
    unfold clear_tv, clear_fuel. cbn [clear_tv_fuel].
    rewrite load_tv_eq. simpl. rewrite !lookup_insert_ne by done. rewrite Hbt. simpl.
    rewrite Htvv. cbn [bind vval].
    unfold list_unref_with. unfold load_list at 1. simpl.
    rewrite lookup_insert_ne by done. rewrite lookup_insert_eq. cbn [bind]. simpl.
    unfold store_list at 1. simpl.
    rewrite lookup_insert_ne by done. rewrite lookup_insert_eq. cbn [bind].
    destruct (Hcl (V_LIST None)) as [bt' Hbt'].
    rewrite store_tv_eq. simpl. rewrite !lookup_insert_ne by done. rewrite Hbt. simpl.
    rewrite Hbt'. cbn [bind].
    apply (Hfin _ bt'); simpl; [by rewrite lookup_insert_eq | | done].
    apply map_eq. intros x. rewrite !lookup_delete, !lookup_insert.
    repeat case_decide; subst; try done.
  - (* V_DICT *)
    destruct Hmov as (Hd1 & Hd2 & ht & Hd).
    rewrite (load_dict_lookup _ _ _ Hd). cbn [bind]. simpl.
    rewrite (store_dict_lookup _ _ _ _ Hd). cbn [bind].
    rewrite store_tv_eq. simpl. rewrite lookup_insert_ne by done. rewrite Hbdi. simpl.
    rewrite Hbdi'. cbn [bind].
    unfold clear_tv, clear_fuel. cbn [clear_tv_fuel].
    rewrite load_tv_eq. simpl. rewrite !lookup_insert_ne by done. rewrite Hbt. simpl.
    rewrite Htvv. cbn [bind vval].
    unfold dict_unref_with. unfold load_dict at 1. simpl.
    rewrite lookup_insert_ne by done. rewrite lookup_insert_eq. cbn [bind]. simpl.
    unfold store_dict at 1. simpl.
    rewrite lookup_insert_ne by done. rewrite lookup_insert_eq. cbn [bind].
    destruct (Hcl (V_DICT None)) as [bt' Hbt'].
    rewrite store_tv_eq. simpl. rewrite !lookup_insert_ne by done. rewrite Hbt. simpl.
    rewrite Hbt'. cbn [bind].
    apply (Hfin _ bt'); simpl; [by rewrite lookup_insert_eq | | done].
    apply map_eq. intros x. rewrite !lookup_delete, !lookup_insert.
    repeat case_decide; subst; try done.
  - (* V_FLOAT *)
    rewrite store_tv_eq, Hbdi. simpl. rewrite Hbdi'. cbn [bind].
    unfold clear_tv, clear_fuel. cbn [clear_tv_fuel].
    rewrite load_tv_eq. simpl. rewrite lookup_insert_ne by done. rewrite Hbt. simpl.
    rewrite Htvv. cbn [bind vval].
    destruct (Hcl (V_FLOAT 0%float)) as [bt' Hbt'].
    rewrite store_tv_eq. simpl. rewrite lookup_insert_ne by done. rewrite Hbt. simpl.
    rewrite Hbt'. cbn [bind].
    apply (Hfin _ bt'); simpl; [by rewrite lookup_insert_eq | by rewrite delete_insert_eq | done].
Qed.


Lemma hash_find_empty_absent arr key :
  HASHITEM_EMPTY (hashitem_at arr (hash_find arr key)) = true ->
  forall di, HI_KEY key di ∉ arr.
Proof.
  induction arr as [|hi arr IH]; intros He di Hin.
  - by apply elem_of_nil in Hin.
  - apply elem_of_cons in Hin as [<-|Hin].
    + simpl in He. by rewrite decide_True in He.
    + destruct hi as [| |k di']; simpl in He; try by eapply IH.
      case_decide; [done|]. by eapply IH.
Qed.

Lemma hash_find_middle l1 l2 key di :
  (forall di', HI_KEY key di' ∉ l1) ->
  hashitem_at (l1 ++ HI_KEY key di :: l2) (hash_find (l1 ++ HI_KEY key di :: l2) key)
  = HI_KEY key di.
Proof.
  induction l1 as [|hi l1 IH]; intros Habs; simpl.
  - by rewrite decide_True.
  - assert (forall di', HI_KEY key di' ∉ l1) as Habs'.
    { intros di' Hin. apply (Habs di'). by right. }
    destruct hi as [| |k di']; try by apply IH.
    case_decide; [|by apply IH]. subst k. exfalso. apply (Habs di'). by left.
Qed.

Lemma dict_find_hash_add dv key di lck rc :
  dict_find dv key = None ->
  exists ht',
    hash_add (dv_hashtab dv) (cstr key) di = (true, ht') /\
    ht_used ht' = S (ht_used (dv_hashtab dv)) /\
    dict_find {| dv_lock := lck; dv_refcount := rc; dv_hashtab := ht' |} key = Some di.
Proof.
  intros Hf. apply dict_find_None in Hf.
  unfold hash_add. cbv zeta. rewrite Hf.
  generalize (hash_hash (cstr key) mod S (length (ht_array (dv_hashtab dv))))%nat.
  intros q. eexists. split; [done|]. split; [done|].
  unfold dict_find. cbn [dv_hashtab ht_array].
  rewrite hash_find_middle; [done|].
  intros di' Hin. apply (hash_find_empty_absent _ _ Hf di').
  rewrite <- (take_drop q (ht_array (dv_hashtab dv))). apply elem_of_app. by left.
Qed.

Lemma clear_tv_fuel_cell fuel a m m' :
  clear_tv_fuel fuel a m = Done m' -> is_cell_b m' a = true.
Proof.
  destruct fuel as [|fuel]; [done|]. cbn [clear_tv_fuel]. intros H.
  inv_bind H. rename a0 into tv.
  assert (forall tv1 m1, store_tv a tv1 m1 = Done m' -> is_cell_b m' a = true) as Hst.
  { intros tv1 m1 Hs. apply store_tv_inv in Hs as (b & b' & Hb & Hb' & ->).
    unfold is_cell_b; simpl. rewrite lookup_insert_eq.
    destruct b; simpl in Hb'; try done; by injection Hb' as <-. }
  destruct (vval tv) as [|i|s|fn|[l|]|[d|]|f]; try by eapply Hst.
  - inv_bind H. by eapply Hst.
  - inv_bind H. by eapply Hst.
Qed.

(** What [object_to_vim] adds to a valid memory lies from [next m] on. *)
Lemma fresh_part m m1 :
  mem_valid m ->
  (forall x, (x < next m)%positive -> blocks m1 !! x = blocks m !! x) ->
  exists X, blocks m1 = blocks m ∪ X /\ blocks m ##ₘ X /\
    (forall x, X !! x = if decide (next m <= x)%positive then blocks m1 !! x else None).
Proof.
  intros Hv Hfr.
  exists (filter (fun ab => (next m <= ab.1)%positive) (blocks m1)).
  assert (HX : forall x, filter (fun ab => (next m <= ab.1)%positive) (blocks m1) !! x
                 = if decide (next m <= x)%positive then blocks m1 !! x else None).
  { intros x. case_decide.
    - destruct (blocks m1 !! x) as [b|] eqn:E.
      + by apply map_lookup_filter_Some.
      + apply map_lookup_filter_None. left. done.
    - apply map_lookup_filter_None. right. intros b _. simpl. done. }
  split; [|split; [|done]].
  - apply map_eq. intros x. rewrite lookup_union, HX. case_decide.
    + assert (blocks m !! x = None) as ->.
      { destruct (blocks m !! x) as [b|] eqn:E; [|done]. specialize (Hv _ _ E). lia. }
      by rewrite (left_id_L None _).
    + rewrite Hfr by lia. by rewrite (right_id_L None _).
  - apply map_disjoint_spec. intros x b b' Hb. rewrite HX.
    specialize (Hv _ _ Hb). case_decide; [lia|done].
Qed.


(** ** The claims about dict_set_value *)

Lemma load_dict_inv m d dv : load_dict m d = Done dv -> blocks m !! d = Some (B_dict dv).
Proof. unfold load_dict. destruct (blocks m !! d) as [[]|]; try done. by intros [= ->]. Qed.

(** Where dict_set_value mutates nothing: on a locked dictionary it sets
    "Dictionary is locked" before anything else and returns Nil with the
    memory as it was; and when the conversion of the value returns false, it
    returns Nil with the error of the conversion as it stands and with every
    block that was there before the call, so the dictionary and its entries,
    unchanged. *)
Theorem dict_set_value_no_mutation (dict : addr) (key : string) (value : Object)
    (m : mem) (err : Error) (dv : dict_T) :
  load_dict m dict = Done dv ->
  (dv_lock dv <> 0 ->
   dict_set_value dict key value m err
   = Done (ObjNil, m, set_api_error "Dictionary is locked" err)) /\
  (mem_valid m -> dv_lock dv = 0 -> String.length key <> O ->
   forall m1 err1,
     object_to_vim value (next m) (alloc (B_typval uninit_tv) m).2 err
     = Done (false, m1, err1) ->
     exists m',
       dict_set_value dict key value m err = Done (ObjNil, m', err1) /\
       (forall x, (x < next m)%positive -> blocks m' !! x = blocks m !! x) /\
       load_dict m' dict = Done dv).
Proof.
  intros Hd. split.
  - intros Hlock. unfold dict_set_value. rewrite Hd. cbn [bind].
    by rewrite (proj2 (Z.eqb_neq _ _) Hlock).
  - intros Hv Hlock Hkey m1 err1 Hrun.
    unfold dict_set_value. rewrite Hd. cbn [bind]. rewrite Hlock. cbn [Z.eqb negb].
    rewrite (proj2 (Nat.eqb_neq _ _) Hkey).
    unfold alloc in *. cbn [fst snd] in *. rewrite Hrun. cbn [bind negb].
    set (m0 := {| blocks := <[next m := B_typval uninit_tv]> (blocks m);
                  next := Pos.succ (next m) |}) in *.
    destruct (object_to_vim_frame value (next m) m0 err false m1 err1) as (Hfr & Hcell & Hn & Hv1).
    { unfold mem_valid, m0; simpl. apply (valid_blocks_insert _ (next m)); [done|lia|lia]. }
    { done. }
    unfold free. unfold is_cell_b in Hcell.
    destruct (blocks m1 !! next m) as [b|] eqn:Hb; [|done]. cbn [bind].
    eexists. split; [done|]. simpl.
    assert (Hsame : forall x, (x < next m)%positive ->
              delete (next m) (blocks m1) !! x = blocks m !! x).
    { intros x Hx. rewrite lookup_delete_ne by lia. rewrite Hfr; [|simpl; lia|lia].
      unfold m0; simpl. rewrite lookup_insert_ne by lia. done. }
    split; [done|].
    apply load_dict_inv in Hd. pose proof (Hv _ _ Hd).
    apply load_dict_lookup. simpl. by rewrite Hsame.
Qed.


Lemma move_tv_steps m tv di tvv bt bdi tdi :
  tv <> di ->
  blocks m !! tv = Some bt -> block_tv bt = Some tvv ->
  blocks m !! di = Some bdi -> block_tv bdi = Some tdi ->
  v_lock tvv = 0 -> movable m tv di (vval tvv) ->
  exists bdi' m4 m5,
    block_with_tv bdi tvv = Some bdi' /\
    copy_tv tv di m = Done m4 /\ clear_tv tv m4 = Done m5 /\
    free tv m5 = Done {| blocks := delete tv (<[di := bdi']> (blocks m)); next := next m |}.
Proof.
  intros Hne Hbt Htvv Hbdi Htdi Hlock Hmov.
  destruct (move_tv m tv di tvv bt bdi tdi Hne Hbt Htvv Hbdi Htdi Hlock Hmov)
    as (bdi' & Hbdi' & H).
  inv_bind H. rename a into m4. inv_bind H. rename a into m5.
  exists bdi', m4, m5. done.
Qed.

Lemma built_movable m0 m1 m3 tv di vv :
  built m0 m1 vv ->
  (tv < next m0)%positive ->
  (forall x b, (next m0 <= x)%positive -> blocks m1 !! x = Some b -> x <> di) ->
  (forall x b, (next m0 <= x)%positive -> blocks m1 !! x = Some b ->
     blocks m3 !! x = Some b) ->
  movable m3 tv di vv.
Proof.
  intros Hb Htv Hdi Hsame. unfold built, movable in *.
  destruct vv as [|i|[s|]|fn|[l|]|[d|]|f]; try done.
  - destruct Hb as (-> & items & Hl).
    split; [lia|]. split; [eapply Hdi; [|done]; lia|].
    exists items. apply Hsame; [lia|done].
  - destruct Hb as (-> & ht & Hd).
    split; [lia|]. split; [eapply Hdi; [|done]; lia|].
    exists ht. apply Hsame; [lia|done].
Qed.


Lemma dict_set_value_new dict key value m err dv m1 tvv b' :
  let tv := next m in
  let m0 := (alloc (B_typval uninit_tv) m).2 in
  mem_valid m -> load_dict m dict = Done dv -> dv_lock dv = 0 ->
  String.length key <> O ->
  object_to_vim value tv m0 err = Done (true, m1, err) ->
  (next m0 <= next m1)%positive -> mem_valid m1 ->
  (forall x, (x < next m0)%positive -> x <> tv -> blocks m1 !! x = blocks m0 !! x) ->
  blocks m1 !! tv = Some b' -> block_tv b' = Some tvv -> v_lock tvv = 0 ->
  built m0 m1 (vval tvv) ->
  dict_find dv key = None ->
  exists m' di dv',
    dict_set_value dict key value m err = Done (ObjNil, m', err) /\
    blocks m !! di = None /\
    load_dict m' dict = Done dv' /\
    dict_find dv' key = Some di /\
    ht_used (dv_hashtab dv') = S (ht_used (dv_hashtab dv)) /\
    load_tv m' di = Done tvv /\
    value_kept m m1 m' /\
    (forall x, (x < next m)%positive -> x <> dict -> blocks m' !! x = blocks m !! x).
Proof.
  intros tv m0 Hv Hd Hlock Hkey Hrun Hn1 Hv1 Hfr Hb' Htvv Hlk Hbuilt Hfind.
  unfold dict_set_value. rewrite Hd. cbn [bind]. rewrite Hlock. cbn [Z.eqb negb].
  rewrite (proj2 (Nat.eqb_neq _ _) Hkey). rewrite Hfind.
  unfold m0, tv, alloc in *. cbn [fst snd] in *. rewrite Hrun. cbn [bind negb].
  clear m0. set (m0 := {| blocks := <[next m := B_typval uninit_tv]> (blocks m);
                         next := Pos.succ (next m) |}) in *.
  assert (Hn0 : next m0 = Pos.succ (next m)) by reflexivity.
  apply load_dict_inv in Hd. pose proof (Hv _ _ Hd) as Hdlt.
  unfold dictitem_alloc, alloc. cbn [fst snd].
  set (di := next m1).
  set (m2 := {| blocks := <[di := B_dictitem (cstr key) uninit_tv]> (blocks m1);
                next := Pos.succ di |}).
  assert (Hd2 : blocks m2 !! dict = Some (B_dict dv)).
  { unfold m2; simpl. rewrite lookup_insert_ne by (unfold di; lia).
    rewrite Hfr by lia. unfold m0; simpl. rewrite lookup_insert_ne by lia. done. }
  unfold dict_add. rewrite (load_dict_lookup _ _ _ Hd2). cbn [bind].
  unfold load_dictitem_key. unfold m2 at 1. simpl. rewrite lookup_insert_eq. cbn [bind].
  destruct (dict_find_hash_add dv key di (dv_lock dv) (dv_refcount dv) Hfind)
    as (ht' & Hadd & Hused & Hfind').
  rewrite Hadd. rewrite (store_dict_lookup _ _ _ _ Hd2). cbn [bind snd].
  set (dv' := {| dv_lock := dv_lock dv; dv_refcount := dv_refcount dv; dv_hashtab := ht' |}) in *.
  set (m3 := {| blocks := <[dict := B_dict dv']> (blocks m2); next := next m2 |}).
  assert (Hsame : forall x b, (next m0 <= x)%positive -> blocks m1 !! x = Some b ->
            blocks m3 !! x = Some b).
  { intros x b Hx Hb. pose proof (Hv1 _ _ Hb). unfold m3, m2; simpl.
    rewrite !lookup_insert_ne by (unfold di; lia). done. }
  destruct (move_tv_steps m3 (next m) di tvv b' (B_dictitem (cstr key) uninit_tv) uninit_tv)
    as (bdi' & m4 & m5 & Hbdi' & Hcopy & Hclear & Hfree); try done.
  { unfold di. lia. }
  { unfold m3, m2; simpl. rewrite !lookup_insert_ne by (unfold di; lia). done. }
  { unfold m3, m2; simpl. rewrite lookup_insert_ne by (unfold di; lia).
    by rewrite lookup_insert_eq. }
  { eapply built_movable; [exact Hbuilt| | |done]; [lia|].
    intros x b _ Hb. pose proof (Hv1 _ _ Hb). unfold di. lia. }
  rewrite Hcopy. cbn [bind]. rewrite Hclear. cbn [bind]. rewrite Hfree. cbn [bind].
  simpl in Hbdi'. injection Hbdi' as <-.
  eexists _, di, dv'. split; [done|]. simpl.
  split.
  { destruct (blocks m !! di) as [b|] eqn:E; [|done]. specialize (Hv _ _ E).
    unfold di in Hv. lia. }
  split.
  { apply load_dict_lookup. simpl. rewrite lookup_delete_ne by lia.
    rewrite lookup_insert_ne by (unfold di; lia). by rewrite lookup_insert_eq. }
  split; [done|]. split; [done|]. split.
  { apply (load_tv_lookup _ _ (B_dictitem (cstr key) tvv)); [|done]. simpl.
    rewrite lookup_delete_ne by (unfold di; lia). by rewrite lookup_insert_eq. }
  split.
  { split; [|simpl; by rewrite lookup_delete_eq].
    intros x b Hx Hb. pose proof (Hv1 _ _ Hb). simpl.
    rewrite lookup_delete_ne by lia. rewrite lookup_insert_ne by (unfold di; lia).
    apply Hsame; [lia|done]. }
  intros x Hx Hxd. rewrite lookup_delete_ne by lia.
  rewrite lookup_insert_ne by (unfold di; lia). rewrite lookup_insert_ne by done.
  unfold m2; simpl. rewrite lookup_insert_ne by (unfold di; lia).
  rewrite Hfr by lia. unfold m0; simpl. rewrite lookup_insert_ne by lia. done.
Qed.


Lemma dict_set_value_existing dict key value m err dv m1 tvv b' di old mc :
  let tv := next m in
  let m0 := (alloc (B_typval uninit_tv) m).2 in
  mem_valid m -> load_dict m dict = Done dv -> dv_lock dv = 0 ->
  String.length key <> O ->
  object_to_vim value tv m0 err = Done (true, m1, err) ->
  (next m0 <= next m1)%positive -> mem_valid m1 ->
  (forall x, (x < next m0)%positive -> x <> tv -> blocks m1 !! x = blocks m0 !! x) ->
  blocks m1 !! tv = Some b' -> block_tv b' = Some tvv -> v_lock tvv = 0 ->
  built m0 m1 (vval tvv) ->
  dict_find dv key = Some di ->
  vim_to_object m di = Done old ->
  clear_tv di m = Done mc ->
  exists m',
    dict_set_value dict key value m err = Done (old, m', err) /\
    load_tv m' di = Done tvv /\
    value_kept m m1 m' /\
    (forall x, (x < next m)%positive -> x <> di -> blocks m' !! x = blocks mc !! x).
Proof.
  intros tv m0 Hv Hd Hlock Hkey Hrun Hn1 Hv1 Hfr Hb' Htvv Hlk Hbuilt Hfind Hold Hclear.
  unfold dict_set_value. rewrite Hd. cbn [bind]. rewrite Hlock. cbn [Z.eqb negb].
  rewrite (proj2 (Nat.eqb_neq _ _) Hkey). rewrite Hfind.
  unfold m0, tv, alloc in *. cbn [fst snd] in *. rewrite Hrun. cbn [bind negb].
  clear m0. set (m0 := {| blocks := <[next m := B_typval uninit_tv]> (blocks m);
                         next := Pos.succ (next m) |}) in *.
  assert (Hn0 : next m0 = Pos.succ (next m)) by reflexivity.
  assert (Hbelow : forall x, (x < next m)%positive -> blocks m1 !! x = blocks m !! x).
  { intros x Hx. rewrite Hfr by lia. unfold m0; simpl. by rewrite lookup_insert_ne by lia. }
  assert (Hsub : blocks m ⊆ blocks m1).
  { apply map_subseteq_spec. intros x b Hb. pose proof (Hv _ _ Hb). by rewrite Hbelow. }
  rewrite (vim_to_object_weaken _ _ _ _ Hsub Hold). cbn [bind].
  destruct (fresh_part m m1 Hv Hbelow) as (X & HX & Hdisj & HXl).
  assert (Hm1 : m1 = ext m X (next m1)).
  { destruct m1 as [bs n1]. unfold ext. simpl in *. by rewrite HX. }
  assert (Hclear1 : clear_tv di m1 = Done (ext mc X (next m1)) /\ blocks mc ##ₘ X).
  { unfold clear_tv in *. rewrite Hm1 at 2.
    refine (clear_tv_fuel_lifts (clear_fuel m) (clear_fuel m1) di _ m mc X (next m1)
              Hdisj Hclear).
    unfold clear_fuel. apply map_subseteq_size in Hsub. lia. }
  destruct Hclear1 as [Hclear1 Hdisj'].
  rewrite Hclear1. cbn [bind].
  pose proof (clear_tv_fuel_cell _ _ _ _ Hclear) as Hcell.
  destruct (is_cell_b_lookup _ _ Hcell) as (bdi & tdi & Hbdi & Htdi).
  assert (HXtv : X !! next m = Some b').
  { rewrite HXl. rewrite decide_True by lia. done. }
  assert (HinX : forall x b, (next m <= x)%positive -> blocks m1 !! x = Some b ->
            X !! x = Some b /\ blocks mc !! x = None /\ x <> di).
  { intros x b Hx Hb.
    assert (X !! x = Some b) as HXx by (rewrite HXl; by rewrite decide_True).
    pose proof (map_disjoint_Some_r _ _ _ _ Hdisj' HXx) as Hnone.
    split; [done|]. split; [done|]. intros ->. congruence. }
  destruct (HinX _ _ (Pos.le_refl _) Hb') as (_ & Hmctv & Htvdi).
  destruct (move_tv_steps (ext mc X (next m1)) (next m) di tvv b' bdi tdi)
    as (bdi' & m4 & m5 & Hbdi' & Hcopy & Hclr & Hfree); try done.
  { unfold ext; simpl. rewrite lookup_union_r by done. done. }
  { unfold ext; simpl. by apply lookup_union_Some_l. }
  { eapply built_movable; [exact Hbuilt|lia| |].
    - intros x b Hx Hb. apply (HinX x b); [lia|done].
    - intros x b Hx Hb. destruct (HinX x b) as (HXx & Hnone & _); [lia|done|].
      unfold ext; simpl. rewrite lookup_union_r by done. done. }
  rewrite Hcopy. cbn [bind]. rewrite Hclr. cbn [bind]. rewrite Hfree. cbn [bind].
  eexists. split; [done|]. simpl. split.
  { apply (load_tv_lookup _ _ bdi'); [|by eapply block_with_tv_block_tv]. simpl.
    rewrite lookup_delete_ne by done. by rewrite lookup_insert_eq. }
  split.
  { split; [|simpl; by rewrite lookup_delete_eq].
    intros x b Hx Hb. destruct (HinX x b) as (HXx & Hnone & Hxdi); [lia|done|]. simpl.
    rewrite lookup_delete_ne by lia. rewrite lookup_insert_ne by done.
    rewrite lookup_union_r by done. done. }
  intros x Hx Hxdi. rewrite lookup_delete_ne by lia. rewrite lookup_insert_ne by done.
  apply lookup_union_l. rewrite HXl. rewrite decide_False by lia. done.
Qed.


(** C7: on an unlocked dictionary, with a key that is not empty and a value
    that converts (to [tvv], by [object_to_vim] into the local [tv]),
    dict_set_value sets no error and afterwards the entry under the key holds
    [tvv], with what the conversion built still in place.  When the key was
    not there, a new entry is added (one more used slot) and Nil is
    returned; when it was there, in a well-formed memory, the old value has
    a conversion, and once [clear_tv] has released the old value that
    conversion is returned: the rest of the old memory is as [clear_tv]
    leaves it. *)
Theorem dict_set_value_stores (dict : addr) (key : string) (value : Object)
    (m : mem) (err : Error) (dv : dict_T) :
  mem_valid m ->
  load_dict m dict = Done dv ->
  dv_lock dv = 0 ->
  String.length key <> O ->
  convertible value = true ->
  exists m1 tvv,
    object_to_vim value (next m) (alloc (B_typval uninit_tv) m).2 err
    = Done (true, m1, err) /\
    load_tv m1 (next m) = Done tvv /\
    (dict_find dv key = None ->
     exists m' di dv',
       dict_set_value dict key value m err = Done (ObjNil, m', err) /\
       blocks m !! di = None /\
       load_dict m' dict = Done dv' /\
       dict_find dv' key = Some di /\
       ht_used (dv_hashtab dv') = S (ht_used (dv_hashtab dv)) /\
       load_tv m' di = Done tvv /\
       value_kept m m1 m' /\
       (forall x, (x < next m)%positive -> x <> dict ->
          blocks m' !! x = blocks m !! x)) /\
    (forall di,
       mem_wf m ->
       dict_find dv key = Some di ->
       exists old,
         vim_to_object m di = Done old /\
         forall mc,
           clear_tv di m = Done mc ->
           exists m',
             dict_set_value dict key value m err = Done (old, m', err) /\
             load_tv m' di = Done tvv /\
             value_kept m m1 m' /\
             (forall x, (x < next m)%positive -> x <> di ->
                blocks m' !! x = blocks mc !! x)).
Proof.
  intros Hv Hd Hlock Hkey Hconv.
  destruct (object_to_vim_ok value Hconv (next m) (alloc (B_typval uninit_tv) m).2 err
              (B_typval uninit_tv) uninit_tv)
    as (m1 & tvv & b' & Hrun & Hn1 & Hv1 & Hfr & Hb' & Htv & Hlk & Hbuilt & _).
  { unfold mem_valid, alloc; simpl. apply (valid_blocks_insert _ (next m)); [done|lia|lia]. }
  { unfold alloc; simpl. by rewrite lookup_insert_eq. }
  { done. }
  exists m1, tvv. split; [done|].
  pose proof (block_with_tv_block_tv _ _ _ Hb') as Htvv.
  split; [by eapply load_tv_lookup|]. split.
  - intros Hfind. by eapply dict_set_value_new.
  - intros di Hwf Hfind.
    destruct (vim_to_object_total _ _ Hwf (dict_find_cell _ _ _ _ _ Hwf Hd Hfind))
      as [old Hold].
    exists old. split; [done|].
    intros mc Hclear. by eapply dict_set_value_existing.
Qed.

(** C3, where the code goes wrong: when the value of a pair fails to
    convert (here a dictionary whose first key is empty), the inner call has
    freed its dictionary but left the typval_T of the new item pointing to
    it, and [dictitem_free] on that item releases the freed dictionary once
    more: the call does not return an error, it faults. *)
Theorem object_to_vim_nested_failure (tv : addr) (m : mem) (err : Error)
    (key : string) (v : Object) (inner rest : list (string * Object)) :
  mem_valid m ->
  is_cell_b m tv = true ->
  String.length key <> O ->
  object_to_vim
    (ObjDictionary ((key, ObjDictionary ((""%string, v) :: inner)) :: rest)) tv m err
  = Fault.
Proof.
  intros Hv Hcell Hkey.
  destruct (is_cell_b_lookup _ _ Hcell) as (b0 & tv0 & Hb0 & Hc0).
  pose proof (Hv _ _ Hb0) as Htv.
  destruct (block_with_tv_cell b0 tv0 {| v_lock := 0; vval := V_UNKNOWN |} Hc0)
    as (b1 & Hb1 & Hc1 & Hk1).
  set (d := next m) in *.
  destruct (block_with_tv_cell b0 tv0 {| v_lock := 0; vval := V_DICT (Some d) |} Hc0)
    as (b2 & Hb2 & Hc2 & Hk2).
  cbn [object_to_vim].
  rewrite store_tv_eq, Hb0. simpl. rewrite Hb1. cbn [bind].
  unfold dict_alloc, alloc. simpl. fold d.
  rewrite store_tv_eq. simpl. rewrite lookup_insert_ne by lia.
  rewrite lookup_insert_eq. simpl. rewrite Hk1, Hb2. cbn [bind].
  cbn [dictionary_to_vim]. rewrite (proj2 (Nat.eqb_neq _ _) Hkey).
  unfold dictitem_alloc, alloc. simpl.
  set (di := Pos.succ d). set (d1 := Pos.succ di).
  cbn [object_to_vim].
  rewrite store_tv_eq. simpl. rewrite lookup_insert_eq. simpl. cbn [bind].
  unfold dict_alloc, alloc. simpl. fold d1.
  rewrite store_tv_eq. simpl. rewrite lookup_insert_ne by lia.
  rewrite lookup_insert_eq. simpl. cbn [bind].
  cbn [dictionary_to_vim]. simpl String.length. cbn [Nat.eqb].
  unfold dict_free, dict_free_with. unfold load_dict at 1. simpl.
  rewrite lookup_insert_ne by lia. rewrite lookup_insert_eq. cbn [bind]. simpl.
  unfold free at 1. simpl. rewrite lookup_insert_ne by lia. rewrite lookup_insert_eq.
  cbn [bind].
  unfold dictitem_free, clear_tv, clear_fuel. cbn [clear_tv_fuel].
  rewrite load_tv_eq. simpl. rewrite lookup_delete_ne by lia.
  rewrite lookup_insert_eq. simpl. cbn [bind].
  unfold dict_unref_with. unfold load_dict at 1. simpl.
  rewrite lookup_delete_eq. reflexivity.
Qed.


(** * Further properties of the functions *)

(** ** try_start, try_end *)

Lemma substring_length (n : nat) : forall s, (String.length (String.substring 0 n s) <= n)%nat.
Proof.
  induction n as [|n IH]; intros [|c s]; simpl; try lia.
  specialize (IH s). lia.
Qed.

Lemma strncpy_length src n : (String.length (strncpy src n) <= n)%nat.
Proof. apply substring_length. Qed.

(** What the value returned by try_end says: it is the flag of the Error
    after the call, so true exactly when the Error was set on entry or one
    of the three signals was pending; whatever the branch, the nesting level
    is one less and did_emsg and got_int are off; and a message that the
    call stored fits the buffer. *)
Theorem try_end_reports (g g' : globals) (err err' : Error) (b : bool) :
  try_end g err = Done (b, g', err') ->
  b = set err' /\
  (b = true <->
   set err = true \/ got_int g = true \/
   (exists ml, msg_list g = Some (Some ml)) \/ did_throw g = true) /\
  trylevel g' = trylevel g - 1 /\ did_emsg g' = false /\ got_int g' = false /\
  (b = true -> err' = err \/ (String.length (msg err') <= ERR_MSG_SIZE)%nat).
Proof.
  unfold try_end. cbn [trylevel did_emsg got_int did_throw msg_list current_exception].
  destruct (got_int g) eqn:Hint.
  - destruct (did_throw g); simpl; intros [= <- <- <-]; simpl;
      (split; [done|]); (split; [split; auto|]);
      repeat (split; [done|]); intros _; right; apply strncpy_length.
  - destruct (msg_list g) as [[ml|]|] eqn:Hml.
    + destruct (get_exception_string ml) as [text should_free]. simpl.
      intros [= <- <- <-]. simpl. split; [done|].
      split; [split; eauto 6|]. repeat (split; [done|]).
      intros _. right. apply strncpy_length.
    + destruct (did_throw g) eqn:Hthrow.
      * destruct (current_exception g) as [value|]; [|done]. simpl.
        intros [= <- <- <-]. simpl. split; [done|]. split; [split; auto|].
        repeat (split; [done|]). intros _. right. apply strncpy_length.
      * simpl. intros [= <- <- <-]. simpl. split; [done|]. split.
        { split; [auto|]. intros [?|[?|[[ml ?]|?]]]; done. }
        repeat (split; [done|]). auto.
    + destruct (did_throw g) eqn:Hthrow.
      * destruct (current_exception g) as [value|]; [|done]. simpl.
        intros [= <- <- <-]. simpl. split; [done|]. split; [split; auto|].
        repeat (split; [done|]). intros _. right. apply strncpy_length.
      * simpl. intros [= <- <- <-]. simpl. split; [done|]. split.
        { split; [auto|]. intros [?|[?|[[ml ?]|?]]]; done. }
        repeat (split; [done|]). auto.
Qed.

(** Without an interrupt a pending message list comes before an exception
    in flight: the Error is the rendered text, cut to the size of the
    buffer, the list is freed, and the exception is left in flight. *)
Theorem try_end_message_list (g : globals) (err : Error) (ml : msglist_T) :
  got_int g = false ->
  msg_list g = Some (Some ml) ->
  try_end g err
  = Done (true,
          {| trylevel := trylevel g - 1; did_emsg := false; got_int := false;
             did_throw := did_throw g; msg_list := Some None;
             current_exception := current_exception g |},
          {| msg := strncpy (get_exception_string ml).1 ERR_MSG_SIZE; set := true |}).
Proof.
  intros Hint Hml. unfold try_end. simpl. rewrite Hint, Hml.
  destruct (get_exception_string ml) as [text should_free]. reflexivity.
Qed.

(** With only an exception in flight the Error is the text of the
    exception, and try_end does not discard it: did_throw and
    current_exception stay as they were. *)
Theorem try_end_exception (g : globals) (err : Error) (value : string) :
  got_int g = false ->
  msg_list g = None \/ msg_list g = Some None ->
  did_throw g = true ->
  current_exception g = Some value ->
  try_end g err
  = Done (true,
          {| trylevel := trylevel g - 1; did_emsg := false; got_int := false;
             did_throw := true; msg_list := msg_list g;
             current_exception := Some value |},
          set_api_error value err).
Proof.
  intros Hint Hml Hthrow Hex. unfold try_end. simpl. rewrite Hint, Hthrow, Hex.
  destruct Hml as [-> | ->]; reflexivity.
Qed.

(** A bracket around code that leaves nothing pending is neutral: after
    try_start and try_end the nesting level is what it was, the Error is
    untouched, and the value returned is the flag the Error already had. *)
Theorem try_start_try_end (g : globals) (err : Error) :
  got_int g = false ->
  msg_list g = None \/ msg_list g = Some None ->
  did_throw g = false ->
  try_end (try_start g) err
  = Done (set err,
          {| trylevel := trylevel g; did_emsg := false; got_int := false;
             did_throw := false; msg_list := msg_list g;
             current_exception := current_exception g |},
          err).
Proof.
  intros Hint Hml Hthrow. unfold try_end, try_start. simpl. rewrite Hint, Hthrow.
  replace (trylevel g + 1 - 1) with (trylevel g) by lia.
  destruct Hml as [-> | ->]; reflexivity.
Qed.


(** ** dict_get_value *)

Lemma hash_find_key arr key k di :
  hashitem_at arr (hash_find arr key) = HI_KEY k di -> k = key.
Proof.
  induction arr as [|hi arr IH]; [done|].
  destruct hi as [| |k' di']; simpl; try apply IH.
  case_decide; [|apply IH]. unfold hashitem_at; simpl. by intros [= <- _].
Qed.

Lemma live_keys_elem arr k di : HI_KEY k di ∈ arr -> k ∈ live_keys arr.
Proof.
  intros Hin. unfold live_keys. apply list_elem_of_omap. by exists (HI_KEY k di).
Qed.

(** Once the slot of a key is marked as removed, the key is not found any
    more, and the other keys are found where they were. *)
Lemma hash_remove_find arr key :
  NoDup (live_keys arr) ->
  HASHITEM_EMPTY (hashitem_at arr (hash_find arr key)) = false ->
  HASHITEM_EMPTY (hashitem_at (<[hash_find arr key := HI_REMOVED]> arr)
                    (hash_find (<[hash_find arr key := HI_REMOVED]> arr) key)) = true /\
  length (live_items (<[hash_find arr key := HI_REMOVED]> arr))
  = pred (length (live_items arr)) /\
  (forall k, k <> key ->
     hashitem_at (<[hash_find arr key := HI_REMOVED]> arr)
       (hash_find (<[hash_find arr key := HI_REMOVED]> arr) k)
     = hashitem_at arr (hash_find arr k)).
Proof.
  induction arr as [|hi arr IH]; [done|]. intros Hnd Hlive.
  destruct hi as [| |k' di'].
  - simpl in *. destruct (IH Hnd Hlive) as (H1 & H2 & H3). done.
  - simpl in *. destruct (IH Hnd Hlive) as (H1 & H2 & H3). done.
  - simpl in Hnd. apply NoDup_cons in Hnd as [Hk' Hnd].
    cbn [hash_find] in *. case_decide as Hk.
    + subst k'. simpl. split; [|split; [done|]].
      * apply hash_find_absent. intros di Hin. apply Hk'. by eapply live_keys_elem.
      * intros k Hne. by rewrite decide_False.
    + unfold hashitem_at in Hlive |- *. simpl in Hlive |- *.
      destruct (IH Hnd Hlive) as (H1 & H2 & H3).
      rewrite decide_False by done. simpl.
      split; [done|]. split.
      * rewrite H2.
        destruct (live_items arr) eqn:E; [|done]. exfalso.
        destruct (arr !! hash_find arr key) as [[| |k0 d0]|] eqn:Eh; try done.
        assert (d0 ∈ live_items arr) as Hin.
        { apply list_elem_of_omap. exists (HI_KEY k0 d0). split; [|done].
          by eapply list_elem_of_lookup_2. }
        rewrite E in Hin. by apply elem_of_nil in Hin.
      * intros k Hne. case_decide; [done|]. simpl. by apply H3.
Qed.

(** A plain get: on a well-formed memory, for a key that is there,
    dict_get_value without pop returns the conversion of the stored value
    and changes neither the memory nor the Error. *)
Theorem dict_get_value_reads (rv0 : Object) (dict : addr) (key : string)
    (m : mem) (err : Error) (dv : dict_T) (di : addr) :
  mem_wf m ->
  load_dict m dict = Done dv ->
  dict_find dv key = Some di ->
  exists v,
    vim_to_object m di = Done v /\
    dict_get_value rv0 dict key false m err = Done (v, m, err).
Proof.
  intros Hwf Hd Hf.
  destruct (dict_find_Some _ _ _ Hf) as [k Hk].
  destruct (vim_to_object_total _ _ Hwf (dict_find_cell _ _ _ _ _ Hwf Hd Hf)) as [v Hv].
  exists v. split; [done|].
  unfold dict_get_value. rewrite Hd. cbn [bind]. rewrite Hk.
  cbn [HASHITEM_EMPTY dict_lookup bind]. by rewrite Hv.
Qed.

Lemma clear_tv_scalar a m b tv :
  blocks m !! a = Some b -> block_tv b = Some tv -> is_container tv = false ->
  exists b', clear_tv a m = Done {| blocks := <[a := b']> (blocks m); next := next m |}.
Proof.
  intros Hb Htv Hc. unfold clear_tv, clear_fuel. cbn [clear_tv_fuel].
  rewrite (load_tv_lookup _ _ _ _ Hb Htv). cbn [bind].
  assert (forall tv', exists b', store_tv a tv' m
            = Done {| blocks := <[a := b']> (blocks m); next := next m |}) as Hst.
  { intros tv'. rewrite store_tv_eq, Hb. simpl.
    destruct (block_with_tv_cell b tv tv' Htv) as (b' & -> & _). by exists b'. }
  unfold is_container, v_type in Hc.
  destruct (vval tv) as [|i|s|fn|l|d|f]; try done; apply Hst.
Qed.

(** A pop on an unlocked dictionary: the conversion of the stored value is
    returned, the slot of the key is marked as removed (the key is not
    found any more, the other keys are, one slot less is in use) and the
    item goes to [dictitem_free]; when the stored value is not a container
    the item is simply gone, and a second pop finds no key. *)
Theorem dict_get_value_pop (rv0 rv1 : Object) (dict : addr) (key : string)
    (m : mem) (err : Error) (dv : dict_T) (di : addr) :
  mem_wf m ->
  load_dict m dict = Done dv ->
  dv_lock dv = 0 ->
  dict_find dv key = Some di ->
  NoDup (live_keys (ht_array (dv_hashtab dv))) ->
  let dv' := {| dv_lock := dv_lock dv; dv_refcount := dv_refcount dv;
                dv_hashtab := hash_remove (dv_hashtab dv)
                                (hash_find (ht_array (dv_hashtab dv)) (cstr key)) |} in
  let m1 := {| blocks := <[dict := B_dict dv']> (blocks m); next := next m |} in
  exists v,
    vim_to_object m di = Done v /\
    dict_find dv' key = None /\
    (forall k, cstr k <> cstr key -> dict_find dv' k = dict_find dv k) /\
    ht_used (dv_hashtab dv') = pred (ht_used (dv_hashtab dv)) /\
    (forall mc, dictitem_free di m1 = Done mc ->
       dict_get_value rv0 dict key true m err = Done (v, mc, err)) /\
    (forall tv, load_tv m di = Done tv -> is_container tv = false ->
       let m' := {| blocks := delete di (blocks m1); next := next m |} in
       dict_get_value rv0 dict key true m err = Done (v, m', err) /\
       dict_get_value rv1 dict key true m' err
       = Done (rv1, m', set_api_error "Key not found" err)).
Proof.
  intros Hwf Hd Hlock Hf Hnd dv' m1.
  destruct (dict_find_Some _ _ _ Hf) as [k Hk].
  destruct (vim_to_object_total _ _ Hwf (dict_find_cell _ _ _ _ _ Hwf Hd Hf)) as [v Hv].
  set (arr := ht_array (dv_hashtab dv)) in *.
  destruct (hash_remove_find arr (cstr key) Hnd) as (Hgone & _ & Hothers).
  { by rewrite Hk. }
  assert (Hfind' : dict_find dv' key = None).
  { unfold dict_find, dv'. cbn [dv_hashtab hash_remove ht_array]. fold arr.
    revert Hgone.
    by destruct (hashitem_at (<[hash_find arr (cstr key) := HI_REMOVED]> arr) _). }
  assert (Hrun : forall mc, dictitem_free di m1 = Done mc ->
            dict_get_value rv0 dict key true m err = Done (v, mc, err)).
  { intros mc Hfree. unfold dict_get_value. rewrite Hd. cbn [bind]. fold arr.
    rewrite Hk. cbn [HASHITEM_EMPTY dict_lookup bind]. rewrite Hv. cbn [bind].
    assert ((dv_lock dv =? 0) = true) as -> by (by rewrite Hlock). cbn [negb].
    rewrite (store_dict_lookup _ _ _ _ (load_dict_inv _ _ _ Hd)). cbn [bind].
    fold dv' m1. by rewrite Hfree. }
  exists v. split; [done|]. split; [done|]. split.
  { intros k0 Hne. unfold dict_find, dv'. cbn [dv_hashtab hash_remove ht_array]. fold arr.
    by rewrite Hothers. }
  split; [done|]. split; [done|].
  intros tv Htv Hc m'.
  apply load_dict_inv in Hd.
  assert (di <> dict) as Hne.
  { intros ->. unfold load_tv in Htv. by rewrite Hd in Htv. }
  destruct (is_cell_b_lookup _ _ (load_tv_is_cell_b _ _ _ Htv)) as (b & tv0 & Hb & Hb0).
  assert (tv0 = tv) as ->.
  { rewrite (load_tv_lookup _ _ _ _ Hb Hb0) in Htv. by injection Htv. }
  destruct (clear_tv_scalar di m1 b tv) as [b' Hclear]; [|done|done|].
  { unfold m1; simpl. by rewrite lookup_insert_ne. }
  assert (Hfree : dictitem_free di m1 = Done m').
  { unfold dictitem_free. rewrite Hclear. cbn [bind]. unfold free. simpl.
    rewrite lookup_insert_eq. unfold m'. by rewrite delete_insert_eq. }
  split; [by apply Hrun|].
  unfold dict_get_value.
  rewrite (load_dict_lookup m' dict dv').
  2:{ unfold m', m1; simpl. rewrite lookup_delete_ne by done. by rewrite lookup_insert_eq. }
  cbn [bind]. unfold dv' at 1 2. cbn [dv_hashtab hash_remove ht_array]. fold arr.
  by rewrite Hgone.
Qed.


(** ** dict_set_value *)

(** An empty key is refused before anything is converted or allocated. *)
Theorem dict_set_value_empty_key (dict : addr) (key : string) (value : Object)
    (m : mem) (err : Error) (dv : dict_T) :
  load_dict m dict = Done dv ->
  dv_lock dv = 0 ->
  String.length key = O ->
  dict_set_value dict key value m err
  = Done (ObjNil, m, set_api_error "Empty dictionary keys aren't allowed" err).
Proof.
  intros Hd Hlock Hkey. unfold dict_set_value. rewrite Hd. cbn [bind].
  rewrite Hlock, Hkey. reflexivity.
Qed.

(** The memory after a dict_set_value that added an entry: above the place
    of the local [tv] it is as the conversion left it. *)
Lemma dict_set_value_new_mem dict key value m err dv m1 tvv b' :
  let tv := next m in
  let m0 := (alloc (B_typval uninit_tv) m).2 in
  mem_valid m -> load_dict m dict = Done dv -> dv_lock dv = 0 ->
  String.length key <> O ->
  object_to_vim value tv m0 err = Done (true, m1, err) ->
  (next m0 <= next m1)%positive -> mem_valid m1 ->
  (forall x, (x < next m0)%positive -> x <> tv -> blocks m1 !! x = blocks m0 !! x) ->
  blocks m1 !! tv = Some b' -> block_tv b' = Some tvv -> v_lock tvv = 0 ->
  built m0 m1 (vval tvv) ->
  dict_find dv key = None ->
  exists m' dv',
    dict_set_value dict key value m err = Done (ObjNil, m', err) /\
    load_dict m' dict = Done dv' /\
    dict_find dv' key = Some (next m1) /\
    load_tv m' (next m1) = Done tvv /\
    (forall x, (next m < x)%positive -> (x < next m1)%positive ->
       blocks m' !! x = blocks m1 !! x) /\
    (forall x, (x < next m)%positive -> x <> dict -> blocks m' !! x = blocks m !! x) /\
    blocks m' !! next m = None /\
    next m' = Pos.succ (next m1) /\
    mem_valid m' /\
    dv_lock dv' = dv_lock dv /\
    hash_add (dv_hashtab dv) (cstr key) (next m1) = (true, dv_hashtab dv').
Proof.
  intros tv m0 Hv Hd Hlock Hkey Hrun Hn1 Hv1 Hfr Hb' Htvv Hlk Hbuilt Hfind.
  unfold dict_set_value. rewrite Hd. cbn [bind]. rewrite Hlock. cbn [Z.eqb negb].
  rewrite (proj2 (Nat.eqb_neq _ _) Hkey). rewrite Hfind.
  unfold m0, tv, alloc in *. cbn [fst snd] in *. rewrite Hrun. cbn [bind negb].
  clear m0. set (m0 := {| blocks := <[next m := B_typval uninit_tv]> (blocks m);
                         next := Pos.succ (next m) |}) in *.
  assert (Hn0 : next m0 = Pos.succ (next m)) by reflexivity.
  apply load_dict_inv in Hd. pose proof (Hv _ _ Hd) as Hdlt.
  unfold dictitem_alloc, alloc. cbn [fst snd].
  set (di := next m1).
  set (m2 := {| blocks := <[di := B_dictitem (cstr key) uninit_tv]> (blocks m1);
                next := Pos.succ di |}).
  assert (Hd2 : blocks m2 !! dict = Some (B_dict dv)).
  { unfold m2; simpl. rewrite lookup_insert_ne by (unfold di; lia).
    rewrite Hfr by lia. unfold m0; simpl. rewrite lookup_insert_ne by lia. done. }
  unfold dict_add. rewrite (load_dict_lookup _ _ _ Hd2). cbn [bind].
  unfold load_dictitem_key. unfold m2 at 1. simpl. rewrite lookup_insert_eq. cbn [bind].
  destruct (dict_find_hash_add dv key di (dv_lock dv) (dv_refcount dv) Hfind)
    as (ht' & Hadd & Hused & Hfind').
  rewrite Hadd. rewrite (store_dict_lookup _ _ _ _ Hd2). cbn [bind snd].
  set (dv' := {| dv_lock := dv_lock dv; dv_refcount := dv_refcount dv; dv_hashtab := ht' |}) in *.
  set (m3 := {| blocks := <[dict := B_dict dv']> (blocks m2); next := next m2 |}).
  destruct (move_tv_steps m3 (next m) di tvv b' (B_dictitem (cstr key) uninit_tv) uninit_tv)
    as (bdi' & m4 & m5 & Hbdi' & Hcopy & Hclear & Hfree); try done.
  { unfold di. lia. }
  { unfold m3, m2; simpl. rewrite !lookup_insert_ne by (unfold di; lia). done. }
  { unfold m3, m2; simpl. rewrite lookup_insert_ne by (unfold di; lia).
    by rewrite lookup_insert_eq. }
  { eapply built_movable; [exact Hbuilt| | |]; [lia| |].
    - intros x b _ Hb. pose proof (Hv1 _ _ Hb). unfold di. lia.
    - intros x b Hx Hb. pose proof (Hv1 _ _ Hb). unfold m3, m2; simpl.
      rewrite !lookup_insert_ne by (unfold di; lia). done. }
  rewrite Hcopy. cbn [bind]. rewrite Hclear. cbn [bind]. rewrite Hfree. cbn [bind].
  simpl in Hbdi'. injection Hbdi' as <-.
  eexists _, dv'. split; [done|]. simpl.
  split.
  { apply load_dict_lookup. simpl. rewrite lookup_delete_ne by lia.
    rewrite lookup_insert_ne by (unfold di; lia). by rewrite lookup_insert_eq. }
  split; [done|]. split.
  { apply (load_tv_lookup _ _ (B_dictitem (cstr key) tvv)); [|done]. simpl.
    rewrite lookup_delete_ne by (unfold di; lia). by rewrite lookup_insert_eq. }
  split.
  { intros x Hx1 Hx2. rewrite lookup_delete_ne by lia.
    rewrite !lookup_insert_ne by (unfold di; lia). done. }
  split.
  { intros x Hx Hxd. rewrite lookup_delete_ne by lia.
    rewrite lookup_insert_ne by (unfold di; lia). rewrite lookup_insert_ne by done.
    rewrite lookup_insert_ne by (unfold di; lia).
    rewrite Hfr by lia. unfold m0; simpl. by rewrite lookup_insert_ne by lia. }
  split; [by rewrite lookup_delete_eq|]. split; [done|]. split; [|done].
  intros x b. simpl. intros Hx.
  destruct (decide (x = next m)) as [->|Hne]; [by rewrite lookup_delete_eq in Hx|].
  rewrite lookup_delete_ne in Hx by done.
  destruct (decide (x = di)) as [->|Hne2]; [lia|].
  rewrite lookup_insert_ne in Hx by done.
  destruct (decide (x = dict)) as [->|Hne3]; [unfold di; lia|].
  rewrite lookup_insert_ne in Hx by done. rewrite lookup_insert_ne in Hx by done.
  specialize (Hv1 _ _ Hx). unfold di. lia.
Qed.

(** A release allocates nothing: what was free next to the memory stays
    free. *)
Lemma clear_tv_fresh a m mc x :
  clear_tv a m = Done mc -> blocks m !! x = None -> blocks mc !! x = None.
Proof.
  intros Hclear Hx.
  assert (blocks m ##ₘ {[x := B_typval uninit_tv]}) as Hdisj.
  { by apply map_disjoint_singleton_r. }
  destruct (clear_tv_fuel_lifts (clear_fuel m) (clear_fuel m) a (le_n _) m mc
              {[x := B_typval uninit_tv]} (next m) Hdisj Hclear) as [_ Hdisj'].
  by apply map_disjoint_singleton_r in Hdisj'.
Qed.

(** The memory after a dict_set_value that replaced a value. *)
Lemma dict_set_value_existing_mem dict key value m err dv m1 tvv b' di old mc :
  let tv := next m in
  let m0 := (alloc (B_typval uninit_tv) m).2 in
  mem_valid m -> load_dict m dict = Done dv -> dv_lock dv = 0 ->
  String.length key <> O ->
  object_to_vim value tv m0 err = Done (true, m1, err) ->
  (next m0 <= next m1)%positive -> mem_valid m1 ->
  (forall x, (x < next m0)%positive -> x <> tv -> blocks m1 !! x = blocks m0 !! x) ->
  blocks m1 !! tv = Some b' -> block_tv b' = Some tvv -> v_lock tvv = 0 ->
  built m0 m1 (vval tvv) ->
  dict_find dv key = Some di ->
  vim_to_object m di = Done old ->
  clear_tv di m = Done mc ->
  exists m',
    dict_set_value dict key value m err = Done (old, m', err) /\
    load_tv m' di = Done tvv /\
    (di < next m)%positive /\
    (forall x, (x < next m)%positive -> x <> di -> blocks m' !! x = blocks mc !! x) /\
    (forall x, (next m < x)%positive -> (x < next m1)%positive ->
       blocks m' !! x = blocks m1 !! x).
Proof.
  intros tv m0 Hv Hd Hlock Hkey Hrun Hn1 Hv1 Hfr Hb' Htvv Hlk Hbuilt Hfind Hold Hclear.
  unfold dict_set_value. rewrite Hd. cbn [bind]. rewrite Hlock. cbn [Z.eqb negb].
  rewrite (proj2 (Nat.eqb_neq _ _) Hkey). rewrite Hfind.
  unfold m0, tv, alloc in *. cbn [fst snd] in *. rewrite Hrun. cbn [bind negb].
  clear m0. set (m0 := {| blocks := <[next m := B_typval uninit_tv]> (blocks m);
                         next := Pos.succ (next m) |}) in *.
  assert (Hn0 : next m0 = Pos.succ (next m)) by reflexivity.
  assert (Hbelow : forall x, (x < next m)%positive -> blocks m1 !! x = blocks m !! x).
  { intros x Hx. rewrite Hfr by lia. unfold m0; simpl. by rewrite lookup_insert_ne by lia. }
  assert (Hsub : blocks m ⊆ blocks m1).
  { apply map_subseteq_spec. intros x b Hb. pose proof (Hv _ _ Hb). by rewrite Hbelow. }
  rewrite (vim_to_object_weaken _ _ _ _ Hsub Hold). cbn [bind].
  destruct (fresh_part m m1 Hv Hbelow) as (X & HX & Hdisj & HXl).
  assert (Hm1 : m1 = ext m X (next m1)).
  { destruct m1 as [bs n1]. unfold ext. simpl in *. by rewrite HX. }
  assert (Hclear1 : clear_tv di m1 = Done (ext mc X (next m1)) /\ blocks mc ##ₘ X).
  { unfold clear_tv in *. rewrite Hm1 at 2.
    refine (clear_tv_fuel_lifts (clear_fuel m) (clear_fuel m1) di _ m mc X (next m1)
              Hdisj Hclear).
    unfold clear_fuel. apply map_subseteq_size in Hsub. lia. }
  destruct Hclear1 as [Hclear1 Hdisj'].
  rewrite Hclear1. cbn [bind].
  pose proof (clear_tv_fuel_cell _ _ _ _ Hclear) as Hcell.
  destruct (is_cell_b_lookup _ _ Hcell) as (bdi & tdi & Hbdi & Htdi).
  assert (Hmc : forall x, (next m <= x)%positive -> blocks mc !! x = None).
  { intros x Hx. apply (clear_tv_fresh di m); [done|].
    destruct (blocks m !! x) as [b|] eqn:E; [|done]. specialize (Hv _ _ E). lia. }
  assert (Hdi : (di < next m)%positive).
  { destruct (decide (di < next m)%positive) as [|Hge]; [done|].
    rewrite Hmc in Hbdi by lia. done. }
  assert (HXtv : X !! next m = Some b').
  { rewrite HXl. rewrite decide_True by lia. done. }
  assert (HinX : forall x b, (next m <= x)%positive -> blocks m1 !! x = Some b ->
            X !! x = Some b /\ blocks mc !! x = None /\ x <> di).
  { intros x b Hx Hb.
    assert (X !! x = Some b) as HXx by (rewrite HXl; by rewrite decide_True).
    split; [done|]. split; [by apply Hmc|]. lia. }
  destruct (move_tv_steps (ext mc X (next m1)) (next m) di tvv b' bdi tdi)
    as (bdi' & m4 & m5 & Hbdi' & Hcopy & Hclr & Hfree); try done.
  { lia. }
  { unfold ext; simpl. rewrite lookup_union_r by (apply Hmc; lia). done. }
  { unfold ext; simpl. by apply lookup_union_Some_l. }
  { eapply built_movable; [exact Hbuilt|lia| |].
    - intros x b Hx Hb. apply (HinX x b); [lia|done].
    - intros x b Hx Hb. destruct (HinX x b) as (HXx & Hnone & _); [lia|done|].
      unfold ext; simpl. rewrite lookup_union_r by done. done. }
  rewrite Hcopy. cbn [bind]. rewrite Hclr. cbn [bind]. rewrite Hfree. cbn [bind].
  eexists. split; [done|]. simpl. split.
  { apply (load_tv_lookup _ _ bdi'); [|by eapply block_with_tv_block_tv]. simpl.
    rewrite lookup_delete_ne by lia. by rewrite lookup_insert_eq. }
  split; [done|]. split.
  - intros x Hx Hxdi. rewrite lookup_delete_ne by lia. rewrite lookup_insert_ne by done.
    apply lookup_union_l. rewrite HXl. rewrite decide_False by lia. done.
  - intros x Hx1 Hx2. rewrite lookup_delete_ne by lia. rewrite lookup_insert_ne by lia.
    rewrite lookup_union_r by (apply Hmc; lia). rewrite HXl. by rewrite decide_True by lia.
Qed.



(** ** vim_to_object on containers *)

Lemma convert_dict_items_keys rec arr : forall todo lookup kvs lookup',
  convert_dict_items rec todo arr lookup = Done (kvs, lookup') ->
  length kvs = todo /\ kvs.*1 = take todo (cstr <$> live_keys arr).
Proof.
  induction arr as [|hi arr IH]; intros todo lookup kvs lookup' H.
  - destruct todo; simpl in H; [|done]. by injection H as <- _.
  - destruct todo as [|todo]; simpl in H.
    { by injection H as <- _. }
    destruct hi as [| |key di]; try exact (IH (S todo) lookup kvs lookup' H).
    inv_bind H. destruct a as [o lk1]. inv_bind H. destruct a as [kvs1 lk2].
    injection H as <- _. destruct (IH _ _ _ _ Ha0) as [Hlen Hkeys].
    split; [simpl; by rewrite Hlen|]. cbn [fmap list_fmap fst].
    change (cstr key :: kvs1.*1 = cstr key :: take todo (cstr <$> live_keys arr)).
    by rewrite Hkeys.
Qed.

Lemma live_keys_length arr : length (live_keys arr) = length (live_items arr).
Proof.
  induction arr as [|[| |k di] arr IH]; simpl; try done. by rewrite IH.
Qed.

Lemma count_items_overrun arr : forall todo,
  (length (live_items arr) < todo)%nat -> count_items todo arr = Fault.
Proof.
  induction arr as [|hi arr IH]; intros todo Hlt.
  - destruct todo; [simpl in Hlt; lia|done].
  - destruct todo as [|todo]; [lia|]. simpl.
    destruct hi as [| |k di]; simpl in *; try (apply IH; lia).
    rewrite IH by lia. done.
Qed.

(** A list converts to an Array with one element for each of its items,
    also when some of them are cut because the list contains itself. *)
Theorem vim_to_object_list (m : mem) (obj l : addr) (lck : Z) (lv : list_T) :
  mem_wf m ->
  load_tv m obj = Done {| v_lock := lck; vval := V_LIST (Some l) |} ->
  load_list m l = Done lv ->
  exists items,
    vim_to_object m obj = Done (ObjArray items) /\
    length items = length (lv_items lv).
Proof.
  intros Hwf Htv Hl.
  destruct (vim_to_object_total m obj Hwf (load_tv_is_cell_b _ _ _ Htv)) as [v Hv].
  rewrite Hv. unfold vim_to_object in Hv. inv_bind Hv. destruct a as [v0 lk].
  injection Hv as <-. cbn [vim_to_object_rec] in Ha. rewrite Htv in Ha.
  cbn [bind] in Ha. unfold is_container in Ha. simpl in Ha.
  rewrite bool_decide_eq_false_2 in Ha by set_solver.
  rewrite Hl in Ha. cbn [bind] in Ha. inv_bind Ha. destruct a as [items lk1].
  injection Ha as <- _. exists items. split; [done|].
  by eapply convert_list_items_length.
Qed.

(** A dictionary converts to a Dictionary with one pair for each live slot
    of its hashtable, in the order of the table: the slots that were never
    used or were removed are skipped. *)
Theorem vim_to_object_dict (m : mem) (obj d : addr) (lck : Z) (dv : dict_T) :
  mem_wf m ->
  load_tv m obj = Done {| v_lock := lck; vval := V_DICT (Some d) |} ->
  load_dict m d = Done dv ->
  exists kvs,
    vim_to_object m obj = Done (ObjDictionary kvs) /\
    length kvs = ht_used (dv_hashtab dv) /\
    kvs.*1 = cstr <$> live_keys (ht_array (dv_hashtab dv)).
Proof.
  intros Hwf Htv Hd.
  destruct (vim_to_object_total m obj Hwf (load_tv_is_cell_b _ _ _ Htv)) as [v Hv].
  rewrite Hv. unfold vim_to_object in Hv. inv_bind Hv. destruct a as [v0 lk].
  injection Hv as <-. cbn [vim_to_object_rec] in Ha. rewrite Htv in Ha.
  cbn [bind] in Ha. unfold is_container in Ha. simpl in Ha.
  rewrite bool_decide_eq_false_2 in Ha by set_solver.
  rewrite Hd in Ha. cbn [bind] in Ha. inv_bind Ha. inv_bind Ha.
  destruct a0 as [kvs lk1]. injection Ha as <- _. exists kvs. split; [done|].
  destruct (convert_dict_items_keys _ _ _ _ _ _ Ha1) as [Hlen Hkeys].
  split; [done|]. rewrite Hkeys.
  destruct (mem_wf_load_dict _ _ _ Hwf Hd) as [Hused _].
  rewrite Hused, <- live_keys_length, <- (length_fmap cstr). apply firstn_all.
Qed.

(** The two loops over the hashtable stop on [todo] alone: when [ht_used]
    says more than the table has live slots, they leave the array. *)
Theorem vim_to_object_dict_overrun (m : mem) (obj d : addr) (lck : Z) (dv : dict_T) :
  load_tv m obj = Done {| v_lock := lck; vval := V_DICT (Some d) |} ->
  load_dict m d = Done dv ->
  (length (live_items (ht_array (dv_hashtab dv))) < ht_used (dv_hashtab dv))%nat ->
  vim_to_object m obj = Fault.
Proof.
  intros Htv Hd Hlt. unfold vim_to_object. cbn [vim_to_object_rec]. rewrite Htv.
  cbn [bind]. unfold is_container. simpl.
  rewrite bool_decide_eq_false_2 by set_solver.
  rewrite Hd. cbn [bind]. by rewrite count_items_overrun.
Qed.


(** ** object_to_vim: what it accepts *)

Lemma array_to_vim_verdict items :
  Forall verdict items ->
  forall l m err ok m' err',
    array_to_vim object_to_vim l items m err = Done (ok, m', err') ->
    ok = forallb convertible items /\
    err' = if ok then err
           else set_api_error "Empty dictionary keys aren't allowed" err.
Proof.
  induction 1 as [|item rest Hitem _ IH]; intros l m err ok m' err' H; simpl in H.
  - by injection H as <- _ <-.
  - unfold listitem_alloc, alloc in H. cbn [fst snd] in H.
    inv_bind H. destruct a as [[ok1 m1] err1].
    destruct (Hitem _ _ _ _ _ _ Ha) as [-> ->]. simpl.
    destruct (convertible item).
    + inv_bind H. by apply IH in H.
    + inv_bind H. inv_bind H. by injection H as <- _ <-.
Qed.

Lemma dictionary_to_vim_verdict items :
  Forall (fun kv => verdict kv.2) items ->
  forall d m err ok m' err',
    dictionary_to_vim object_to_vim d items m err = Done (ok, m', err') ->
    ok = dict_items_convertible items /\
    err' = if ok then err
           else set_api_error "Empty dictionary keys aren't allowed" err.
Proof.
  induction 1 as [|[key value] rest Hitem _ IH]; intros d m err ok m' err' H; simpl in H.
  - by injection H as <- _ <-.
  - unfold dict_items_convertible. cbn [forallb].
    destruct (String.length key =? 0)%nat.
    { inv_bind H. by injection H as <- _ <-. }
    unfold dictitem_alloc, alloc in H. cbn [fst snd] in H.
    inv_bind H. destruct a as [[ok1 m1] err1].
    destruct (Hitem _ _ _ _ _ _ Ha) as [-> ->]. cbn [snd negb andb] in *.
    destruct (convertible value).
    + inv_bind H. by apply IH in H.
    + inv_bind H. inv_bind H. by injection H as <- _ <-.
Qed.

Lemma object_to_vim_verdict obj : verdict obj.
Proof.
  induction obj as [|b|i|f|s|items IH|items IH] using Object_nested_ind;
    intros tv m err ok m' err' H; cbn [object_to_vim] in H; inv_bind H;
    try (inv_bind H; by injection H as <- _ <-).
  - unfold list_alloc, alloc in H. cbn [fst snd] in H. inv_bind H. inv_bind H.
    destruct a1 as [[ok1 m1] err1].
    destruct (array_to_vim_verdict items IH _ _ _ _ _ _ Ha1) as [-> ->]. simpl.
    destruct (forallb convertible items).
    + inv_bind H. by injection H as <- _ <-.
    + by injection H as <- _ <-.
  - unfold dict_alloc, alloc in H. cbn [fst snd] in H. inv_bind H. inv_bind H.
    destruct a1 as [[ok1 m1] err1].
    destruct (dictionary_to_vim_verdict items IH _ _ _ _ _ _ Ha1) as [-> ->].
    change (convertible (ObjDictionary items)) with (dict_items_convertible items).
    destruct (dict_items_convertible items).
    + inv_bind H. by injection H as <- _ <-.
    + by injection H as <- _ <-.
Qed.

(** [object_to_vim] accepts exactly the Values in which no dictionary, at any
    depth, has an empty key: on them it returns true and leaves the Error
    alone; whenever it returns false, the Value has such a key and the Error
    is "Empty dictionary keys aren't allowed", the only error it reports. *)
Theorem object_to_vim_accepts (obj : Object) (tv : addr) (m : mem) (err : Error) :
  (convertible obj = true -> mem_valid m -> is_cell_b m tv = true ->
   exists m', object_to_vim obj tv m err = Done (true, m', err)) /\
  (forall ok m' err',
     object_to_vim obj tv m err = Done (ok, m', err') ->
     ok = convertible obj /\
     err' = if ok then err
            else set_api_error "Empty dictionary keys aren't allowed" err).
Proof.
  split.
  - intros Hconv Hv Hcell.
    destruct (is_cell_b_lookup _ _ Hcell) as (b0 & tv0 & Hb0 & Hc0).
    destruct (object_to_vim_ok obj Hconv tv m err b0 tv0 Hv Hb0 Hc0)
      as (m' & _ & _ & Hrun & _). by exists m'.
  - apply object_to_vim_verdict.
Qed.

(** Whatever it is given and whatever it returns, [object_to_vim] writes to
    [tv] and to what it allocates only: every other block of the memory it
    found is as it was, [tv] is still a typval_T, and no address handed out
    before is handed out again. *)
Theorem object_to_vim_writes_tv_only (obj : Object) (tv : addr) (m m' : mem)
    (err err' : Error) (ok : bool) :
  mem_valid m ->
  object_to_vim obj tv m err = Done (ok, m', err') ->
  (forall x b, blocks m !! x = Some b -> x <> tv -> blocks m' !! x = Some b) /\
  is_cell_b m' tv = true /\
  (next m <= next m')%positive /\
  mem_valid m'.
Proof.
  intros Hv Hrun.
  destruct (object_to_vim_frame obj tv m err ok m' err' Hv Hrun) as (Hfr & Hcell & Hn & Hv').
  split; [|done]. intros x b Hb Hx. rewrite Hfr; [done| |done]. by apply (Hv x b).
Qed.


(** ** object_to_vim: what it leaves in tv *)

Lemma object_to_vim_tv obj tv m err ok m' err' :
  mem_valid m ->
  object_to_vim obj tv m err = Done (ok, m', err') ->
  load_tv m' tv = Done {| v_lock := 0; vval := vval_of obj (next m) |}.
Proof.
  intros Hv H.
  assert (Hstores : forall tv1 tv2 m1 m2,
            store_tv tv tv1 m = Done m1 -> store_tv tv tv2 m1 = Done m2 ->
            load_tv m2 tv = Done tv2).
  { intros tv1 tv2 m1 m2 H1 H2.
    apply store_tv_inv in H2 as (b1 & b2 & Hb1 & Hb2 & ->).
    apply (load_tv_lookup _ _ b2); [simpl; by rewrite lookup_insert_eq|].
    by eapply block_with_tv_block_tv. }
  destruct obj as [|b|i|f|s|items|items]; cbn [object_to_vim] in H;
    inv_bind H; rename a into m1.
  1-5: inv_bind H; injection H as _ <- _; by eapply Hstores.
  - unfold list_alloc, alloc in H. cbn [fst snd] in H.
    apply store_tv_inv in Ha as (b & b1 & Hb & Hb1 & ->). simpl in H.
    pose proof (Hv _ _ Hb) as Hlt.
    inv_bind H. rename a into m3.
    apply store_tv_inv in Ha as (b1' & b2 & Hb1' & Hb2 & ->). simpl in *.
    rewrite lookup_insert_ne in Hb1' by lia. rewrite lookup_insert_eq in Hb1'.
    injection Hb1' as <-.
    set (l := next m) in *.
    set (ml := {| blocks := <[l := B_list {| lv_items := []; lv_refcount := 0; lv_lock := 0 |}]>
                              (<[tv := b2]> (blocks m));
                  next := Pos.succ l |}).
    assert (Hcomm : {| blocks := <[tv := b2]> (<[l := B_list {| lv_items := [];
                         lv_refcount := 0; lv_lock := 0 |}]> (<[tv := b1]> (blocks m)));
                       next := Pos.succ l |} = ml).
    { unfold ml. f_equal. rewrite insert_insert_ne by lia. by rewrite insert_insert_eq. }
    rewrite Hcomm in H. clear Hcomm.
    assert (kept l ml ml) as Hk0.
    { refine (kept_fresh {| blocks := <[tv := b2]> (blocks m); next := l |} l
                (B_list {| lv_items := []; lv_refcount := 0; lv_lock := 0 |})
                _ eq_refl eq_refl).
      unfold mem_valid; simpl. apply (valid_blocks_insert _ l); [done|lia|done]. }
    inv_bind H. destruct a as [[ok1 m4] err4].
    assert (kept l ml m4) as Hk4.
    { eapply array_to_vim_kept; [| | |exact Ha]; [|done|lia].
      rewrite Forall_forall. intros. apply object_to_vim_kept. }
    assert (kept l ml m') as (Hcl & Hfr & Hv' & Hn' & Hn0').
    { destruct ok1; [|by injection H as _ <- _].
      inv_bind H. injection H as _ <- _.
      unfold list_ref in Ha0. inv_bind Ha0. rename a0 into lv.
      eapply kept_store_list; [| | |exact Ha0]; [done|lia|]. simpl.
      intros p Hp. exact (kept_load_list l ml m4 l lv p Hk4 (Pos.le_refl _) Ha1 Hp). }
    apply (load_tv_lookup _ _ b2); [|by eapply block_with_tv_block_tv].
    rewrite Hfr by done. unfold ml; simpl.
    rewrite lookup_insert_ne by lia. by rewrite lookup_insert_eq.
  - unfold dict_alloc, alloc in H. cbn [fst snd] in H.
    apply store_tv_inv in Ha as (b & b1 & Hb & Hb1 & ->). simpl in H.
    pose proof (Hv _ _ Hb) as Hlt.
    inv_bind H. rename a into m3.
    apply store_tv_inv in Ha as (b1' & b2 & Hb1' & Hb2 & ->). simpl in *.
    rewrite lookup_insert_ne in Hb1' by lia. rewrite lookup_insert_eq in Hb1'.
    injection Hb1' as <-.
    set (d := next m) in *.
    set (d0 := B_dict {| dv_lock := 0; dv_refcount := 0;
                         dv_hashtab := {| ht_used := O; ht_array := [] |} |}) in *.
    set (ml := {| blocks := <[d := d0]> (<[tv := b2]> (blocks m)); next := Pos.succ d |}).
    assert (Hcomm : {| blocks := <[tv := b2]> (<[d := d0]> (<[tv := b1]> (blocks m)));
                       next := Pos.succ d |} = ml).
    { unfold ml. f_equal. rewrite insert_insert_ne by lia. by rewrite insert_insert_eq. }
    rewrite Hcomm in H. clear Hcomm.
    assert (kept d ml ml) as Hk0.
    { refine (kept_fresh {| blocks := <[tv := b2]> (blocks m); next := d |} d d0
                _ eq_refl eq_refl).
      unfold mem_valid; simpl. apply (valid_blocks_insert _ d); [done|lia|done]. }
    inv_bind H. destruct a as [[ok1 m4] err4].
    assert (kept d ml m4) as Hk4.
    { eapply dictionary_to_vim_kept; [| | |exact Ha]; [|done|lia].
      rewrite Forall_forall. intros. apply object_to_vim_kept. }
    assert (kept d ml m') as (Hcl & Hfr & Hv' & Hn' & Hn0').
    { destruct ok1; [|by injection H as _ <- _].
      inv_bind H. injection H as _ <- _.
      unfold dict_ref in Ha0. inv_bind Ha0. rename a0 into dv.
      eapply kept_store_dict; [| | |exact Ha0]; [done|lia|]. simpl.
      intros p Hp. exact (kept_load_dict d ml m4 d dv p Hk4 (Pos.le_refl _) Ha1 Hp). }
    apply (load_tv_lookup _ _ b2); [|by eapply block_with_tv_block_tv].
    rewrite Hfr by done. unfold ml; simpl.
    rewrite lookup_insert_ne by lia. by rewrite lookup_insert_eq.
Qed.

Lemma free_gone a m m' : free a m = Done m' -> blocks m' !! a = None.
Proof.
  unfold free. destruct (blocks m !! a); [|done]. intros [= <-]. simpl.
  by rewrite lookup_delete_eq.
Qed.

Lemma array_to_vim_false rec items : forall l m err m' err',
  array_to_vim rec l items m err = Done (false, m', err') -> blocks m' !! l = None.
Proof.
  induction items as [|item rest IH]; intros l m err m' err' H; simpl in H; [done|].
  unfold listitem_alloc, alloc in H. cbn [fst snd] in H.
  inv_bind H. destruct a as [[ok1 m1] err1]. destruct ok1.
  - inv_bind H. by eapply IH.
  - inv_bind H. inv_bind H. injection H as <- _.
    unfold list_free, list_free_with in Ha1. inv_bind Ha1. inv_bind Ha1.
    by eapply free_gone.
Qed.

Lemma dictionary_to_vim_false rec items : forall d m err m' err',
  dictionary_to_vim rec d items m err = Done (false, m', err') -> blocks m' !! d = None.
Proof.
  assert (Hfree : forall d m m', dict_free d true m = Done m' -> blocks m' !! d = None).
  { intros d m m' H. unfold dict_free, dict_free_with in H. inv_bind H. inv_bind H.
    by eapply free_gone. }
  induction items as [|[key value] rest IH]; intros d m err m' err' H; simpl in H; [done|].
  destruct (String.length key =? 0)%nat.
  { inv_bind H. injection H as <- _. by eapply Hfree. }
  unfold dictitem_alloc, alloc in H. cbn [fst snd] in H.
  inv_bind H. destruct a as [[ok1 m1] err1]. destruct ok1.
  - inv_bind H. by eapply IH.
  - inv_bind H. inv_bind H. injection H as <- _. by eapply Hfree.
Qed.

Lemma object_to_vim_false_freed obj tv m err m' err' :
  object_to_vim obj tv m err = Done (false, m', err') -> blocks m' !! next m = None.
Proof.
  intros H. destruct obj as [|b|i|f|s|items|items]; cbn [object_to_vim] in H;
    inv_bind H; rename a into m1.
  1-5: inv_bind H; done.
  - apply store_tv_inv in Ha as (b & b1 & Hb & Hb1 & ->).
    unfold list_alloc, alloc in H. cbn [fst snd next] in H.
    inv_bind H. inv_bind H. destruct a0 as [[ok1 m4] err4]. destruct ok1.
    + inv_bind H. done.
    + injection H as <- _. by eapply array_to_vim_false.
  - apply store_tv_inv in Ha as (b & b1 & Hb & Hb1 & ->).
    unfold dict_alloc, alloc in H. cbn [fst snd next] in H.
    inv_bind H. inv_bind H. destruct a0 as [[ok1 m4] err4]. destruct ok1.
    + inv_bind H. done.
    + injection H as <- _. by eapply dictionary_to_vim_false.
Qed.

(** What [tv] holds after the call, whatever was returned: the Number 0 for
    Nil, 0 or 1 for a Boolean, the number of an Integer, the bytes of a
    String up to a NUL, and for an Array or a Dictionary the container
    allocated first, with [v_lock] 0.  After a false that container is
    freed, and [tv] still points to it. *)
Theorem object_to_vim_sets_tv (obj : Object) (tv : addr) (m m' : mem)
    (err err' : Error) (ok : bool) :
  mem_valid m ->
  object_to_vim obj tv m err = Done (ok, m', err') ->
  load_tv m' tv = Done {| v_lock := 0; vval := vval_of obj (next m) |} /\
  (ok = false ->
   ((exists items, obj = ObjArray items) \/ (exists items, obj = ObjDictionary items)) /\
   blocks m' !! next m = None).
Proof.
  intros Hv H. split; [by eapply object_to_vim_tv|].
  intros ->. split; [|by eapply object_to_vim_false_freed].
  destruct (object_to_vim_verdict _ _ _ _ _ _ _ H) as [Hc _].
  destruct obj; try done; eauto.
Qed.


(** ** object_to_vim: when it returns false *)

Lemma clear_tv_dangling a m tv c :
  load_tv m a = Done tv ->
  vval tv = V_LIST (Some c) \/ vval tv = V_DICT (Some c) ->
  blocks m !! c = None ->
  clear_tv a m = Fault.
Proof.
  intros Htv Hvv Hc. unfold clear_tv, clear_fuel. cbn [clear_tv_fuel].
  rewrite Htv. cbn [bind].
  destruct Hvv as [-> | ->].
  - unfold list_unref_with, load_list. by rewrite Hc.
  - unfold dict_unref_with, load_dict. by rewrite Hc.
Qed.

(** The cleanup after a nested call that returned false cannot complete:
    the typval_T of the new item points to the container the nested call
    has freed. *)
Lemma failed_item_release obj it m err m' err' :
  mem_valid m ->
  object_to_vim obj it m err = Done (false, m', err') ->
  clear_tv it m' = Fault.
Proof.
  intros Hv H.
  pose proof (object_to_vim_tv _ _ _ _ _ _ _ Hv H) as Htv.
  pose proof (object_to_vim_false_freed _ _ _ _ _ _ H) as Hfreed.
  destruct (object_to_vim_verdict _ _ _ _ _ _ _ H) as [Hc _].
  apply (clear_tv_dangling it m' _ (next m) Htv); [|done].
  destruct obj; try done; simpl; auto.
Qed.

Lemma store_list_valid l lv m m' :
  mem_valid m -> store_list l lv m = Done m' -> mem_valid m'.
Proof.
  intros Hv H. unfold store_list in H.
  destruct (blocks m !! l) as [[]|] eqn:E; try done. injection H as <-.
  unfold mem_valid; simpl. pose proof (Hv _ _ E).
  apply (valid_blocks_insert _ (next m)); [done|lia|done].
Qed.

Lemma store_dict_valid d dv m m' :
  mem_valid m -> store_dict d dv m = Done m' -> mem_valid m'.
Proof.
  intros Hv H. unfold store_dict in H.
  destruct (blocks m !! d) as [[]|] eqn:E; try done. injection H as <-.
  unfold mem_valid; simpl. pose proof (Hv _ _ E).
  apply (valid_blocks_insert _ (next m)); [done|lia|done].
Qed.

Lemma store_tv_valid a tv m m' :
  mem_valid m -> store_tv a tv m = Done m' -> mem_valid m'.
Proof.
  intros Hv H. apply store_tv_inv in H as (b & b' & Hb & _ & ->).
  unfold mem_valid; simpl. pose proof (Hv _ _ Hb).
  apply (valid_blocks_insert _ (next m)); [done|lia|done].
Qed.

Lemma alloc_valid b m : mem_valid m -> mem_valid (alloc b m).2.
Proof.
  intros Hv. unfold mem_valid, alloc; simpl.
  apply (valid_blocks_insert _ (next m)); [done|lia|lia].
Qed.

Lemma array_to_vim_not_false items : forall l m err m' err',
  mem_valid m ->
  array_to_vim object_to_vim l items m err <> Done (false, m', err').
Proof.
  induction items as [|item rest IH]; intros l m err m' err' Hv H; simpl in H; [done|].
  unfold listitem_alloc, alloc in H. cbn [fst snd] in H.
  pose proof (alloc_valid (B_listitem uninit_tv) m Hv) as Hv1.
  unfold alloc in Hv1. cbn [snd] in Hv1.
  inv_bind H. destruct a as [[ok1 m2] err2].
  destruct (object_to_vim_frame _ _ _ _ _ _ _ Hv1 Ha) as (_ & _ & _ & Hv2).
  destruct ok1.
  - inv_bind H. unfold list_append in Ha0. inv_bind Ha0.
    eapply IH; [|exact H]. by eapply store_list_valid.
  - inv_bind H. unfold listitem_free in Ha0.
    by rewrite (failed_item_release _ _ _ _ _ _ Hv1 Ha) in Ha0.
Qed.

Lemma dictionary_to_vim_false_shape items : forall d m err m' err',
  mem_valid m ->
  dictionary_to_vim object_to_vim d items m err = Done (false, m', err') ->
  exists pre k val rest,
    items = pre ++ (k, val) :: rest /\ String.length k = O /\
    dict_items_convertible pre = true.
Proof.
  induction items as [|[key value] rest IH]; intros d m err m' err' Hv H; simpl in H;
    [done|].
  destruct (String.length key =? 0)%nat eqn:Hkey.
  { exists [], key, value, rest. split; [done|]. split; [|done]. by apply Nat.eqb_eq. }
  unfold dictitem_alloc, alloc in H. cbn [fst snd] in H.
  pose proof (alloc_valid (B_dictitem (cstr key) uninit_tv) m Hv) as Hv1.
  unfold alloc in Hv1. cbn [snd] in Hv1.
  inv_bind H. destruct a as [[ok1 m2] err2].
  destruct (object_to_vim_frame _ _ _ _ _ _ _ Hv1 Ha) as (_ & _ & _ & Hv2).
  destruct ok1.
  - destruct (object_to_vim_verdict _ _ _ _ _ _ _ Ha) as [Hc _].
    inv_bind H. unfold dict_add in Ha0. inv_bind Ha0. inv_bind Ha0.
    destruct (hash_add (dv_hashtab a0) a1 (next m)) as [added ht]. inv_bind Ha0.
    injection Ha0 as <-. simpl in H.
    destruct (IH _ _ _ _ _ (store_dict_valid _ _ _ _ Hv2 Ha3) H)
      as (pre & k & val & rest' & -> & Hk & Hpre).
    exists ((key, value) :: pre), k, val, rest'. split; [done|]. split; [done|].
    unfold dict_items_convertible in *. cbn [forallb]. by rewrite Hkey, <- Hc, Hpre.
  - inv_bind H. unfold dictitem_free in Ha0.
    by rewrite (failed_item_release _ _ _ _ _ _ Hv1 Ha) in Ha0.
Qed.

(** [object_to_vim] returns false in one case only: the Value is a
    Dictionary and the first of its own pairs that is not accepted has an
    empty key.  It never returns false for an Array, nor when the value of a
    pair or an element is what fails: there the cleanup releases the
    container that the nested call has freed already.  After a false, [tv]
    is a Dict typval_T that points to the freed dictionary. *)
Theorem object_to_vim_false (obj : Object) (tv : addr) (m m' : mem)
    (err err' : Error) :
  mem_valid m ->
  object_to_vim obj tv m err = Done (false, m', err') ->
  (exists pre k val rest,
     obj = ObjDictionary (pre ++ (k, val) :: rest) /\ String.length k = O /\
     dict_items_convertible pre = true) /\
  err' = set_api_error "Empty dictionary keys aren't allowed" err /\
  load_tv m' tv = Done {| v_lock := 0; vval := V_DICT (Some (next m)) |} /\
  blocks m' !! next m = None.
Proof.
  intros Hv H.
  pose proof (object_to_vim_tv _ _ _ _ _ _ _ Hv H) as Htv.
  pose proof (object_to_vim_false_freed _ _ _ _ _ _ H) as Hfreed.
  destruct (object_to_vim_verdict _ _ _ _ _ _ _ H) as [Hc ->].
  assert (exists pre k val rest,
            obj = ObjDictionary (pre ++ (k, val) :: rest) /\ String.length k = O /\
            dict_items_convertible pre = true) as Hshape.
  { destruct obj as [|b|i|f|s|items|items]; try done; cbn [object_to_vim] in H;
      inv_bind H; rename a into m1.
    - apply store_tv_inv in Ha as (b & b1 & Hb & Hb1 & ->).
      pose proof (Hv _ _ Hb) as Hlt.
      unfold list_alloc, alloc in H. cbn [fst snd next blocks] in H.
      inv_bind H. rename a into m3. inv_bind H. destruct a as [[ok1 m4] err4].
      destruct ok1; [by inv_bind H|]. exfalso.
      eapply array_to_vim_not_false; [|exact Ha0].
      eapply store_tv_valid; [|exact Ha].
      unfold mem_valid; simpl.
      apply (valid_blocks_insert _ (next m)); [|lia|lia].
      apply (valid_blocks_insert _ (next m)); [done|lia|done].
    - apply store_tv_inv in Ha as (b & b1 & Hb & Hb1 & ->).
      pose proof (Hv _ _ Hb) as Hlt.
      unfold dict_alloc, alloc in H. cbn [fst snd next blocks] in H.
      inv_bind H. rename a into m3. inv_bind H. destruct a as [[ok1 m4] err4].
      destruct ok1; [by inv_bind H|].
      assert (mem_valid m3) as Hv3.
      { eapply store_tv_valid; [|exact Ha].
        unfold mem_valid; simpl.
        apply (valid_blocks_insert _ (next m)); [|lia|lia].
        apply (valid_blocks_insert _ (next m)); [done|lia|done]. }
      destruct (dictionary_to_vim_false_shape items _ _ _ _ _ Hv3 Ha0)
        as (pre & k & val & rest & -> & Hk & Hpre).
      by exists pre, k, val, rest. }
  split; [done|]. split; [done|]. split; [|done].
  destruct Hshape as (pre & k & val & rest & -> & _). exact Htv.
Qed.


(** ** What object_to_vim built is released as a whole *)

Lemma tiles_le lo C hi : tiles lo C hi -> (lo <= hi)%positive.
Proof.
  revert lo. induction C as [|[a e] C IH]; intros lo; simpl.
  - intros ->. lia.
  - intros (-> & Hlt & Ht). specialize (IH _ Ht). lia.
Qed.

Lemma tiles_in lo C hi a e :
  tiles lo C hi -> (a, e) ∈ C -> (lo <= a)%positive /\ (a < e)%positive /\ (e <= hi)%positive.
Proof.
  revert lo. induction C as [|[a' e'] C IH]; intros lo Ht Hin.
  - by apply elem_of_nil in Hin.
  - destruct Ht as (-> & Hlt & Ht). pose proof (tiles_le _ _ _ Ht).
    apply elem_of_cons in Hin as [[= -> ->]|Hin]; [lia|].
    specialize (IH _ Ht Hin). lia.
Qed.

Lemma tiles_cover lo C hi x :
  tiles lo C hi -> in_range lo hi x -> exists a e, (a, e) ∈ C /\ in_range a e x.
Proof.
  revert lo. induction C as [|[a' e'] C IH]; intros lo Ht [Hlo Hhi]; simpl in Ht.
  - subst. lia.
  - destruct Ht as (-> & Hlt & Ht).
    destruct (decide (x < e')%positive) as [Hx|Hx].
    + exists lo, e'. split; [by left | by split].
    + destruct (IH e' Ht) as (a & e & Hin & Hr); [split; lia|].
      exists a, e. split; [by right | done].
Qed.

Lemma tiles_disjoint lo C hi a e a' e' x :
  tiles lo C hi -> (a, e) ∈ C -> (a', e') ∈ C ->
  in_range a e x -> in_range a' e' x -> a = a' /\ e = e'.
Proof.
  revert lo. induction C as [|[a0 e0] C IH]; intros lo Ht Hin Hin' [H1 H2] [H3 H4].
  - by apply elem_of_nil in Hin.
  - destruct Ht as (-> & Hlt & Ht).
    apply elem_of_cons in Hin as [[= -> ->]|Hin];
      apply elem_of_cons in Hin' as [[= -> ->]|Hin'].
    + done.
    + destruct (tiles_in _ _ _ _ _ Ht Hin'). lia.
    + destruct (tiles_in _ _ _ _ _ Ht Hin). lia.
    + by apply (IH e0).
Qed.

Lemma tiles_app lo C mid C' hi :
  tiles lo C mid -> tiles mid C' hi -> tiles lo (C ++ C') hi.
Proof.
  revert lo. induction C as [|[a e] C IH]; intros lo; simpl.
  - by intros ->.
  - intros (-> & Hlt & Ht) Ht'. split; [done|]. split; [done|]. by apply IH.
Qed.

Lemma tiles_NoDup lo C hi : tiles lo C hi -> NoDup C.*1.
Proof.
  revert lo. induction C as [|[a e] C IH]; intros lo Ht; simpl.
  - constructor.
  - destruct Ht as (-> & Hlt & Ht). constructor; [|by eapply IH].
    intros Hin. apply list_elem_of_fmap in Hin as ([a' e'] & -> & Hin).
    destruct (tiles_in _ _ _ _ _ Ht Hin). simpl in *. lia.
Qed.

(** A memory that has a block at every address of a range has at least as
    many blocks as the range has addresses. *)
Lemma range_size (n : nat) : forall (lo hi : addr) (bs : gmap addr block),
  (Pos.to_nat hi - Pos.to_nat lo = n)%nat ->
  (forall x, in_range lo hi x -> is_Some (bs !! x)) ->
  (n <= size bs)%nat.
Proof.
  induction n as [|n IH]; intros lo hi bs Hn Hlive; [lia|].
  assert (is_Some (bs !! lo)) as Hlo by (apply Hlive; split; lia).
  specialize (IH (Pos.succ lo) hi (delete lo bs)).
  rewrite map_size_delete_Some in IH by done.
  pose proof (map_size_ne_0_lookup_2 bs lo Hlo).
  assert (n <= pred (size bs))%nat; [|lia].
  apply IH; [lia|]. intros x [H1 H2]. rewrite lookup_delete_ne by lia.
  apply Hlive. split; lia.
Qed.

Lemma frees_back_agree m1 m2 lo hi vv :
  frees_back m1 lo hi vv ->
  (forall x, in_range lo hi x -> blocks m2 !! x = blocks m1 !! x) ->
  frees_back m2 lo hi vv.
Proof.
  intros H Hag M root b tvr fuel Hb Htv Hvv Hroot HagM Hfuel.
  apply (H M root b tvr fuel); try done.
  intros x Hx. rewrite HagM by done. by apply Hag.
Qed.

(** Freeing the items of a container, in any order: the range of every item
    goes, the rest stays. *)
Lemma free_items_cells m' lo C hi f :
  tiles lo C hi ->
  Forall (cell_frees m') C ->
  (Pos.to_nat hi - Pos.to_nat lo <= f)%nat ->
  forall items,
    NoDup items ->
    (forall a, a ∈ items -> a ∈ C.*1) ->
    forall M,
      (forall a e x, a ∈ items -> (a, e) ∈ C -> in_range a e x ->
         blocks M !! x = blocks m' !! x) ->
      exists M',
        free_items (clear_tv_fuel f) true items M = Done M' /\
        next M' = next M /\
        (forall a e x, a ∈ items -> (a, e) ∈ C -> in_range a e x ->
           blocks M' !! x = None) /\
        (forall x, (forall a e, a ∈ items -> (a, e) ∈ C -> ~ in_range a e x) ->
           blocks M' !! x = blocks M !! x).
Proof.
  intros Ht Hcells Hf.
  induction items as [|a rest IH]; intros Hnd Hsub M Hag.
  - exists M. split; [done|]. split; [done|]. split; [|done].
    intros a e x Hin. by apply elem_of_nil in Hin.
  - apply NoDup_cons in Hnd as [Hnotin Hnd].
    assert (a ∈ C.*1) as HaC by (apply Hsub; by left).
    apply list_elem_of_fmap in HaC as ([a' e] & Heq & HinC). simpl in Heq. subst a'.
    destruct (tiles_in _ _ _ _ _ Ht HinC) as (Hlo & Hlt & Hhi).
    rewrite Forall_forall in Hcells.
    destruct (Hcells _ HinC) as (b & tvv & Hb & Htvv & Hfrees). simpl in Hb, Hfrees.
    assert (HMa : blocks M !! a = Some b).
    { rewrite (Hag a e a); [done|by left|done|split; lia]. }
    destruct (Hfrees M a b tvv f HMa Htvv eq_refl) as (M1 & bc & Hclear & Hbc & Hroot & Hfr).
    { intros [? ?]. lia. }
    { intros x [H1 H2]. apply (Hag a e x); [by left|done|split; lia]. }
    { lia. }
    destruct Hfr as (Hn1 & Hnone1 & Hsame1).
    set (M2 := {| blocks := delete a (blocks M1); next := next M1 |}).
    assert (Hfree : free a M1 = Done M2).
    { unfold free. by rewrite Hroot. }
    assert (Hother : forall a0 e0 x, a0 ∈ rest -> (a0, e0) ∈ C -> in_range a0 e0 x ->
              ~ in_range a e x).
    { intros a0 e0 x Hin0 HinC0 Hx0 Hx.
      destruct (tiles_disjoint _ _ _ _ _ _ _ _ Ht HinC HinC0 Hx Hx0) as [-> _]. done. }
    destruct (IH Hnd) with (M := M2) as (M' & Hrun & Hn' & Hnone' & Hsame').
    { intros a0 Hin0. apply Hsub. by right. }
    { intros a0 e0 x Hin0 HinC0 Hx0.
      pose proof (Hother _ _ _ Hin0 HinC0 Hx0) as Hnot.
      unfold M2; simpl. rewrite lookup_delete_ne.
      2:{ intros <-. apply Hnot. split; lia. }
      rewrite Hsame1.
      - apply (Hag a0 e0 x); [by right|done|done].
      - intros [? ?]. apply Hnot. split; lia.
      - intros ->. apply Hnot. split; lia. }
    exists M'. split.
    { cbn [free_items]. rewrite (load_tv_lookup _ _ _ _ HMa Htvv). cbn [bind orb].
      rewrite Hclear. cbn [bind]. rewrite Hfree. cbn [bind]. exact Hrun. }
    split; [rewrite Hn'; simpl; done|]. split.
    + intros a0 e0 x Hin0 HinC0 Hx0. apply elem_of_cons in Hin0 as [->|Hin0].
      * destruct (tiles_disjoint _ _ _ _ _ _ _ a Ht HinC HinC0) as [_ <-].
        { split; lia. }
        { destruct (tiles_in _ _ _ _ _ Ht HinC0). split; lia. }
        rewrite Hsame'.
        2:{ intros a1 e1 Hin1 HinC1 Hx1. by apply (Hother _ _ _ Hin1 HinC1 Hx1). }
        unfold M2; simpl. destruct (decide (x = a)) as [->|Hne].
        { by rewrite lookup_delete_eq. }
        rewrite lookup_delete_ne by done. apply Hnone1.
        destruct Hx0. split; lia.
      * by eapply Hnone'.
    + intros x Hx. rewrite Hsame'.
      2:{ intros a1 e1 Hin1. apply Hx. by right. }
      assert (~ in_range a e x) as Hnot by (apply Hx; [by left|done]).
      unfold M2; simpl. rewrite lookup_delete_ne.
      2:{ intros <-. apply Hnot. split; lia. }
      apply Hsame1.
      * intros [? ?]. apply Hnot. split; lia.
      * intros ->. apply Hnot. split; lia.
Qed.

Lemma dict_items_well_keyed_convertible items :
  Forall (fun kv => well_keyed kv.2 = true -> convertible kv.2 = true) items ->
  dict_items_well_keyed items = true -> dict_items_convertible items = true.
Proof.
  unfold dict_items_well_keyed, dict_items_convertible.
  induction 1 as [|[k v] items Hkv _ IH]; simpl; [done|].
  intros H. apply andb_true_iff in H as [H1 H2].
  apply andb_true_iff in H1 as [Hlen Hp].
  simpl in Hkv. rewrite Hlen, (Hkv Hp), (IH H2). done.
Qed.

Lemma well_keyed_convertible v : well_keyed v = true -> convertible v = true.
Proof.
  induction v as [|b|i|f|s|items IH|items IH] using Object_nested_ind; simpl; try done.
  - induction IH as [|x xs Hx _ IHxs]; simpl; [done|].
    intros H. apply andb_true_iff in H as [H1 H2]. by rewrite (Hx H1), (IHxs H2).
  - intros H. apply andb_true_iff in H as [H _].
    by apply dict_items_well_keyed_convertible.
Qed.

Lemma frees_back_scalar m' lo vv :
  match vv with
  | V_NUMBER _ | V_FLOAT _ | V_STRING (Some _) => True
  | _ => False
  end ->
  frees_back m' lo lo vv.
Proof.
  intros Hvv M root b tvr fuel Hb Htv Heq Hroot Hag Hfuel.
  destruct fuel as [|fuel]; [lia|].
  destruct (block_with_tv_cell b tvr {| v_lock := 0; vval := cleared vv |} Htv)
    as (bc & Hbc & _ & _).
  exists {| blocks := <[root := bc]> (blocks M); next := next M |}, bc.
  split.
  { cbn [clear_tv_fuel]. rewrite (load_tv_lookup _ _ _ _ Hb Htv). cbn [bind].
    rewrite Heq. destruct vv as [|i|[s|]|fn|l|d|f]; try done;
      rewrite store_tv_eq, Hb; simpl in *; by rewrite Hbc. }
  split; [done|]. split; [simpl; by rewrite lookup_insert_eq|].
  split; [done|]. split.
  - intros x [? ?]. lia.
  - intros x _ Hx. simpl. by rewrite lookup_insert_ne.
Qed.

Lemma array_to_vim_frees items :
  Forall object_to_vim_frees items -> forallb well_keyed items = true ->
  forall l m err m' prev rc lck,
    mem_valid m ->
    blocks m !! l
    = Some (B_list {| lv_items := prev; lv_refcount := rc; lv_lock := lck |}) ->
    array_to_vim object_to_vim l items m err = Done (true, m', err) ->
    exists C,
      blocks m' !! l
      = Some (B_list {| lv_items := prev ++ C.*1; lv_refcount := rc; lv_lock := lck |}) /\
      tiles (next m) C (next m') /\
      Forall (cell_frees m') C /\
      (forall x, in_range (next m) (next m') x -> is_Some (blocks m' !! x)) /\
      (forall x, (x < next m)%positive -> x <> l -> blocks m' !! x = blocks m !! x) /\
      mem_valid m'.
Proof.
  induction 1 as [|item rest Hitem _ IH]; intros Hwk l m err m' prev rc lck Hv Hl H;
    simpl in H.
  - injection H as <-. exists []. simpl. rewrite app_nil_r.
    split; [done|]. split; [done|]. split; [done|]. split; [|done].
    intros x [? ?]. lia.
  - simpl in Hwk. apply andb_true_iff in Hwk as [Hwk1 Hwk2].
    pose proof (Hv _ _ Hl) as Hllt.
    unfold listitem_alloc, alloc in H. cbn [fst snd] in H.
    set (li := next m) in *.
    set (m1 := {| blocks := <[li := B_listitem uninit_tv]> (blocks m);
                  next := Pos.succ li |}) in *.
    assert (Hv1 : mem_valid m1) by apply (alloc_valid (B_listitem uninit_tv) m Hv).
    assert (Hn1 : next m1 = Pos.succ li) by reflexivity.
    inv_bind H. destruct a as [[ok1 m2] err2].
    destruct (object_to_vim_verdict _ _ _ _ _ _ _ Ha) as [Hok Herr].
    rewrite (well_keyed_convertible _ Hwk1) in Hok. subst ok1 err2.
    destruct (object_to_vim_frame _ _ _ _ _ _ _ Hv1 Ha) as (Hfr2 & Hcell2 & Hn2 & Hv2).
    pose proof (object_to_vim_tv _ _ _ _ _ _ _ Hv1 Ha) as Htv2.
    destruct (Hitem Hwk1 li m1 err m2 Hv1) as [Hlive2 Hfrees2]; [|done|].
    { unfold is_cell_b, m1; simpl. by rewrite lookup_insert_eq. }
    inv_bind H. rename a into m3.
    assert (Hl2 : blocks m2 !! l
                  = Some (B_list {| lv_items := prev; lv_refcount := rc; lv_lock := lck |})).
    { rewrite Hfr2 by lia. unfold m1; simpl. by rewrite lookup_insert_ne by lia. }
    unfold list_append in Ha0. rewrite (load_list_lookup _ _ _ Hl2) in Ha0.
    cbn [bind] in Ha0. rewrite (store_list_lookup _ _ _ _ Hl2) in Ha0.
    injection Ha0 as <-. simpl in H.
    set (m3 := {| blocks := <[l := _]> (blocks m2); next := next m2 |}) in *.
    destruct (IH Hwk2 l m3 err m' (prev ++ [li]) rc lck) as (C & HlC & Ht & Hcells & Hlive & Hfr & Hv');
      [|by (unfold m3; simpl; rewrite lookup_insert_eq)|done|].
    { unfold mem_valid, m3; simpl. apply (valid_blocks_insert _ (next m2)); [done|lia|lia]. }
    assert (Hn3 : next m3 = next m2) by reflexivity.
    pose proof (tiles_le _ _ _ Ht) as Hle.
    assert (Hsame : forall x, (x < next m2)%positive -> x <> l ->
              blocks m' !! x = blocks m2 !! x).
    { intros x Hx Hxl. rewrite Hfr by (rewrite ?Hn3; done). unfold m3; simpl.
      by rewrite lookup_insert_ne. }
    exists ((li, next m2) :: C). cbn [fmap list_fmap fst].
    split. { rewrite HlC. by rewrite <- app_assoc. }
    split. { simpl. split; [done|]. split; [lia|]. by rewrite <- Hn3. }
    split.
    { constructor; [|done].
      destruct (is_cell_b_lookup _ _ (load_tv_is_cell_b _ _ _ Htv2)) as (b2 & tv2 & Hb2 & Hc2).
      exists b2, tv2. simpl. split; [rewrite Hsame by lia; done|]. split; [done|].
      rewrite (load_tv_lookup _ _ _ _ Hb2 Hc2) in Htv2. injection Htv2 as ->. simpl.
      apply (frees_back_agree m2); [by rewrite <- Hn1|].
      intros x [? ?]. apply Hsame; lia. }
    split.
    { intros x [Hx1 Hx2].
      destruct (decide (x < next m2)%positive) as [Hlt|Hge].
      - rewrite Hsame by lia. destruct (decide (x = li)) as [->|Hne].
        + unfold is_cell_b in Hcell2. destruct (blocks m2 !! li); [eauto|done].
        + apply Hlive2. rewrite Hn1. split; lia.
      - apply Hlive. rewrite Hn3. split; lia. }
    split; [|done].
    intros x Hx Hxl. rewrite Hsame by lia. rewrite Hfr2 by lia.
    unfold m1; simpl. by rewrite lookup_insert_ne by lia.
Qed.

Lemma live_items_Permutation arr arr' :
  arr ≡ₚ arr' -> live_items arr ≡ₚ live_items arr'.
Proof. intros H. unfold live_items. by rewrite H. Qed.

Lemma dictionary_to_vim_frees items :
  Forall (fun kv => object_to_vim_frees kv.2) items ->
  dict_items_well_keyed items = true -> NoDup (cstr <$> items.*1) ->
  forall d m err m' lck rc ht,
    mem_valid m ->
    blocks m !! d
    = Some (B_dict {| dv_lock := lck; dv_refcount := rc; dv_hashtab := ht |}) ->
    (forall k di, k ∈ items.*1 -> HI_KEY (cstr k) di ∉ ht_array ht) ->
    dictionary_to_vim object_to_vim d items m err = Done (true, m', err) ->
    exists C ht',
      blocks m' !! d
      = Some (B_dict {| dv_lock := lck; dv_refcount := rc; dv_hashtab := ht' |}) /\
      live_items (ht_array ht') ≡ₚ live_items (ht_array ht) ++ C.*1 /\
      tiles (next m) C (next m') /\
      Forall (cell_frees m') C /\
      (forall x, in_range (next m) (next m') x -> is_Some (blocks m' !! x)) /\
      (forall x, (x < next m)%positive -> x <> d -> blocks m' !! x = blocks m !! x) /\
      mem_valid m'.
Proof.
  induction 1 as [|[key value] rest Hitem _ IH];
    intros Hwk Hnd d m err m' lck rc ht Hv Hd Habs H; simpl in H.
  - injection H as <-. exists [], ht. simpl. rewrite app_nil_r.
    split; [done|]. split; [done|]. split; [done|]. split; [done|]. split; [|done].
    intros x [? ?]. lia.
  - unfold dict_items_well_keyed in Hwk. cbn [forallb] in Hwk.
    apply andb_true_iff in Hwk as [Hwk1 Hwk2].
    apply andb_true_iff in Hwk1 as [Hkey Hwk1].
    rewrite (negb_true_iff _) in Hkey. rewrite Hkey in H.
    cbn [fmap list_fmap fst] in Hnd. apply NoDup_cons in Hnd as [Hfresh Hnd].
    pose proof (Hv _ _ Hd) as Hdlt.
    unfold dictitem_alloc, alloc in H. cbn [fst snd] in H.
    set (di := next m) in *.
    set (m1 := {| blocks := <[di := B_dictitem (cstr key) uninit_tv]> (blocks m);
                  next := Pos.succ di |}) in *.
    assert (Hv1 : mem_valid m1) by apply (alloc_valid (B_dictitem (cstr key) uninit_tv) m Hv).
    assert (Hn1 : next m1 = Pos.succ di) by reflexivity.
    inv_bind H. destruct a as [[ok1 m2] err2].
    destruct (object_to_vim_verdict _ _ _ _ _ _ _ Ha) as [Hok Herr]. simpl in Hitem, Hwk1.
    rewrite (well_keyed_convertible _ Hwk1) in Hok. subst ok1 err2.
    destruct (object_to_vim_frame _ _ _ _ _ _ _ Hv1 Ha) as (Hfr2 & Hcell2 & Hn2 & Hv2).
    pose proof (object_to_vim_tv _ _ _ _ _ _ _ Hv1 Ha) as Htv2.
    destruct (Hitem Hwk1 di m1 err m2 Hv1) as [Hlive2 Hfrees2]; [|done|].
    { unfold is_cell_b, m1; simpl. by rewrite lookup_insert_eq. }
    destruct (object_to_vim_ok value (well_keyed_convertible _ Hwk1) di m1 err
                (B_dictitem (cstr key) uninit_tv) uninit_tv Hv1)
      as (m2' & tvv & b' & Hrun & _ & _ & _ & Hb' & Hbdi & _); [|done|].
    { unfold m1; simpl. by rewrite lookup_insert_eq. }
    rewrite Ha in Hrun. injection Hrun as <-. simpl in Hb'. injection Hb' as <-.
    inv_bind H. rename a into r.
    assert (Hd2 : blocks m2 !! d
                  = Some (B_dict {| dv_lock := lck; dv_refcount := rc; dv_hashtab := ht |})).
    { rewrite Hfr2 by lia. unfold m1; simpl. by rewrite lookup_insert_ne by lia. }
    unfold dict_add in Ha0. rewrite (load_dict_lookup _ _ _ Hd2) in Ha0.
    cbn [bind] in Ha0. unfold load_dictitem_key in Ha0. rewrite Hbdi in Ha0.
    cbn [bind dv_hashtab dv_lock dv_refcount] in Ha0.
    destruct (hash_add_absent ht (cstr key) di) as (ht1 & Hadd & Hused & Hperm).
    { intros di'. apply Habs. by left. }
    rewrite Hadd in Ha0. rewrite (store_dict_lookup _ _ _ _ Hd2) in Ha0.
    injection Ha0 as <-. simpl in H.
    set (m3 := {| blocks := <[d := _]> (blocks m2); next := next m2 |}) in *.
    destruct (IH Hwk2 Hnd d m3 err m' lck rc ht1)
      as (C & ht' & HdC & Hlive' & Ht & Hcells & Hlive & Hfr & Hv');
      [|by (unfold m3; simpl; rewrite lookup_insert_eq)| |done|].
    { unfold mem_valid, m3; simpl. apply (valid_blocks_insert _ (next m2)); [done|lia|lia]. }
    { intros k di' Hk Hin. rewrite Hperm in Hin.
      apply elem_of_cons in Hin as [[= Heq _]|Hin].
      - apply Hfresh. rewrite <- Heq. apply list_elem_of_fmap. by exists k.
      - apply (Habs k di'); [by right|done]. }
    assert (Hn3 : next m3 = next m2) by reflexivity.
    pose proof (tiles_le _ _ _ Ht) as Hle.
    assert (Hsame : forall x, (x < next m2)%positive -> x <> d ->
              blocks m' !! x = blocks m2 !! x).
    { intros x Hx Hxl. rewrite Hfr by (rewrite ?Hn3; done). unfold m3; simpl.
      by rewrite lookup_insert_ne. }
    exists ((di, next m2) :: C), ht'. cbn [fmap list_fmap fst].
    split; [done|]. split.
    { rewrite Hlive'. rewrite (live_items_Permutation _ _ Hperm). simpl.
      by rewrite Permutation_middle. }
    split. { simpl. split; [done|]. split; [lia|]. by rewrite <- Hn3. }
    split.
    { constructor; [|done].
      exists (B_dictitem (cstr key) tvv), tvv. simpl.
      split; [rewrite Hsame by lia; done|]. split; [done|].
      rewrite (load_tv_lookup _ _ _ _ Hbdi eq_refl) in Htv2. injection Htv2 as ->. simpl.
      apply (frees_back_agree m2); [by rewrite <- Hn1|].
      intros x [? ?]. apply Hsame; lia. }
    split.
    { intros x [Hx1 Hx2].
      destruct (decide (x < next m2)%positive) as [Hlt|Hge].
      - rewrite Hsame by lia. destruct (decide (x = di)) as [->|Hne].
        + rewrite Hbdi. eauto.
        + apply Hlive2. rewrite Hn1. split; lia.
      - apply Hlive. rewrite Hn3. split; lia. }
    split; [|done].
    intros x Hx Hxl. rewrite Hsame by lia. rewrite Hfr2 by lia.
    unfold m1; simpl. by rewrite lookup_insert_ne by lia.
Qed.

(** Releasing a container with one reference whose items fill the
    addresses after it: the container, its items and what they hold are
    freed, and [root] is cleared. *)
Lemma release_cells (unref : (addr -> mem -> res mem) -> addr -> mem -> res mem)
    md c C hi vv M root b tvr f items bc0 :
  tiles (Pos.succ c) C hi ->
  Forall (cell_frees md) C ->
  items ≡ₚ C.*1 ->
  blocks M !! root = Some b -> block_tv b = Some tvr ->
  ~ in_range c hi root ->
  (forall x, in_range (Pos.succ c) hi x -> blocks M !! x = blocks md !! x) ->
  (Pos.to_nat hi - Pos.to_nat c <= f)%nat ->
  (forall M1 M2,
     blocks M1 = <[c := bc0]> (blocks M) -> next M1 = next M ->
     free_items (clear_tv_fuel f) true items M1 = Done M2 ->
     blocks M2 !! c = Some bc0 ->
     unref (clear_tv_fuel f) c M
     = Done {| blocks := delete c (blocks M2); next := next M2 |}) ->
  exists M' bc,
    (m <- unref (clear_tv_fuel f) c M ;;
     store_tv root {| v_lock := 0; vval := cleared vv |} m) = Done M' /\
    block_with_tv b {| v_lock := 0; vval := cleared vv |} = Some bc /\
    blocks M' !! root = Some bc /\
    freed_range c hi root M M'.
Proof.
  intros Ht Hcells Hperm Hb Htv Hroot Hag Hf Hunref.
  pose proof (tiles_le _ _ _ Ht) as Hle.
  set (M1 := {| blocks := <[c := bc0]> (blocks M); next := next M |}).
  destruct (free_items_cells md (Pos.succ c) C hi f Ht Hcells ltac:(lia) items)
    with (M := M1) as (M2 & Hrun & Hn2 & Hnone & Hsame).
  { rewrite Hperm. by eapply tiles_NoDup. }
  { intros a Ha. by rewrite <- Hperm. }
  { intros a e x Ha HaC Hx. destruct (tiles_in _ _ _ _ _ Ht HaC) as (? & ? & ?).
    destruct Hx. unfold M1; simpl. rewrite lookup_insert_ne by lia.
    apply Hag. split; lia. }
  assert (Hout : forall x, ~ in_range (Pos.succ c) hi x -> blocks M2 !! x = blocks M1 !! x).
  { intros x Hx. apply Hsame. intros a e Ha HaC Hin. apply Hx.
    destruct (tiles_in _ _ _ _ _ Ht HaC) as (? & ? & ?). destruct Hin. split; lia. }
  assert (Hc2 : blocks M2 !! c = Some bc0).
  { rewrite Hout by (intros [? ?]; lia). unfold M1; simpl. by rewrite lookup_insert_eq. }
  rewrite (Hunref M1 M2 eq_refl eq_refl Hrun Hc2). cbn [bind].
  destruct (block_with_tv_cell b tvr {| v_lock := 0; vval := cleared vv |} Htv)
    as (bc & Hbc & _ & _).
  assert (root <> c) as Hrc by (intros ->; apply Hroot; split; lia).
  assert (Hroot2 : blocks M2 !! root = Some b).
  { rewrite Hout by (intros [? ?]; apply Hroot; split; lia).
    unfold M1; simpl. by rewrite lookup_insert_ne. }
  exists {| blocks := <[root := bc]> (delete c (blocks M2)); next := next M2 |}, bc.
  split.
  { rewrite store_tv_eq. simpl. rewrite lookup_delete_ne by done. rewrite Hroot2. simpl.
    by rewrite Hbc. }
  split; [done|]. split; [simpl; by rewrite lookup_insert_eq|].
  split; [simpl; by rewrite Hn2|]. split.
  - intros x [Hx1 Hx2]. simpl.
    rewrite lookup_insert_ne by (intros <-; apply Hroot; by split).
    destruct (decide (x = c)) as [->|Hne]; [by rewrite lookup_delete_eq|].
    rewrite lookup_delete_ne by done.
    destruct (tiles_cover (Pos.succ c) C hi x Ht) as (a & e & HaC & Hin); [split; lia|].
    apply (Hnone a e x); [|done|done].
    rewrite Hperm. apply list_elem_of_fmap. by exists (a, e).
  - intros x Hx Hxr. simpl. rewrite lookup_insert_ne by done.
    assert (x <> c) by (intros ->; apply Hx; split; lia).
    rewrite lookup_delete_ne by done.
    rewrite Hout by (intros [? ?]; apply Hx; split; lia).
    unfold M1; simpl. by rewrite lookup_insert_ne.
Qed.

Lemma object_to_vim_frees_ok v : object_to_vim_frees v.
Proof.
  induction v as [|b|i|f|s|items IH|items IH] using Object_nested_ind;
    intros Hwk tv m err m' Hv Hcell H.
  1-5: cbn [object_to_vim] in H; inv_bind H; inv_bind H; injection H as <-;
       apply store_tv_inv in Ha as (b0 & b1 & _ & _ & ->);
       apply store_tv_inv in Ha0 as (b2 & b3 & _ & _ & ->); simpl;
       (split; [intros x [? ?]; lia | by apply frees_back_scalar]).
  - (* Array *)
    simpl in Hwk. pose proof (object_to_vim_tv _ _ _ _ _ _ _ Hv H) as Htv.
    cbn [object_to_vim] in H. inv_bind H. rename a into m1.
    apply store_tv_inv in Ha as (b0 & b1 & Hb0 & Hb1 & ->).
    pose proof (Hv _ _ Hb0) as Hlt.
    unfold list_alloc, alloc in H. cbn [fst snd next blocks] in H.
    set (l := next m) in *.
    inv_bind H. rename a into mc. inv_bind H. destruct a as [[ok1 md] err4].
    destruct ok1; [|done]. inv_bind H. injection H as <- <-.
    assert (Hvc : mem_valid mc).
    { eapply store_tv_valid; [|exact Ha]. unfold mem_valid; simpl.
      apply (valid_blocks_insert _ l); [|lia|lia].
      apply (valid_blocks_insert _ l); [done|lia|done]. }
    assert (Hnc : next mc = Pos.succ l).
    { by apply store_tv_inv in Ha as (? & ? & _ & _ & ->). }
    assert (Hlc : blocks mc !! l
                  = Some (B_list {| lv_items := []; lv_refcount := 0; lv_lock := 0 |})).
    { apply store_tv_inv in Ha as (? & ? & _ & _ & ->). simpl.
      rewrite lookup_insert_ne by lia. by rewrite lookup_insert_eq. }
    destruct (array_to_vim_frees items IH Hwk l mc err4 md [] 0 0 Hvc Hlc)
      as (C & Hld & Ht & Hcells & Hlive & Hfr & Hvd).
    { exact Ha0. }
    simpl in Hld. rewrite Hnc in Ht, Hlive.
    unfold list_ref in Ha1. rewrite (load_list_lookup _ _ _ Hld) in Ha1.
    cbn [bind] in Ha1. rewrite (store_list_lookup _ _ _ _ Hld) in Ha1.
    injection Ha1 as <-. simpl.
    pose proof (tiles_le _ _ _ Ht) as Hle.
    split.
    { intros x [Hx1 Hx2]. destruct (decide (x = l)) as [->|Hne].
      - rewrite lookup_insert_eq. eauto.
      - rewrite lookup_insert_ne by done. apply Hlive. split; lia. }
    intros M root b tvr fuel Hb Hbtv Hvv Hroot Hag Hfuel.
    destruct fuel as [|f]; [lia|].
    cbn [clear_tv_fuel]. rewrite (load_tv_lookup _ _ _ _ Hb Hbtv). cbn [bind].
    rewrite Hvv.
    apply (release_cells list_unref_with md l C (next md) (V_LIST (Some l)) M root b tvr f
             C.*1 (B_list {| lv_items := C.*1; lv_refcount := 0; lv_lock := 0 |}));
      try done.
    + intros x [Hx1 Hx2]. rewrite Hag by (split; lia). simpl.
      by rewrite lookup_insert_ne by lia.
    + lia.
    + intros M1 M2 HM1 HnM1 Hrun Hc2.
      assert (HMl : blocks M !! l
                    = Some (B_list {| lv_items := C.*1; lv_refcount := 0 + 1; lv_lock := 0 |})).
      { rewrite Hag by (split; lia). simpl. by rewrite lookup_insert_eq. }
      unfold list_unref_with. rewrite (load_list_lookup _ _ _ HMl). cbn [bind]. simpl.
      rewrite (store_list_lookup _ _ _ _ HMl). cbn [bind].
      change (0 + 1 - 1) with 0.
      assert ({| blocks := <[l := B_list {| lv_items := C.*1; lv_refcount := 0;
                                            lv_lock := 0 |}]> (blocks M);
                 next := next M |} = M1) as ->.
      { destruct M1; simpl in *; by subst. }
      unfold list_free_with.
      rewrite (load_list_lookup M1 l {| lv_items := C.*1; lv_refcount := 0; lv_lock := 0 |})
        by (rewrite HM1; by rewrite lookup_insert_eq).
      cbn [bind lv_items]. rewrite Hrun. cbn [bind]. unfold free. by rewrite Hc2.
  - (* Dictionary *)
    simpl in Hwk. apply andb_true_iff in Hwk as [Hwk Hnd].
    apply bool_decide_eq_true in Hnd.
    pose proof (object_to_vim_tv _ _ _ _ _ _ _ Hv H) as Htv.
    cbn [object_to_vim] in H. inv_bind H. rename a into m1.
    apply store_tv_inv in Ha as (b0 & b1 & Hb0 & Hb1 & ->).
    pose proof (Hv _ _ Hb0) as Hlt.
    unfold dict_alloc, alloc in H. cbn [fst snd next blocks] in H.
    set (d := next m) in *.
    inv_bind H. rename a into mc. inv_bind H. destruct a as [[ok1 md] err4].
    destruct ok1; [|done]. inv_bind H. injection H as <- <-.
    assert (Hvc : mem_valid mc).
    { eapply store_tv_valid; [|exact Ha]. unfold mem_valid; simpl.
      apply (valid_blocks_insert _ d); [|lia|lia].
      apply (valid_blocks_insert _ d); [done|lia|done]. }
    assert (Hnc : next mc = Pos.succ d).
    { by apply store_tv_inv in Ha as (? & ? & _ & _ & ->). }
    assert (Hdc : blocks mc !! d
                  = Some (B_dict {| dv_lock := 0; dv_refcount := 0;
                                    dv_hashtab := {| ht_used := O; ht_array := [] |} |})).
    { apply store_tv_inv in Ha as (? & ? & _ & _ & ->). simpl.
      rewrite lookup_insert_ne by lia. by rewrite lookup_insert_eq. }
    destruct (dictionary_to_vim_frees items IH Hwk Hnd d mc err4 md 0 0
                {| ht_used := O; ht_array := [] |} Hvc Hdc)
      as (C & ht' & Hdd & Hperm & Ht & Hcells & Hlive & Hfr & Hvd).
    { intros k di _ Hin. by apply elem_of_nil in Hin. }
    { exact Ha0. }
    simpl in Hperm. rewrite Hnc in Ht, Hlive.
    unfold dict_ref in Ha1. rewrite (load_dict_lookup _ _ _ Hdd) in Ha1.
    cbn [bind] in Ha1. rewrite (store_dict_lookup _ _ _ _ Hdd) in Ha1.
    injection Ha1 as <-. simpl.
    pose proof (tiles_le _ _ _ Ht) as Hle.
    split.
    { intros x [Hx1 Hx2]. destruct (decide (x = d)) as [->|Hne].
      - rewrite lookup_insert_eq. eauto.
      - rewrite lookup_insert_ne by done. apply Hlive. split; lia. }
    intros M root b tvr fuel Hb Hbtv Hvv Hroot Hag Hfuel.
    destruct fuel as [|f]; [lia|].
    cbn [clear_tv_fuel]. rewrite (load_tv_lookup _ _ _ _ Hb Hbtv). cbn [bind].
    rewrite Hvv.
    apply (release_cells dict_unref_with md d C (next md) (V_DICT (Some d)) M root b tvr f
             (live_items (ht_array ht'))
             (B_dict {| dv_lock := 0; dv_refcount := 0; dv_hashtab := ht' |}));
      try done.
    + intros x [Hx1 Hx2]. rewrite Hag by (split; lia). simpl.
      by rewrite lookup_insert_ne by lia.
    + lia.
    + intros M1 M2 HM1 HnM1 Hrun Hc2.
      assert (HMd : blocks M !! d
                    = Some (B_dict {| dv_lock := 0; dv_refcount := 0 + 1;
                                      dv_hashtab := ht' |})).
      { rewrite Hag by (split; lia). simpl. by rewrite lookup_insert_eq. }
      unfold dict_unref_with. rewrite (load_dict_lookup _ _ _ HMd). cbn [bind]. simpl.
      rewrite (store_dict_lookup _ _ _ _ HMd). cbn [bind].
      change (0 + 1 - 1) with 0.
      assert ({| blocks := <[d := B_dict {| dv_lock := 0; dv_refcount := 0;
                                            dv_hashtab := ht' |}]> (blocks M);
                 next := next M |} = M1) as ->.
      { destruct M1; simpl in *; by subst. }
      unfold dict_free_with.
      rewrite (load_dict_lookup M1 d {| dv_lock := 0; dv_refcount := 0; dv_hashtab := ht' |})
        by (rewrite HM1; by rewrite lookup_insert_eq).
      cbn [bind dv_hashtab]. rewrite Hrun. cbn [bind]. unfold free. by rewrite Hc2.
Qed.

Lemma dictionary_to_vim_app rec pre tail : forall d m err m1 err1,
  dictionary_to_vim rec d pre m err = Done (true, m1, err1) ->
  dictionary_to_vim rec d (pre ++ tail) m err = dictionary_to_vim rec d tail m1 err1.
Proof.
  induction pre as [|[key value] pre IH]; intros d m err m1 err1 H; simpl in H |- *.
  - by injection H as <- <-.
  - destruct (String.length key =? 0)%nat.
    { by inv_bind H. }
    destruct (rec value (next m) _ err) as [[[ok1 m2] err2]| |]; cbn [bind] in *; try done.
    destruct ok1.
    + destruct (dict_add d (next m) m2) as [r| |]; cbn [bind] in *; try done. by apply IH.
    + inv_bind H. by inv_bind H.
Qed.

Lemma object_to_vim_rolls_back (pre rest : list (string * Object)) (k : string)
    (val : Object) (tv : addr) (m : mem) (err : Error) :
  mem_valid m ->
  is_cell_b m tv = true ->
  dict_items_well_keyed pre = true ->
  NoDup (cstr <$> pre.*1) ->
  String.length k = O ->
  exists m',
    object_to_vim (ObjDictionary (pre ++ (k, val) :: rest)) tv m err
    = Done (false, m', set_api_error "Empty dictionary keys aren't allowed" err) /\
    (forall x, x <> tv -> blocks m' !! x = blocks m !! x) /\
    load_tv m' tv = Done {| v_lock := 0; vval := V_DICT (Some (next m)) |}.
Proof.
  intros Hv Hcell Hwk Hnd Hk.
  destruct (is_cell_b_lookup _ _ Hcell) as (b0 & tv0 & Hb0 & Hc0).
  pose proof (Hv _ _ Hb0) as Hlt.
  destruct (block_with_tv_cell b0 tv0 {| v_lock := 0; vval := V_UNKNOWN |} Hc0)
    as (b1 & Hb1 & Hc1 & Hk1).
  set (d := next m) in *.
  destruct (block_with_tv_cell b0 tv0 {| v_lock := 0; vval := V_DICT (Some d) |} Hc0)
    as (b2 & Hb2 & Hc2 & Hk2).
  set (d0 := {| dv_lock := 0; dv_refcount := 0;
                dv_hashtab := {| ht_used := O; ht_array := [] |} |}).
  set (mc := {| blocks := <[tv := b2]> (<[d := B_dict d0]> (<[tv := b1]> (blocks m)));
                next := Pos.succ d |}).
  assert (Hvc : mem_valid mc).
  { unfold mem_valid, mc; simpl.
    apply (valid_blocks_insert _ (Pos.succ d)); [|lia|lia].
    apply (valid_blocks_insert _ d); [|lia|lia].
    apply (valid_blocks_insert _ d); [done|lia|lia]. }
  assert (Hdc : blocks mc !! d = Some (B_dict d0)).
  { unfold mc; simpl. rewrite lookup_insert_ne by lia. by rewrite lookup_insert_eq. }
  assert (Hspec : Forall (fun kv : string * Object => object_to_vim_spec kv.2) pre).
  { apply Forall_forall. intros. apply object_to_vim_ok. }
  assert (Hfrees : Forall (fun kv : string * Object => object_to_vim_frees kv.2) pre).
  { apply Forall_forall. intros. apply object_to_vim_frees_ok. }
  assert (Hconv : dict_items_convertible pre = true).
  { apply dict_items_well_keyed_convertible; [|done].
    apply Forall_forall. intros. by apply well_keyed_convertible. }
  destruct (dictionary_to_vim_ok pre Hspec Hconv d mc err 0 0
              {| ht_used := O; ht_array := [] |} Hvc Hdc)
    as (mk & ht1 & Hrun & _).
  destruct (dictionary_to_vim_frees pre Hfrees Hwk Hnd d mc err mk 0 0
              {| ht_used := O; ht_array := [] |} Hvc Hdc)
    as (C & ht' & Hdk & Hperm & Ht & Hcells & Hlive & Hfr & Hvk); [|done|].
  { intros k0 di _ Hin. by apply elem_of_nil in Hin. }
  simpl in Hperm, Ht, Hlive, Hfr.
  pose proof (tiles_le _ _ _ Ht) as Hle.
  destruct (free_items_cells mk (Pos.succ d) C (next mk) (clear_fuel mk) Ht Hcells)
    with (items := live_items (ht_array ht')) (M := mk)
    as (M2 & Hfree & Hn2 & Hnone & Hsame); try done.
  { unfold clear_fuel.
    pose proof (range_size _ (Pos.succ d) (next mk) (blocks mk) eq_refl Hlive). lia. }
  { rewrite Hperm. by eapply tiles_NoDup. }
  { intros a Ha. by rewrite <- Hperm. }
  assert (Hout : forall x, ~ in_range (Pos.succ d) (next mk) x ->
            blocks M2 !! x = blocks mk !! x).
  { intros x Hx. apply Hsame. intros a e Ha HaC Hin. apply Hx.
    destruct (tiles_in _ _ _ _ _ Ht HaC) as (? & ? & ?). destruct Hin. split; lia. }
  assert (Hd2 : blocks M2 !! d = Some (B_dict {| dv_lock := 0; dv_refcount := 0;
                                                 dv_hashtab := ht' |})).
  { rewrite Hout by (intros [? ?]; lia). done. }
  exists {| blocks := delete d (blocks M2); next := next M2 |}.
  assert (Hrun' : object_to_vim (ObjDictionary (pre ++ (k, val) :: rest)) tv m err
            = Done (false, {| blocks := delete d (blocks M2); next := next M2 |},
                    set_api_error "Empty dictionary keys aren't allowed" err)).
  { cbn [object_to_vim]. rewrite store_tv_eq, Hb0. simpl. rewrite Hb1. cbn [bind].
    unfold dict_alloc, alloc. simpl. fold d.
    rewrite store_tv_eq. simpl. rewrite lookup_insert_ne by lia.
    rewrite lookup_insert_eq. simpl. rewrite Hk1, Hb2. cbn [bind].
    fold d0. fold mc.
    rewrite (dictionary_to_vim_app _ _ _ _ _ _ _ _ Hrun).
    cbn [dictionary_to_vim]. rewrite Hk. cbn [Nat.eqb].
    unfold dict_free, dict_free_with. rewrite (load_dict_lookup _ _ _ Hdk). cbn [bind].
    cbn [dv_hashtab]. rewrite Hfree. cbn [bind]. unfold free. rewrite Hd2. done. }
  split; [done|]. split.
  - intros x Hx. simpl.
    destruct (decide (x = d)) as [->|Hne].
    { rewrite lookup_delete_eq. symmetry.
      destruct (blocks m !! d) as [b|] eqn:E; [|done]. specialize (Hv _ _ E). lia. }
    rewrite lookup_delete_ne by done.
    destruct (decide (x < d)%positive) as [Hlow|Hhigh].
    + rewrite Hout by (intros [? ?]; lia). rewrite Hfr by lia.
      unfold mc; simpl. by rewrite !lookup_insert_ne by lia.
    + assert (blocks m !! x = None) as ->.
      { destruct (blocks m !! x) as [b|] eqn:E; [|done]. specialize (Hv _ _ E). lia. }
      destruct (decide (x < next mk)%positive) as [Hin|Hge].
      * destruct (tiles_cover (Pos.succ d) C (next mk) x Ht) as (a & e & HaC & Hr);
          [split; lia|].
        apply (Hnone a e x); [|done|done].
        rewrite Hperm. apply list_elem_of_fmap. by exists (a, e).
      * rewrite Hout by (intros [? ?]; lia).
        destruct (blocks mk !! x) as [b|] eqn:E; [|done]. specialize (Hvk _ _ E). lia.
  - exact (object_to_vim_tv _ _ _ _ _ _ _ Hv Hrun').
Qed.


(** ** dict_set_value when the conversion of the value stops *)

Lemma array_to_vim_app rec pre tail : forall l m err m1 err1,
  array_to_vim rec l pre m err = Done (true, m1, err1) ->
  array_to_vim rec l (pre ++ tail) m err = array_to_vim rec l tail m1 err1.
Proof.
  induction pre as [|item pre IH]; intros l m err m1 err1 H; simpl in H |- *.
  - by injection H as <- <-.
  - destruct (rec item (next m) _ err) as [[[ok1 m2] err2]| |]; cbn [bind] in *; try done.
    destruct ok1.
    + destruct (list_append l (next m) m2) as [m3| |]; cbn [bind] in *; try done.
      by apply IH.
    + inv_bind H. by inv_bind H.
Qed.

(** Where the conversion stops decides how: at an empty key of the
    Dictionary itself it returns false; below that, the cleanup of the
    caller releases the item of the failed call and faults. *)
Lemma object_to_vim_fails nested v :
  conversion_fails nested v ->
  forall tv m err,
    mem_valid m -> is_cell_b m tv = true ->
    if nested then object_to_vim v tv m err = Fault
    else exists m',
           object_to_vim v tv m err
           = Done (false, m', set_api_error "Empty dictionary keys aren't allowed" err).
Proof.
  induction 1 as [pre k val rest Hwk Hnd Hk
                 |pre bad rest nested Hpre Hbad IH
                 |pre k bad rest nested Hpre Hk Hbad IH];
    intros tv m err Hv Hcell.
  - destruct (object_to_vim_rolls_back pre rest k val tv m err Hv Hcell Hwk Hnd Hk)
      as (m' & Hrun & _). by exists m'.
  - destruct (is_cell_b_lookup _ _ Hcell) as (b0 & tv0 & Hb0 & Hc0).
    pose proof (Hv _ _ Hb0) as Hlt.
    destruct (block_with_tv_cell b0 tv0 {| v_lock := 0; vval := V_UNKNOWN |} Hc0)
      as (b1 & Hb1 & Hc1 & Hk1).
    set (l := next m) in *.
    destruct (block_with_tv_cell b0 tv0 {| v_lock := 0; vval := V_LIST (Some l) |} Hc0)
      as (b2 & Hb2 & Hc2 & Hk2).
    set (l0 := {| lv_items := []; lv_refcount := 0; lv_lock := 0 |}).
    set (mc := {| blocks := <[tv := b2]> (<[l := B_list l0]> (<[tv := b1]> (blocks m)));
                  next := Pos.succ l |}).
    assert (Hvc : mem_valid mc).
    { unfold mem_valid, mc; simpl.
      apply (valid_blocks_insert _ (Pos.succ l)); [|lia|lia].
      apply (valid_blocks_insert _ l); [|lia|lia].
      apply (valid_blocks_insert _ l); [done|lia|lia]. }
    assert (Hlc : blocks mc !! l = Some (B_list l0)).
    { unfold mc; simpl. rewrite lookup_insert_ne by lia. by rewrite lookup_insert_eq. }
    assert (Hspec : Forall object_to_vim_spec pre).
    { apply Forall_forall. intros. apply object_to_vim_ok. }
    destruct (array_to_vim_ok pre Hspec Hpre l mc err [] 0 0 Hvc Hlc)
      as (mk & lis & Hrun & _ & Hvk & _).
    assert (object_to_vim (ObjArray (pre ++ bad :: rest)) tv m err = Fault) as Hgoal.
    { cbn [object_to_vim]. rewrite store_tv_eq, Hb0. simpl. rewrite Hb1. cbn [bind].
      unfold list_alloc, alloc. simpl. fold l.
      rewrite store_tv_eq. simpl. rewrite lookup_insert_ne by lia.
      rewrite lookup_insert_eq. simpl. rewrite Hk1, Hb2. cbn [bind].
      fold l0. fold mc.
      rewrite (array_to_vim_app _ _ _ _ _ _ _ _ Hrun).
      cbn [array_to_vim]. unfold listitem_alloc, alloc. cbn [fst snd].
      pose proof (alloc_valid (B_listitem uninit_tv) mk Hvk) as Hv1.
      unfold alloc in Hv1. cbn [snd] in Hv1.
      specialize (IH (next mk) _ err Hv1).
      destruct nested.
      - rewrite IH; [done|]. unfold is_cell_b; simpl. by rewrite lookup_insert_eq.
      - destruct IH as [m' Hbadrun].
        { unfold is_cell_b; simpl. by rewrite lookup_insert_eq. }
        rewrite Hbadrun. cbn [bind]. unfold listitem_free.
        by rewrite (failed_item_release _ _ _ _ _ _ Hv1 Hbadrun). }
    exact Hgoal.
  - destruct (is_cell_b_lookup _ _ Hcell) as (b0 & tv0 & Hb0 & Hc0).
    pose proof (Hv _ _ Hb0) as Hlt.
    destruct (block_with_tv_cell b0 tv0 {| v_lock := 0; vval := V_UNKNOWN |} Hc0)
      as (b1 & Hb1 & Hc1 & Hk1).
    set (d := next m) in *.
    destruct (block_with_tv_cell b0 tv0 {| v_lock := 0; vval := V_DICT (Some d) |} Hc0)
      as (b2 & Hb2 & Hc2 & Hk2).
    set (d0 := {| dv_lock := 0; dv_refcount := 0;
                  dv_hashtab := {| ht_used := O; ht_array := [] |} |}).
    set (mc := {| blocks := <[tv := b2]> (<[d := B_dict d0]> (<[tv := b1]> (blocks m)));
                  next := Pos.succ d |}).
    assert (Hvc : mem_valid mc).
    { unfold mem_valid, mc; simpl.
      apply (valid_blocks_insert _ (Pos.succ d)); [|lia|lia].
      apply (valid_blocks_insert _ d); [|lia|lia].
      apply (valid_blocks_insert _ d); [done|lia|lia]. }
    assert (Hdc : blocks mc !! d = Some (B_dict d0)).
    { unfold mc; simpl. rewrite lookup_insert_ne by lia. by rewrite lookup_insert_eq. }
    assert (Hspec : Forall (fun kv : string * Object => object_to_vim_spec kv.2) pre).
    { apply Forall_forall. intros. apply object_to_vim_ok. }
    destruct (dictionary_to_vim_ok pre Hspec Hpre d mc err 0 0
                {| ht_used := O; ht_array := [] |} Hvc Hdc)
      as (mk & ht1 & Hrun & _ & Hvk & _).
    cbn [object_to_vim]. rewrite store_tv_eq, Hb0. simpl. rewrite Hb1. cbn [bind].
    unfold dict_alloc, alloc. simpl. fold d.
    rewrite store_tv_eq. simpl. rewrite lookup_insert_ne by lia.
    rewrite lookup_insert_eq. simpl. rewrite Hk1, Hb2. cbn [bind].
    fold d0. fold mc.
    rewrite (dictionary_to_vim_app _ _ _ _ _ _ _ _ Hrun).
    cbn [dictionary_to_vim]. rewrite (proj2 (Nat.eqb_neq _ _) Hk).
    unfold dictitem_alloc, alloc. cbn [fst snd].
    pose proof (alloc_valid (B_dictitem (cstr k) uninit_tv) mk Hvk) as Hv1.
    unfold alloc in Hv1. cbn [snd] in Hv1.
    specialize (IH (next mk) _ err Hv1).
    destruct nested.
    + rewrite IH; [done|]. unfold is_cell_b; simpl. by rewrite lookup_insert_eq.
    + destruct IH as [m' Hbadrun].
      { unfold is_cell_b; simpl. by rewrite lookup_insert_eq. }
      rewrite Hbadrun. cbn [bind]. unfold dictitem_free.
      by rewrite (failed_item_release _ _ _ _ _ _ Hv1 Hbadrun).
Qed.

(** C6, where the code goes wrong: when the conversion of the value stops
    below its top level (an element of an Array, or the value of a pair of a
    Dictionary, is a Dictionary that comes to an empty key, at any depth),
    [object_to_vim] does not return false for [dict_set_value] to propagate:
    its cleanup releases the container that the nested call has freed, and
    the call of [dict_set_value] on an unlocked dictionary faults instead of
    returning the error with the dictionary untouched. *)
Theorem dict_set_value_nested_failure (dict : addr) (key : string) (value : Object)
    (m : mem) (err : Error) (dv : dict_T) :
  mem_valid m ->
  load_dict m dict = Done dv ->
  dv_lock dv = 0 ->
  String.length key <> O ->
  conversion_fails true value ->
  dict_set_value dict key value m err = Fault.
Proof.
  intros Hv Hd Hlock Hkey Hfails.
  unfold dict_set_value. rewrite Hd. cbn [bind]. rewrite Hlock. cbn [Z.eqb negb].
  rewrite (proj2 (Nat.eqb_neq _ _) Hkey).
  unfold alloc. cbn [fst snd].
  rewrite (object_to_vim_fails true value Hfails (next m)); [done| |].
  - pose proof (alloc_valid (B_typval uninit_tv) m Hv) as Hv1. exact Hv1.
  - unfold is_cell_b; simpl. by rewrite lookup_insert_eq.
Qed.




(** ** dict_set_value and dict_get_value together *)

Lemma hash_find_middle_index l1 l2 key di :
  (forall di', HI_KEY key di' ∉ l1) ->
  hash_find (l1 ++ HI_KEY key di :: l2) key = length l1.
Proof.
  induction l1 as [|hi l1 IH]; intros Habs; simpl.
  - by rewrite decide_True.
  - assert (forall di', HI_KEY key di' ∉ l1) as Habs'.
    { intros di' Hin. apply (Habs di'). by right. }
    destruct hi as [| |k di']; try (by rewrite IH).
    case_decide; [|by rewrite IH]. subst k. exfalso. apply (Habs di'). by left.
Qed.

(** A removed slot does not change what is found. *)
Lemma hash_find_removed l1 l2 k :
  hashitem_at (l1 ++ HI_REMOVED :: l2) (hash_find (l1 ++ HI_REMOVED :: l2) k)
  = hashitem_at (l1 ++ l2) (hash_find (l1 ++ l2) k).
Proof.
  induction l1 as [|hi l1 IH]; simpl; [done|].
  destruct hi as [| |k' di']; try apply IH.
  case_decide; [done|]. apply IH.
Qed.

(** Adding a key that was not there and removing it again. *)
Lemma hash_add_remove ht key di ht' :
  HASHITEM_EMPTY (hashitem_at (ht_array ht) (hash_find (ht_array ht) key)) = true ->
  hash_add ht key di = (true, ht') ->
  ht_used (hash_remove ht' (hash_find (ht_array ht') key)) = ht_used ht /\
  (forall k, hashitem_at (ht_array (hash_remove ht' (hash_find (ht_array ht') key)))
               (hash_find (ht_array (hash_remove ht' (hash_find (ht_array ht') key))) k)
             = hashitem_at (ht_array ht) (hash_find (ht_array ht) k)).
Proof.
  intros Hempty. unfold hash_add. cbv zeta. rewrite Hempty.
  generalize (hash_hash key mod S (length (ht_array ht)))%nat. intros p [= <-].
  cbn [hash_remove ht_used ht_array]. split; [done|]. intros k.
  assert (forall di', HI_KEY key di' ∉ take p (ht_array ht)) as Habs.
  { intros di' Hin. apply (hash_find_empty_absent _ _ Hempty di').
    rewrite <- (take_drop p (ht_array ht)). apply elem_of_app. by left. }
  rewrite hash_find_middle_index by done.
  rewrite insert_app_r_alt by done. rewrite Nat.sub_diag. cbn [insert list_insert].
  rewrite hash_find_removed. by rewrite take_drop.
Qed.

Lemma exact_roundtrip_well_keyed v : exact_roundtrip v = true -> well_keyed v = true.
Proof.
  induction v as [|b|i|f|s|items IH|items IH] using Object_nested_ind; simpl; try done.
  - induction IH as [|x xs Hx _ IHxs]; simpl; [done|].
    intros H. apply andb_true_iff in H as [H1 H2]. by rewrite (Hx H1), (IHxs H2).
  - intros H. apply andb_true_iff in H as [H Hnd]. apply bool_decide_eq_true in Hnd.
    apply andb_true_iff. split.
    + clear Hnd. induction IH as [|[k x] xs Hx _ IHxs]; simpl in *; [done|].
      apply andb_true_iff in H as [H1 H2].
      apply andb_true_iff in H1 as [H1 Hp]. apply andb_true_iff in H1 as [Hlen _].
      by rewrite Hlen, (Hx Hp), (IHxs H2).
    + apply bool_decide_eq_true.
      assert (cstr <$> items.*1 = items.*1) as ->; [|done].
      clear Hnd IH. induction items as [|[k x] xs IHxs]; simpl in *; [done|].
      apply andb_true_iff in H as [H1 H2].
      apply andb_true_iff in H1 as [H1 _]. apply andb_true_iff in H1 as [_ Hk].
      apply bool_decide_eq_true in Hk. rewrite Hk. f_equal. exact (IHxs H2).
Qed.

(** For a Value that converts back as it is ([exact_roundtrip]), a set of a
    new key followed by a pop of that key gives the Value back and leaves no
    trace: the pop returns a Value structurally equal to the one that was
    set, every block but the dictionary itself is as before the set (what
    the conversion built and the entry are freed), and the dictionary has as
    many entries as before and finds every key as before. *)
Theorem dict_set_value_pop (rv0 : Object) (dict : addr) (key : string)
    (value : Object) (m : mem) (err : Error) (dv : dict_T) :
  mem_valid m ->
  load_dict m dict = Done dv ->
  dv_lock dv = 0 ->
  String.length key <> O ->
  exact_roundtrip value = true ->
  dict_find dv key = None ->
  exists m1 m2 v' dv2,
    dict_set_value dict key value m err = Done (ObjNil, m1, err) /\
    dict_get_value rv0 dict key true m1 err = Done (v', m2, err) /\
    obj_equiv v' value /\
    (forall x, x <> dict -> blocks m2 !! x = blocks m !! x) /\
    load_dict m2 dict = Done dv2 /\
    ht_used (dv_hashtab dv2) = ht_used (dv_hashtab dv) /\
    (forall k, dict_find dv2 k = dict_find dv k).
Proof.
  intros Hv Hd Hlock Hkey Hex Hfind.
  set (m0 := (alloc (B_typval uninit_tv) m).2).
  assert (Hv0 : mem_valid m0) by apply (alloc_valid _ _ Hv).
  assert (Hn0 : next m0 = Pos.succ (next m)) by reflexivity.
  assert (Hb0 : blocks m0 !! next m = Some (B_typval uninit_tv)).
  { unfold m0, alloc; simpl. by rewrite lookup_insert_eq. }
  destruct (object_to_vim_ok value (exact_roundtrip_convertible _ Hex) (next m) m0 err
              (B_typval uninit_tv) uninit_tv Hv0 Hb0 eq_refl)
    as (m_1 & tvv & b' & Hrun & Hn1 & Hv1 & Hfr & Hb' & Htvb & Hlk & Hbuilt & Hrb).
  pose proof (block_with_tv_block_tv _ _ _ Hb') as Htvv.
  specialize (Hrb Hex).
  destruct (object_to_vim_frees_ok value (exact_roundtrip_well_keyed _ Hex) (next m) m0 err
              m_1 Hv0) as [Hlive Hfrees]; [|done|].
  { unfold is_cell_b. by rewrite Hb0. }
  pose proof (object_to_vim_tv _ _ _ _ _ _ _ Hv0 Hrun) as Htv1.
  rewrite (load_tv_lookup _ _ _ _ Htvb Htvv) in Htv1. injection Htv1 as Htv1.
  rewrite Hn0 in *.
  destruct (dict_set_value_new_mem dict key value m err dv m_1 tvv b')
    as (ms & dv' & Hset & Hd' & Hf' & Hdi & Hsame & Hlow & Htvnone & Hns & Hvs & Hlock'
        & Hadd); try done.
  set (di := next m_1) in *.
  apply load_dict_inv in Hd. pose proof (Hv _ _ Hd) as Hdlt.
  destruct (is_cell_b_lookup _ _ (load_tv_is_cell_b _ _ _ Hdi)) as (bdi & tvd & Hbdi & Hcd).
  assert (tvd = tvv) as ->.
  { rewrite (load_tv_lookup _ _ _ _ Hbdi Hcd) in Hdi. by injection Hdi. }
  destruct (reads_back_vim_to_object ms (Pos.succ (next m)) di tvv value di)
    as (v' & Hback & Heq); [|done| |].
  { apply (reads_back_agree m_1); [done|]. intros x [Hx1 Hx2]. apply Hsame; lia. }
  { intros [? ?]. lia. }
  destruct (dict_find_Some _ _ _ Hf') as [k Hk].
  set (arr' := ht_array (dv_hashtab dv')) in *.
  set (dv2 := {| dv_lock := dv_lock dv'; dv_refcount := dv_refcount dv';
                 dv_hashtab := hash_remove (dv_hashtab dv') (hash_find arr' (cstr key)) |}).
  set (mr := {| blocks := <[dict := B_dict dv2]> (blocks ms); next := next ms |}).
  assert (Hmr : forall x, x <> dict -> blocks mr !! x = blocks ms !! x).
  { intros x Hx. unfold mr; simpl. by rewrite lookup_insert_ne. }
  assert (Hfuel : (Pos.to_nat di - Pos.to_nat (Pos.succ (next m)) < clear_fuel mr)%nat).
  { unfold clear_fuel.
    assert (Pos.to_nat di - Pos.to_nat (Pos.succ (next m)) <= size (blocks mr))%nat; [|lia].
    apply (range_size _ (Pos.succ (next m)) di); [done|].
    intros x [Hx1 Hx2]. rewrite Hmr by lia. rewrite Hsame by lia. apply Hlive. by split. }
  destruct (Hfrees mr di bdi tvv (clear_fuel mr))
    as (Mc & bc & Hclear & Hbc & Hroot & Hnc & Hnone & Hsamec);
    [by rewrite Hmr by lia|done|by rewrite Htv1|intros [? ?]; lia| |done|].
  { intros x [Hx1 Hx2]. rewrite Hmr by lia. apply Hsame; lia. }
  exists ms, {| blocks := delete di (blocks Mc); next := next Mc |}, v', dv2.
  split; [done|]. split.
  { unfold dict_get_value. rewrite Hd'. cbn [bind]. fold arr'. rewrite Hk.
    cbn [HASHITEM_EMPTY dict_lookup bind]. rewrite Hback. cbn [bind].
    assert ((dv_lock dv' =? 0) = true) as -> by (by rewrite Hlock', Hlock). cbn [negb].
    rewrite (store_dict_lookup _ _ _ _ (load_dict_inv _ _ _ Hd')). cbn [bind].
    fold dv2 mr. unfold dictitem_free, clear_tv. rewrite Hclear. cbn [bind].
    unfold free. by rewrite Hroot. }
  split; [done|].
  assert (Hdict2 : blocks Mc !! dict = Some (B_dict dv2)).
  { rewrite Hsamec; [|intros [? ?]; lia|lia]. unfold mr; simpl. by rewrite lookup_insert_eq. }
  split.
  { intros x Hx. simpl.
    destruct (decide (x = di)) as [->|Hne].
    { rewrite lookup_delete_eq. symmetry.
      destruct (blocks m !! di) as [b|] eqn:E; [|done]. specialize (Hv _ _ E). lia. }
    rewrite lookup_delete_ne by done.
    destruct (decide (in_range (Pos.succ (next m)) di x)) as [Hin|Hout].
    { rewrite Hnone by done. symmetry. destruct Hin.
      destruct (blocks m !! x) as [b|] eqn:E; [|done]. specialize (Hv _ _ E). lia. }
    rewrite Hsamec by done. rewrite Hmr by done.
    destruct (decide (x < next m)%positive) as [Hlt|Hge]; [by apply Hlow|].
    assert (blocks m !! x = None) as ->.
    { destruct (blocks m !! x) as [b|] eqn:E; [|done]. specialize (Hv _ _ E). lia. }
    destruct (decide (x = next m)) as [->|Hne2]; [done|].
    destruct (blocks ms !! x) as [b|] eqn:E; [|done]. specialize (Hvs _ _ E).
    exfalso. apply Hout. split; lia. }
  split.
  { apply load_dict_lookup. simpl. rewrite lookup_delete_ne by lia. done. }
  assert (Hempty : HASHITEM_EMPTY (hashitem_at (ht_array (dv_hashtab dv))
                     (hash_find (ht_array (dv_hashtab dv)) (cstr key))) = true).
  { by apply dict_find_None. }
  destruct (hash_add_remove _ _ _ _ Hempty Hadd) as [Hused Hlook].
  split; [done|]. intros k0. unfold dict_find, dv2. cbn [dv_hashtab]. fold arr'.
  by rewrite Hlook.
Qed.

(** Setting a new key twice, first to a Value that converts back as it is
    ([exact_roundtrip]), then to a Value that [object_to_vim] accepts
    ([convertible]): the second set returns a Value structurally equal to
    the one set first and releases what the first conversion built, block by
    block; what was in the memory before the two calls is untouched, the
    dictionary apart. *)
Theorem dict_set_value_twice (dict : addr) (key : string) (v1 v2 : Object)
    (m : mem) (err : Error) (dv : dict_T) :
  mem_valid m ->
  load_dict m dict = Done dv ->
  dv_lock dv = 0 ->
  String.length key <> O ->
  exact_roundtrip v1 = true ->
  convertible v2 = true ->
  dict_find dv key = None ->
  exists m1 m2 old di,
    dict_set_value dict key v1 m err = Done (ObjNil, m1, err) /\
    dict_set_value dict key v2 m1 err = Done (old, m2, err) /\
    obj_equiv old v1 /\
    (next m < di)%positive /\
    (forall x, (next m < x)%positive -> (x < di)%positive ->
       is_Some (blocks m1 !! x) /\ blocks m2 !! x = None) /\
    (forall x, (x < next m)%positive -> x <> dict -> blocks m2 !! x = blocks m !! x).
Proof.
  intros Hv Hd Hlock Hkey Hex Hconv Hfind.
  set (m0 := (alloc (B_typval uninit_tv) m).2).
  assert (Hv0 : mem_valid m0) by apply (alloc_valid _ _ Hv).
  assert (Hn0 : next m0 = Pos.succ (next m)) by reflexivity.
  assert (Hb0 : blocks m0 !! next m = Some (B_typval uninit_tv)).
  { unfold m0, alloc; simpl. by rewrite lookup_insert_eq. }
  destruct (object_to_vim_ok v1 (exact_roundtrip_convertible _ Hex) (next m) m0 err
              (B_typval uninit_tv) uninit_tv Hv0 Hb0 eq_refl)
    as (m_1 & tvv & b' & Hrun & Hn1 & Hv1 & Hfr & Hb' & Htvb & Hlk & Hbuilt & Hrb).
  pose proof (block_with_tv_block_tv _ _ _ Hb') as Htvv.
  specialize (Hrb Hex).
  destruct (object_to_vim_frees_ok v1 (exact_roundtrip_well_keyed _ Hex) (next m) m0 err
              m_1 Hv0) as [Hlive Hfrees]; [|done|].
  { unfold is_cell_b. by rewrite Hb0. }
  pose proof (object_to_vim_tv _ _ _ _ _ _ _ Hv0 Hrun) as Htv1.
  rewrite (load_tv_lookup _ _ _ _ Htvb Htvv) in Htv1. injection Htv1 as Htv1.
  rewrite Hn0 in *.
  destruct (dict_set_value_new_mem dict key v1 m err dv m_1 tvv b')
    as (ms & dv' & Hset & Hd' & Hf' & Hdi & Hsame & Hlow & Htvnone & Hns & Hvs & Hlock'
        & Hadd); try done.
  set (di := next m_1) in *.
  apply load_dict_inv in Hd. pose proof (Hv _ _ Hd) as Hdlt.
  destruct (is_cell_b_lookup _ _ (load_tv_is_cell_b _ _ _ Hdi)) as (bdi & tvd & Hbdi & Hcd).
  assert (tvd = tvv) as ->.
  { rewrite (load_tv_lookup _ _ _ _ Hbdi Hcd) in Hdi. by injection Hdi. }
  destruct (reads_back_vim_to_object ms (Pos.succ (next m)) di tvv v1 di)
    as (old & Hback & Heq); [|done| |].
  { apply (reads_back_agree m_1); [done|]. intros x [Hx1 Hx2]. apply Hsame; lia. }
  { intros [? ?]. lia. }
  assert (Hfuel : (Pos.to_nat di - Pos.to_nat (Pos.succ (next m)) < clear_fuel ms)%nat).
  { unfold clear_fuel.
    assert (Pos.to_nat di - Pos.to_nat (Pos.succ (next m)) <= size (blocks ms))%nat; [|lia].
    apply (range_size _ (Pos.succ (next m)) di); [done|].
    intros x [Hx1 Hx2]. rewrite Hsame by lia. apply Hlive. by split. }
  destruct (Hfrees ms di bdi tvv (clear_fuel ms))
    as (mc & bc & Hclear & Hbc & Hroot & Hnc & Hnone & Hsamec);
    [done|done|by rewrite Htv1|intros [? ?]; lia| |done|].
  { intros x [Hx1 Hx2]. apply Hsame; lia. }
  set (ms0 := (alloc (B_typval uninit_tv) ms).2).
  assert (Hvs0 : mem_valid ms0) by apply (alloc_valid _ _ Hvs).
  assert (Hbs0 : blocks ms0 !! next ms = Some (B_typval uninit_tv)).
  { unfold ms0, alloc; simpl. by rewrite lookup_insert_eq. }
  destruct (object_to_vim_ok v2 Hconv (next ms) ms0 err
              (B_typval uninit_tv) uninit_tv Hvs0 Hbs0 eq_refl)
    as (m_2 & tvv2 & b2' & Hrun2 & Hn2 & Hv2 & Hfr2 & Hb2' & Htvb2 & Hlk2 & Hbuilt2 & _).
  pose proof (block_with_tv_block_tv _ _ _ Hb2') as Htvv2.
  destruct (dict_set_value_existing_mem dict key v2 ms err dv' m_2 tvv2 b2' di old mc)
    as (m2 & Hset2 & Hdi2 & Hlt2 & Hlow2 & Hsame2); try done.
  { by rewrite Hlock'. }
  exists ms, m2, old, di. split; [done|]. split; [done|]. split; [done|].
  split; [lia|]. split.
  - intros x Hx1 Hx2. split.
    + rewrite Hsame by lia. apply Hlive. split; lia.
    + rewrite Hlow2 by lia. apply Hnone. split; lia.
  - intros x Hx Hxd. rewrite Hlow2 by lia.
    rewrite Hsamec; [|intros [? ?]; lia|lia]. by apply Hlow.
Qed.


(** ** More on the two converters *)

(** The round trip of the Values that are not containers, exactly: Nil and
    a Boolean come back as an Integer, an Integer as the host number type
    maps it, a String cut at its first NUL byte, a Float unchanged. *)
Theorem object_to_vim_scalar_back (obj : Object) (tv : addr) (m : mem) (err : Error) :
  mem_valid m ->
  is_cell_b m tv = true ->
  (forall items, obj <> ObjArray items) ->
  (forall items, obj <> ObjDictionary items) ->
  exists m',
    object_to_vim obj tv m err = Done (true, m', err) /\
    vim_to_object m' tv = Done (scalar_back obj).
Proof.
  intros Hv Hcell Harr Hdict.
  assert (convertible obj = true) as Hconv.
  { destruct obj as [|b|i|f|s|items|items]; try done.
    - by destruct (Harr items).
    - by destruct (Hdict items). }
  destruct (is_cell_b_lookup _ _ Hcell) as (b0 & tv0 & Hb0 & Hc0).
  destruct (object_to_vim_ok obj Hconv tv m err b0 tv0 Hv Hb0 Hc0)
    as (m' & _ & _ & Hrun & _).
  exists m'. split; [done|].
  pose proof (object_to_vim_tv _ _ _ _ _ _ _ Hv Hrun) as Htv.
  apply (vim_to_object_of_rec 1 _ _ _ ∅).
  rewrite (vim_to_object_rec_scalar _ _ _ _ _ Htv).
  - destruct obj; simpl; rewrite ?cstr_idemp; try done; exfalso;
      [by eapply Harr | by eapply Hdict].
  - destruct obj; try done; exfalso; [by eapply Harr | by eapply Hdict].
Qed.

(** Only a typval_T that was entered before is cut, not a container that
    was: when the two items of a list hold one and the same list, whose own
    items are not containers, that list is converted for each of the two:
    the result is an Array of two equal Arrays, not of an Array and Nil. *)
Theorem vim_to_object_shared (m : mem) (obj l i1 i2 inner : addr)
    (lck lck1 lck2 : Z) (lv lvin : list_T) :
  load_tv m obj = Done {| v_lock := lck; vval := V_LIST (Some l) |} ->
  load_list m l = Done lv ->
  lv_items lv = [i1; i2] ->
  load_tv m i1 = Done {| v_lock := lck1; vval := V_LIST (Some inner) |} ->
  load_tv m i2 = Done {| v_lock := lck2; vval := V_LIST (Some inner) |} ->
  load_list m inner = Done lvin ->
  obj <> i1 -> obj <> i2 -> i1 <> i2 ->
  Forall (fun it => exists tv, load_tv m it = Done tv /\ is_container tv = false)
    (lv_items lvin) ->
  exists items,
    vim_to_object m obj = Done (ObjArray [ObjArray items; ObjArray items]) /\
    length items = length (lv_items lvin).
Proof.
  intros Hobj Hl Hitems H1 H2 Hin Hne1 Hne2 Hne12 Hsc.
  destruct (convert_list_items_scalars m _ Hsc) as (os & Hlen & Hos).
  exists os. split; [|done].
  apply (vim_to_object_of_rec 3 _ _ _ ({[i2]} ∪ ({[i1]} ∪ ({[obj]} ∪ ∅)))).
  rewrite (vim_to_object_rec_list _ _ _ _ _ _ _ Hobj Hl) by (clear; set_solver).
  rewrite Hitems. cbn [convert_list_items].
  rewrite (vim_to_object_rec_list _ _ _ _ _ _ _ H1 Hin) by (clear -Hne1; set_solver).
  rewrite Hos. cbn [bind].
  rewrite (vim_to_object_rec_list _ _ _ _ _ _ _ H2 Hin) by (clear -Hne2 Hne12; set_solver).
  rewrite Hos. cbn [bind]. reflexivity.
Qed.

(** The key is looked up as a C string: of a key with a NUL byte only the
    bytes before it count. *)
Theorem dict_get_value_key_bytes (rv0 : Object) (dict : addr) (key : string)
    (pop : bool) (m : mem) (err : Error) :
  dict_get_value rv0 dict key pop m err = dict_get_value rv0 dict (cstr key) pop m err.
Proof. unfold dict_get_value. by rewrite cstr_idemp. Qed.

End Helpers.

(** * The claims on the data of the examples *)

Lemma tv_mem_valid : mem_valid tv_mem.
Proof.
  apply (bool_decide_unpack
           (map_Forall (fun a _ => (a < next tv_mem)%positive) (blocks tv_mem))).
  vm_compute. exact I.
Qed.

Lemma dict_mem_valid lock : mem_valid (dict_mem lock).
Proof.
  apply (bool_decide_unpack
           (map_Forall (fun a _ => (a < 5)%positive) (blocks (dict_mem lock)))).
  vm_compute. exact I.
Qed.

Lemma dict_mem_locked_wf : mem_wf (dict_mem 1).
Proof.
  apply (bool_decide_unpack
           (map_Forall (fun _ b => block_ok (dict_mem 1) b = true) (blocks (dict_mem 1)))).
  vm_compute. exact I.
Qed.

Lemma dict_mem_unlocked_wf : mem_wf (dict_mem 0).
Proof.
  apply (bool_decide_unpack
           (map_Forall (fun _ b => block_ok (dict_mem 0) b = true) (blocks (dict_mem 0)))).
  vm_compute. exact I.
Qed.

Lemma cyclic_mem_wf : mem_wf cyclic_mem.
Proof.
  apply (bool_decide_unpack
           (map_Forall (fun _ b => block_ok cyclic_mem b = true) (blocks cyclic_mem))).
  vm_compute. exact I.
Qed.

(** C1 as it was claimed fails on Values without an empty key and without a
    NaN: Nil goes to the Number 0 and comes back as the Int 0, a Bool comes
    back as an Int, and a String comes back cut at its first NUL byte. *)
Lemma roundtrip_nil_counterexample :
  (exists m',
     object_to_vim int32_of_Integer 256 String.length ObjNil 1%positive tv_mem no_error
     = Done (true, m', no_error) /\
     vim_to_object Integer_of_int32 m' 1%positive = Done (ObjInt 0) /\
     ~ obj_equiv (ObjInt 0) ObjNil) /\
  (exists m',
     object_to_vim int32_of_Integer 256 String.length (ObjBool true) 1%positive
       tv_mem no_error
     = Done (true, m', no_error) /\
     vim_to_object Integer_of_int32 m' 1%positive = Done (ObjInt 1) /\
     ~ obj_equiv (ObjInt 1) (ObjBool true)) /\
  (exists m',
     object_to_vim int32_of_Integer 256 String.length
       (ObjString (String "a" (String Ascii.zero "b"))) 1%positive tv_mem no_error
     = Done (true, m', no_error) /\
     vim_to_object Integer_of_int32 m' 1%positive = Done (ObjString "a") /\
     ~ obj_equiv (ObjString "a") (ObjString (String "a" (String Ascii.zero "b")))).
Proof.
  repeat split; eexists;
    (split; [vm_compute; reflexivity|]); (split; [vm_compute; reflexivity|]);
    intros H; inversion H.
Qed.

Lemma object_to_vim_roundtrip_witness :
  exists m' v',
    object_to_vim int32_of_Integer 256 String.length sample_value 1%positive tv_mem no_error
    = Done (true, m', no_error) /\
    vim_to_object Integer_of_int32 m' 1%positive = Done v' /\
    obj_equiv v' sample_value.
Proof.
  apply (object_to_vim_roundtrip Integer_of_int32 int32_of_Integer 256 String.length
           sample_value 1%positive tv_mem no_error).
  - vm_compute. reflexivity.
  - exact tv_mem_valid.
  - vm_compute. reflexivity.
Defined.




Lemma object_to_vim_nested_failure_witness :
  object_to_vim int32_of_Integer 256 String.length
    (ObjDictionary [("a"%string, ObjDictionary [(""%string, ObjInt 1)]);
                    (""%string, ObjInt 2)])
    1%positive tv_mem no_error
  = Fault.
Proof.
  apply (object_to_vim_nested_failure int32_of_Integer 256 String.length
           1%positive tv_mem no_error "a"%string (ObjInt 1) [] [(""%string, ObjInt 2)]).
  - exact tv_mem_valid.
  - vm_compute. reflexivity.
  - simpl. lia.
Defined.

(** The example of the specification, a dictionary whose own first key is
    empty: the error is set, false is returned and every block allocated on
    the way is freed again. *)
Example object_to_vim_empty_key :
  exists m',
    object_to_vim int32_of_Integer 256 String.length
      (ObjDictionary [(""%string, ObjInt 1); ("ok"%string, ObjInt 2)])
      1%positive tv_mem no_error
    = Done (false, m',
            {| msg := "Empty dictionary keys aren't allowed"; set := true |}) /\
    dom (blocks m') = dom (blocks tv_mem).
Proof. eexists. split; vm_compute; reflexivity. Qed.

(** The same with pairs before the empty key. *)
Example object_to_vim_empty_key_later :
  exists m',
    object_to_vim int32_of_Integer 256 String.length
      (ObjDictionary [("a"%string, ObjArray [ObjInt 1; ObjString "x"]);
                      (""%string, ObjInt 2)])
      1%positive tv_mem no_error
    = Done (false, m',
            {| msg := "Empty dictionary keys aren't allowed"; set := true |}) /\
    dom (blocks m') = dom (blocks tv_mem).
Proof. eexists. split; vm_compute; reflexivity. Qed.

Lemma dict_get_value_pop_locked_witness :
  exists v,
    vim_to_object Integer_of_int32 (dict_mem 1) 2%positive = Done v /\
    dict_get_value Integer_of_int32 256 ObjNil 1%positive "k" true (dict_mem 1) no_error
    = Done (v, dict_mem 1, set_api_error 256 "Dictionary is locked" no_error) /\
    dict_get_value Integer_of_int32 256 (ObjBool true) 1%positive "k" true (dict_mem 1)
      (set_api_error 256 "Dictionary is locked" no_error)
    = Done (v, dict_mem 1, set_api_error 256 "Dictionary is locked" no_error).
Proof.
  apply (dict_get_value_pop_locked Integer_of_int32 256 ObjNil (ObjBool true) 1%positive
           "k" (dict_mem 1) no_error (dict_k 1) 2%positive).
  - exact dict_mem_locked_wf.
  - vm_compute. reflexivity.
  - simpl. lia.
  - vm_compute. reflexivity.
Defined.

Lemma try_end_interrupt_first_witness :
  try_end 256 string (fun text => (text, false))
    {| trylevel := 1; did_emsg := true; got_int := true; did_throw := true;
       msg_list := Some (Some "E121: Undefined variable"%string);
       current_exception := Some "boom"%string |}
    no_error
  = Done (true,
          {| trylevel := 0; did_emsg := false; got_int := false; did_throw := false;
             msg_list := Some (Some "E121: Undefined variable"%string);
             current_exception := None |},
          {| msg := "Keyboard interrupt"; set := true |}).
Proof.
  apply (try_end_interrupt_first 256 string (fun text => (text, false))
           {| trylevel := 1; did_emsg := true; got_int := true; did_throw := true;
              msg_list := Some (Some "E121: Undefined variable"%string);
              current_exception := Some "boom"%string |} no_error);
    reflexivity.
Defined.

Lemma dict_set_value_no_mutation_witness :
  dict_set_value Integer_of_int32 int32_of_Integer 256 String.length
    1%positive "k" (ObjInt 1) (dict_mem 1) no_error
  = Done (ObjNil, dict_mem 1, set_api_error 256 "Dictionary is locked" no_error) /\
  exists m',
    dict_set_value Integer_of_int32 int32_of_Integer 256 String.length
      1%positive "k" (ObjDictionary [("a"%string, ObjInt 1); (""%string, ObjInt 3)])
      (dict_mem 0) no_error
    = Done (ObjNil, m', set_api_error 256 "Empty dictionary keys aren't allowed" no_error) /\
    (forall x, (x < 5)%positive -> blocks m' !! x = blocks (dict_mem 0) !! x) /\
    load_dict m' 1%positive = Done (dict_k 0).
Proof.
  split.
  - apply (proj1 (dict_set_value_no_mutation Integer_of_int32 int32_of_Integer 256
                    String.length 1%positive "k" (ObjInt 1) (dict_mem 1) no_error
                    (dict_k 1) eq_refl)).
    simpl. lia.
  - eapply (proj2 (dict_set_value_no_mutation Integer_of_int32 int32_of_Integer 256
                     String.length 1%positive "k"
                     (ObjDictionary [("a"%string, ObjInt 1); (""%string, ObjInt 3)])
                     (dict_mem 0) no_error (dict_k 0) eq_refl)).
    + exact (dict_mem_valid 0).
    + reflexivity.
    + simpl. lia.
    + vm_compute. reflexivity.
Defined.

Lemma dict_set_value_stores_witness :
  (exists m' di,
     dict_set_value Integer_of_int32 int32_of_Integer 256 String.length
       1%positive "n" sample_value (dict_mem 0) no_error
     = Done (ObjNil, m', no_error) /\
     blocks (dict_mem 0) !! di = None /\
     (exists dv', load_dict m' 1%positive = Done dv' /\ dict_find dv' "n" = Some di) /\
     load_tv m' di = Done {| v_lock := 0; vval := V_DICT (Some 6%positive) |}) /\
  (exists m',
     dict_set_value Integer_of_int32 int32_of_Integer 256 String.length
       1%positive "k" sample_value (dict_mem 0) no_error
     = Done (ObjArray [ObjInt 7], m', no_error) /\
     load_tv m' 2%positive = Done {| v_lock := 0; vval := V_DICT (Some 6%positive) |} /\
     blocks m' !! 3%positive = None /\ blocks m' !! 4%positive = None).
Proof.
  destruct (dict_set_value_stores Integer_of_int32 int32_of_Integer 256 String.length
              1%positive "n" sample_value (dict_mem 0) no_error (dict_k 0))
    as (m1 & tvv & Hrun & Htv & Hnew & _).
  { exact (dict_mem_valid 0). }
  { reflexivity. }
  { reflexivity. }
  { simpl. lia. }
  { vm_compute. reflexivity. }
  destruct (dict_set_value_stores Integer_of_int32 int32_of_Integer 256 String.length
              1%positive "k" sample_value (dict_mem 0) no_error (dict_k 0))
    as (m1' & tvv' & Hrun' & Htv' & _ & Hold).
  { exact (dict_mem_valid 0). }
  { reflexivity. }
  { reflexivity. }
  { simpl. lia. }
  { vm_compute. reflexivity. }
  split.
  - destruct (Hnew eq_refl) as (m' & di & dv' & Hset & Hfresh & Hd & Hfind & _ & Hdi & _).
    exists m', di. split; [exact Hset|]. split; [exact Hfresh|].
    split; [exists dv'; split; assumption|].
    rewrite Hdi. f_equal.
    vm_compute in Hrun. injection Hrun as <-. vm_compute in Htv. injection Htv as <-.
    reflexivity.
  - destruct (Hold 2%positive dict_mem_unlocked_wf eq_refl) as (old & Hconv & Hstore).
    vm_compute in Hconv. injection Hconv as <-.
    destruct (Hstore
                {| blocks := list_to_map
                     [ (1%positive, B_dict (dict_k 0));
                       (2%positive, B_dictitem "k" {| v_lock := 0; vval := V_LIST None |}) ];
                   next := 5%positive |})
      as (m' & Hset & Hdi & _ & Hrest).
    { vm_compute. reflexivity. }
    exists m'. split; [exact Hset|]. split.
    + rewrite Hdi. f_equal.
      vm_compute in Hrun'. injection Hrun' as <-. vm_compute in Htv'. injection Htv' as <-.
      reflexivity.
    + split; (rewrite Hrest; [reflexivity | simpl; lia | lia]).
Defined.

Lemma vim_to_object_returns_witness :
  exists v, vim_to_object Integer_of_int32 cyclic_mem 1%positive = Done v.
Proof.
  apply (proj1 (proj2 (vim_to_object_returns Integer_of_int32 cyclic_mem 1%positive))).
  - exact cyclic_mem_wf.
  - vm_compute. reflexivity.
Defined.

Lemma vim_to_object_string_witness :
  vim_to_object Integer_of_int32
    {| blocks := {[ 1%positive := B_typval {| v_lock := 0; vval := V_STRING None |} ]};
       next := 2%positive |} 1%positive
  = Done ObjNil.
Proof.
  apply (vim_to_object_string Integer_of_int32
           {| blocks := {[ 1%positive := B_typval {| v_lock := 0; vval := V_STRING None |} ]};
              next := 2%positive |} 1%positive
           {| v_lock := 0; vval := V_STRING None |}).
  - vm_compute. reflexivity.
  - reflexivity.
Defined.

Lemma dict_get_value_key_not_found_witness :
  dict_get_value Integer_of_int32 256 (ObjString "junk") 1%positive "absent" false
    (dict_mem 0) no_error
  = Done (ObjString "junk", dict_mem 0, set_api_error 256 "Key not found" no_error).
Proof.
  apply (dict_get_value_key_not_found Integer_of_int32 256 (ObjString "junk") 1%positive
           "absent" false (dict_mem 0) no_error (dict_k 0)).
  - reflexivity.
  - vm_compute. reflexivity.
Defined.

(** * The further properties on the data of the examples *)

Lemma dict_var_mem_wf : mem_wf (dict_var_mem 2).
Proof.
  apply (bool_decide_unpack
           (map_Forall (fun _ b => block_ok (dict_var_mem 2) b = true)
              (blocks (dict_var_mem 2)))).
  vm_compute. exact I.
Qed.

Lemma cyclic_mem_valid : mem_valid cyclic_mem.
Proof.
  apply (bool_decide_unpack
           (map_Forall (fun a _ => (a < next cyclic_mem)%positive) (blocks cyclic_mem))).
  vm_compute. exact I.
Qed.

Lemma try_end_reports_witness :
  exists g' err',
    try_end 256 string (fun text => (text, false))
      {| trylevel := 2; did_emsg := true; got_int := false; did_throw := true;
         msg_list := Some None; current_exception := Some "E605: boom"%string |}
      no_error
    = Done (true, g', err') /\
    set err' = true /\ trylevel string g' = 1 /\ did_emsg string g' = false.
Proof.
  eexists _, _. split; [reflexivity|].
  destruct (try_end_reports 256 string (fun text => (text, false))
              {| trylevel := 2; did_emsg := true; got_int := false; did_throw := true;
                 msg_list := Some None; current_exception := Some "E605: boom"%string |}
              _ no_error _ true eq_refl) as (H1 & _ & H3 & H4 & _).
  split; [by rewrite <- H1|]. split; [exact H3 | exact H4].
Defined.

Lemma try_end_message_list_witness :
  try_end 256 string (fun text => (text, false))
    {| trylevel := 1; did_emsg := true; got_int := false; did_throw := true;
       msg_list := Some (Some "E121: Undefined variable: x"%string);
       current_exception := Some "E605: boom"%string |}
    no_error
  = Done (true,
          {| trylevel := 0; did_emsg := false; got_int := false; did_throw := true;
             msg_list := Some None; current_exception := Some "E605: boom"%string |},
          {| msg := "E121: Undefined variable: x"; set := true |}).
Proof.
  apply (try_end_message_list 256 string (fun text => (text, false))
           {| trylevel := 1; did_emsg := true; got_int := false; did_throw := true;
              msg_list := Some (Some "E121: Undefined variable: x"%string);
              current_exception := Some "E605: boom"%string |}
           no_error "E121: Undefined variable: x"%string); reflexivity.
Defined.

Lemma try_end_exception_witness :
  try_end 256 string (fun text => (text, false))
    {| trylevel := 1; did_emsg := true; got_int := false; did_throw := true;
       msg_list := None; current_exception := Some "E605: boom"%string |}
    no_error
  = Done (true,
          {| trylevel := 0; did_emsg := false; got_int := false; did_throw := true;
             msg_list := None; current_exception := Some "E605: boom"%string |},
          {| msg := "E605: boom"; set := true |}).
Proof.
  apply (try_end_exception 256 string (fun text => (text, false))
           {| trylevel := 1; did_emsg := true; got_int := false; did_throw := true;
              msg_list := None; current_exception := Some "E605: boom"%string |}
           no_error "E605: boom"%string); try reflexivity.
  by left.
Defined.

Lemma try_start_try_end_witness :
  try_end 256 string (fun text => (text, false))
    (try_start string
       {| trylevel := 0; did_emsg := true; got_int := false; did_throw := false;
          msg_list := None; current_exception := None |})
    no_error
  = Done (false,
          {| trylevel := 0; did_emsg := false; got_int := false; did_throw := false;
             msg_list := None; current_exception := None |},
          no_error).
Proof.
  apply (try_start_try_end 256 string (fun text => (text, false))
           {| trylevel := 0; did_emsg := true; got_int := false; did_throw := false;
              msg_list := None; current_exception := None |} no_error); try reflexivity.
  by left.
Defined.

Lemma dict_get_value_reads_witness :
  exists v,
    vim_to_object Integer_of_int32 (dict_mem 0) 2%positive = Done v /\
    dict_get_value Integer_of_int32 256 ObjNil 1%positive "k" false (dict_mem 0) no_error
    = Done (v, dict_mem 0, no_error).
Proof.
  apply (dict_get_value_reads Integer_of_int32 256 ObjNil 1%positive "k" (dict_mem 0)
           no_error (dict_k 0) 2%positive).
  - exact dict_mem_unlocked_wf.
  - vm_compute. reflexivity.
  - vm_compute. reflexivity.
Defined.

Lemma dict_get_value_pop_witness :
  exists v m',
    dict_get_value Integer_of_int32 256 ObjNil 2%positive "a" true (dict_var_mem 2) no_error
    = Done (v, m', no_error) /\
    dict_get_value Integer_of_int32 256 ObjNil 2%positive "a" true m' no_error
    = Done (ObjNil, m', set_api_error 256 "Key not found" no_error).
Proof.
  destruct (dict_get_value_pop Integer_of_int32 256 ObjNil ObjNil 2%positive "a"
              (dict_var_mem 2) no_error (dict_ab 2) 3%positive)
    as (v & _ & _ & _ & _ & _ & Hscalar).
  - exact dict_var_mem_wf.
  - vm_compute. reflexivity.
  - reflexivity.
  - vm_compute. reflexivity.
  - apply (bool_decide_unpack (NoDup (live_keys (ht_array (dv_hashtab (dict_ab 2)))))).
    vm_compute. exact I.
  - destruct (Hscalar {| v_lock := 0; vval := V_NUMBER 1 |}) as [H1 H2].
    + vm_compute. reflexivity.
    + reflexivity.
    + eexists _, _. split; [exact H1 | exact H2].
Defined.

Lemma dict_set_value_empty_key_witness :
  dict_set_value Integer_of_int32 int32_of_Integer 256 String.length
    1%positive "" sample_value (dict_mem 0) no_error
  = Done (ObjNil, dict_mem 0,
          set_api_error 256 "Empty dictionary keys aren't allowed" no_error).
Proof.
  apply (dict_set_value_empty_key Integer_of_int32 int32_of_Integer 256 String.length
           1%positive "" sample_value (dict_mem 0) no_error (dict_k 0)).
  - vm_compute. reflexivity.
  - reflexivity.
  - reflexivity.
Defined.


Lemma vim_to_object_list_witness :
  exists items,
    vim_to_object Integer_of_int32 cyclic_mem 1%positive = Done (ObjArray items) /\
    length items = 1%nat.
Proof.
  apply (vim_to_object_list Integer_of_int32 cyclic_mem 1%positive 2%positive 0
           {| lv_items := [3%positive]; lv_refcount := 2; lv_lock := 0 |}).
  - exact cyclic_mem_wf.
  - vm_compute. reflexivity.
  - vm_compute. reflexivity.
Defined.

Lemma vim_to_object_dict_witness :
  exists kvs,
    vim_to_object Integer_of_int32 (dict_var_mem 2) 1%positive = Done (ObjDictionary kvs) /\
    length kvs = 2%nat /\
    kvs.*1 = ["a"%string; "b"%string].
Proof.
  apply (vim_to_object_dict Integer_of_int32 (dict_var_mem 2) 1%positive 2%positive 0
           (dict_ab 2)).
  - exact dict_var_mem_wf.
  - vm_compute. reflexivity.
  - vm_compute. reflexivity.
Defined.

Lemma vim_to_object_dict_overrun_witness :
  vim_to_object Integer_of_int32 (dict_var_mem 3) 1%positive = Fault.
Proof.
  apply (vim_to_object_dict_overrun Integer_of_int32 (dict_var_mem 3) 1%positive 2%positive
           0 (dict_ab 3)).
  - vm_compute. reflexivity.
  - vm_compute. reflexivity.
  - simpl. lia.
Defined.

Lemma object_to_vim_accepts_witness :
  exists m',
    object_to_vim int32_of_Integer 256 String.length sample_value 1%positive tv_mem no_error
    = Done (true, m', no_error).
Proof.
  apply (proj1 (object_to_vim_accepts Integer_of_int32 int32_of_Integer 256 String.length
                  sample_value 1%positive tv_mem no_error)).
  - vm_compute. reflexivity.
  - exact tv_mem_valid.
  - vm_compute. reflexivity.
Defined.

Lemma object_to_vim_writes_tv_only_witness :
  exists m',
    object_to_vim int32_of_Integer 256 String.length sample_value (next (dict_mem 0))
      (alloc (B_typval uninit_tv) (dict_mem 0)).2 no_error
    = Done (true, m', no_error) /\
    (forall x b, blocks (alloc (B_typval uninit_tv) (dict_mem 0)).2 !! x = Some b ->
       x <> next (dict_mem 0) -> blocks m' !! x = Some b) /\
    is_cell_b m' (next (dict_mem 0)) = true /\
    (next (alloc (B_typval uninit_tv) (dict_mem 0)).2 <= next m')%positive /\
    mem_valid m'.
Proof.
  eexists. split; [vm_compute; reflexivity|].
  refine (object_to_vim_writes_tv_only int32_of_Integer 256 String.length
            sample_value (next (dict_mem 0)) (alloc (B_typval uninit_tv) (dict_mem 0)).2
            _ no_error no_error true _ _).
  - apply alloc_valid. exact (dict_mem_valid 0).
  - vm_compute. reflexivity.
Defined.

Lemma object_to_vim_sets_tv_witness :
  load_tv
    {| blocks := {[ 1%positive := B_typval {| v_lock := 0;
                                              vval := V_DICT (Some 2%positive) |} ]};
       next := 3%positive |} 1%positive
  = Done {| v_lock := 0; vval := V_DICT (Some 2%positive) |} /\
  (false = false ->
   ((exists items, ObjDictionary [(""%string, ObjInt 1)] = ObjArray items) \/
    (exists items, ObjDictionary [(""%string, ObjInt 1)] = ObjDictionary items)) /\
   ({[ 1%positive := B_typval {| v_lock := 0; vval := V_DICT (Some 2%positive) |} ]}
      : gmap positive block) !! 2%positive = None).
Proof.
  refine (object_to_vim_sets_tv int32_of_Integer 256 String.length
           (ObjDictionary [(""%string, ObjInt 1)]) 1%positive tv_mem
           {| blocks := {[ 1%positive := B_typval {| v_lock := 0;
                                                     vval := V_DICT (Some 2%positive) |} ]};
              next := 3%positive |}
           no_error
           (set_api_error 256 "Empty dictionary keys aren't allowed" no_error) false
           tv_mem_valid _).
  vm_compute. reflexivity.
Defined.

Lemma object_to_vim_false_witness :
  (exists pre k val rest,
     ObjDictionary [("a"%string, ObjInt 1); (""%string, ObjInt 2)]
     = ObjDictionary (pre ++ (k, val) :: rest) /\
     String.length k = O /\ dict_items_convertible pre = true) /\
  set_api_error 256 "Empty dictionary keys aren't allowed" no_error
  = set_api_error 256 "Empty dictionary keys aren't allowed" no_error /\
  load_tv
    {| blocks := {[ 1%positive := B_typval {| v_lock := 0;
                                              vval := V_DICT (Some 2%positive) |} ]};
       next := 4%positive |} 1%positive
  = Done {| v_lock := 0; vval := V_DICT (Some 2%positive) |} /\
  ({[ 1%positive := B_typval {| v_lock := 0; vval := V_DICT (Some 2%positive) |} ]}
     : gmap positive block) !! 2%positive = None.
Proof.
  refine (object_to_vim_false int32_of_Integer 256 String.length
           (ObjDictionary [("a"%string, ObjInt 1); (""%string, ObjInt 2)]) 1%positive
           tv_mem
           {| blocks := {[ 1%positive := B_typval {| v_lock := 0;
                                                     vval := V_DICT (Some 2%positive) |} ]};
              next := 4%positive |}
           no_error
           (set_api_error 256 "Empty dictionary keys aren't allowed" no_error)
           tv_mem_valid _).
  vm_compute. reflexivity.
Defined.


Lemma dict_set_value_pop_witness :
  exists m1 m2 v' dv2,
    dict_set_value Integer_of_int32 int32_of_Integer 256 String.length
      1%positive "n" sample_value (dict_mem 0) no_error
    = Done (ObjNil, m1, no_error) /\
    dict_get_value Integer_of_int32 256 ObjNil 1%positive "n" true m1 no_error
    = Done (v', m2, no_error) /\
    obj_equiv v' sample_value /\
    (forall x, x <> 1%positive -> blocks m2 !! x = blocks (dict_mem 0) !! x) /\
    load_dict m2 1%positive = Done dv2 /\
    ht_used (dv_hashtab dv2) = 1%nat /\
    (forall k, dict_find dv2 k = dict_find (dict_k 0) k).
Proof.
  apply (dict_set_value_pop Integer_of_int32 int32_of_Integer 256 String.length
           ObjNil 1%positive "n" sample_value (dict_mem 0) no_error (dict_k 0)).
  - exact (dict_mem_valid 0).
  - vm_compute. reflexivity.
  - reflexivity.
  - simpl. lia.
  - vm_compute. reflexivity.
  - vm_compute. reflexivity.
Defined.

Lemma dict_set_value_twice_witness :
  exists m1 m2 old di,
    dict_set_value Integer_of_int32 int32_of_Integer 256 String.length
      1%positive "n" sample_value (dict_mem 0) no_error
    = Done (ObjNil, m1, no_error) /\
    dict_set_value Integer_of_int32 int32_of_Integer 256 String.length
      1%positive "n" (ObjArray [ObjNil; ObjBool true]) m1 no_error
    = Done (old, m2, no_error) /\
    obj_equiv old sample_value /\
    (5 < di)%positive /\
    (forall x, (5 < x)%positive -> (x < di)%positive ->
       is_Some (blocks m1 !! x) /\ blocks m2 !! x = None) /\
    (forall x, (x < 5)%positive -> x <> 1%positive ->
       blocks m2 !! x = blocks (dict_mem 0) !! x).
Proof.
  apply (dict_set_value_twice Integer_of_int32 int32_of_Integer 256 String.length
           1%positive "n" sample_value (ObjArray [ObjNil; ObjBool true]) (dict_mem 0)
           no_error (dict_k 0)).
  - exact (dict_mem_valid 0).
  - vm_compute. reflexivity.
  - reflexivity.
  - simpl. lia.
  - vm_compute. reflexivity.
  - reflexivity.
  - vm_compute. reflexivity.
Defined.

Lemma object_to_vim_scalar_back_witness :
  exists m',
    object_to_vim int32_of_Integer 256 String.length (ObjBool true) 1%positive tv_mem
      no_error
    = Done (true, m', no_error) /\
    vim_to_object Integer_of_int32 m' 1%positive = Done (ObjInt 1).
Proof.
  apply (object_to_vim_scalar_back Integer_of_int32 int32_of_Integer 256 String.length
           (ObjBool true) 1%positive tv_mem no_error).
  - exact tv_mem_valid.
  - vm_compute. reflexivity.
  - discriminate.
  - discriminate.
Defined.

Lemma vim_to_object_shared_witness :
  exists items,
    vim_to_object Integer_of_int32 shared_mem 1%positive
    = Done (ObjArray [ObjArray items; ObjArray items]) /\
    length items = 1%nat.
Proof.
  apply (vim_to_object_shared Integer_of_int32 shared_mem 1%positive 2%positive
           3%positive 4%positive 5%positive 0 0 0
           {| lv_items := [3%positive; 4%positive]; lv_refcount := 1; lv_lock := 0 |}
           {| lv_items := [6%positive]; lv_refcount := 2; lv_lock := 0 |});
    try (vm_compute; reflexivity); try discriminate.
  constructor; [|constructor].
  exists {| v_lock := 0; vval := V_NUMBER 7 |}. split; vm_compute; reflexivity.
Defined.

Lemma dict_set_value_nested_failure_witness :
  dict_set_value Integer_of_int32 int32_of_Integer 256 String.length
    1%positive "n" (ObjArray [ObjDictionary [(""%string, ObjInt 1)]]) (dict_mem 0) no_error
  = Fault /\
  dict_set_value Integer_of_int32 int32_of_Integer 256 String.length
    1%positive "n"
    (ObjDictionary [("a"%string, ObjDictionary [(""%string, ObjInt 1)])])
    (dict_mem 0) no_error
  = Fault.
Proof.
  split.
  - apply (dict_set_value_nested_failure Integer_of_int32 int32_of_Integer 256
             String.length 1%positive "n" (ObjArray [ObjDictionary [(""%string, ObjInt 1)]])
             (dict_mem 0) no_error (dict_k 0)).
    + exact (dict_mem_valid 0).
    + vm_compute. reflexivity.
    + reflexivity.
    + simpl. lia.
    + apply (fails_element [] (ObjDictionary [(""%string, ObjInt 1)]) [] false);
        [reflexivity|].
      apply (fails_key [] ""%string (ObjInt 1) []); [reflexivity|constructor|reflexivity].
  - apply (dict_set_value_nested_failure Integer_of_int32 int32_of_Integer 256
             String.length 1%positive "n"
             (ObjDictionary [("a"%string, ObjDictionary [(""%string, ObjInt 1)])])
             (dict_mem 0) no_error (dict_k 0)).
    + exact (dict_mem_valid 0).
    + vm_compute. reflexivity.
    + reflexivity.
    + simpl. lia.
    + apply (fails_value [] "a"%string (ObjDictionary [(""%string, ObjInt 1)]) [] false);
        [reflexivity|simpl; lia|].
      apply (fails_key [] ""%string (ObjInt 1) []); [reflexivity|constructor|reflexivity].
Defined.

